(** * A shallow embedding of the [bytecode] assembler, disassembler and
      instruction model, with the properties stated of them.

    Two source files are embedded:
    - [bytecode.py]: [Instr], [Label], [Block], [Code] with
      [Code.create_label], [Code.disassemble] and [Code.assemble]
      (module [Bytecode] below);
    - [bytecode/instr.py]: the validated instruction of the high-level API,
      its stack effects and its mutators (module [InstrPy] below).

    Python integers are [Z]; [bytes] objects are lists of [Z] in 0..255;
    dictionaries are [gmap]s; Python exceptions are values of [exn] carried by
    the [result] monad.  Objects that the source mutates through several
    references (the [Block]s of a [Code]) live in an explicit heap indexed by
    object identity. *)

From Stdlib Require Import ZArith List String Ascii Lia Bool DecimalString.
From stdpp Require Import base option list gmap strings numbers.

Local Open Scope Z_scope.

(** ** Exceptions and the error monad *)

(** The exception classes the embedded code can raise.  [Stuck] is no Python
    exception: it is the embedding's own failure (a loop out of fuel, an
    object identity that is not in the heap); the theorems show where it
    cannot occur. *)
Inductive exn : Type :=
| KeyError
| IndexError
| ValueError
| TypeError
| AssertionError
| StructError
| Stuck.

Inductive result (A : Type) : Type :=
| Ok (a : A)
| Raise (e : exn).
Arguments Ok {A} a.
Arguments Raise {A} e.

#[global] Instance result_ret : MRet result := fun A a => Ok a.
#[global] Instance result_bind : MBind result :=
  fun A B f m => match m with Ok a => f a | Raise e => Raise e end.

#[global] Instance exn_eq_dec : EqDecision exn.
Proof. solve_decision. Defined.

Definition is_Ok {A} (r : result A) : bool :=
  match r with Ok _ => true | Raise _ => false end.

(** [for x in l: s = f(s, x)] with exceptions. *)
Fixpoint foldM {A S : Type} (f : S -> A -> result S) (s : S) (l : list A)
  : result S :=
  match l with
  | [] => Ok s
  | x :: l' => s' ← f s x; foldM f s' l'
  end.

(** ** Python sequence primitives *)

Definition len {A} (l : list A) : Z := Z.of_nat (length l).

(** [l[i]]: a negative index counts from the end; out of range raises
    [IndexError]. *)
Definition py_getitem {A} (l : list A) (i : Z) : result A :=
  let j := if i <? 0 then i + len l else i in
  if j <? 0 then Raise IndexError
  else match l !! Z.to_nat j with
       | Some x => Ok x
       | None => Raise IndexError
       end.

(** The start of a slice [l[i:]], clamped as Python clamps it. *)
Definition py_slice_start {A} (l : list A) (i : Z) : nat :=
  if i <? 0 then Z.to_nat (Z.max 0 (i + len l)) else Z.to_nat i.

(** [l[i:]] *)
Definition py_slice_from {A} (l : list A) (i : Z) : list A :=
  drop (py_slice_start l i) l.

(** [del l[i:]] *)
Definition py_del_from {A} (l : list A) (i : Z) : list A :=
  take (py_slice_start l i) l.

(** [l.insert(i, x)]: an index past the end appends. *)
Definition py_insert {A} (l : list A) (i : Z) (x : A) : list A :=
  let n := py_slice_start l i in take n l ++ x :: drop n l.

(** [l.index(x)] with the equality test [eqb]: the first position whose item
    compares equal, [ValueError] when there is none. *)
Fixpoint py_index_from {A} (eqb : A -> bool) (l : list A) (i : Z) : result Z :=
  match l with
  | [] => Raise ValueError
  | y :: l' => if eqb y then Ok i else py_index_from eqb l' (i + 1)
  end.

Definition py_index {A} (eqb : A -> bool) (l : list A) : result Z :=
  py_index_from eqb l 0.

(** [dict(pairs)]: a later pair overrides an earlier one with the same key. *)
Definition py_dict {K V} `{Countable K} (l : list (K * V)) : gmap K V :=
  foldl (fun m kv => <[kv.1 := kv.2]> m) ∅ l.

(** ** The instruction-set description (Python's [opcode] module)

    The module is not part of the repository: it is the externally supplied
    table.  [opmap] is the dictionary from names to opcodes, [opname] the
    256-entry list of names, the [has*] fields the lists of opcodes of each
    operand category. *)
Record OpcodeTable : Type := {
  opmap : gmap string Z;
  opname : list string;
  HAVE_ARGUMENT : Z;
  hasjrel : list Z;
  hasjabs : list Z;
  hasfree : list Z;
  haslocal : list Z;
  hasname : list Z;
  hasconst : list Z;
  hascompare : list Z;
}.

(** ['<%r>' % (op,)], the name [opcode.opname] gives an undefined opcode. *)
Definition unknown_opname (op : Z) : string :=
  ("<" ++ NilZero.string_of_int (Z.to_int op) ++ ">")%string.

(** [opcode.py] fills both tables from one list of definitions
    ([def_op(name, op)]: [opname[op] = name; opmap[name] = op]). *)
Definition opname_of_defs (defs : list (string * Z)) : list string :=
  map (fun op : Z =>
         match List.find (fun d : string * Z => Z.eqb d.2 op) (rev defs) with
         | Some d => d.1
         | None => unknown_opname op
         end)
      (map Z.of_nat (seq 0 256)).

Definition opmap_of_defs (defs : list (string * Z)) : gmap string Z :=
  py_dict defs.

(** A fragment of CPython's [opcode] module, with the opcode numbers that
    versions 3.5 to 3.8 share, used to run the definitions on concrete
    inputs. *)
Definition cpython_defs : list (string * Z) :=
  [("POP_TOP", 1); ("ROT_TWO", 2); ("DUP_TOP", 4); ("NOP", 9);
   ("BINARY_ADD", 23); ("RETURN_VALUE", 83); ("STORE_NAME", 90);
   ("UNPACK_SEQUENCE", 92); ("FOR_ITER", 93); ("UNPACK_EX", 94);
   ("LOAD_CONST", 100); ("LOAD_NAME", 101); ("COMPARE_OP", 107);
   ("JUMP_FORWARD", 110); ("JUMP_ABSOLUTE", 113); ("POP_JUMP_IF_FALSE", 114);
   ("POP_JUMP_IF_TRUE", 115); ("LOAD_GLOBAL", 116); ("LOAD_FAST", 124);
   ("STORE_FAST", 125); ("CALL_FUNCTION", 131); ("LOAD_DEREF", 136);
   ("EXTENDED_ARG", 144); ("LIST_APPEND", 145); ("SET_ADD", 146)].

Definition cpython_table : OpcodeTable := {|
  opmap := opmap_of_defs cpython_defs;
  opname := opname_of_defs cpython_defs;
  HAVE_ARGUMENT := 90;
  hasjrel := [93; 110];
  hasjabs := [113; 114; 115];
  hasfree := [136];
  haslocal := [124; 125];
  hasname := [90; 101; 116];
  hasconst := [100];
  hascompare := [107];
|}.

(** The instruction set of the specification's example: an opcode [J] with
    the value 10 that is a relative jump. *)
Definition example_defs : list (string * Z) :=
  [("NOP", 9); ("J", 10); ("RET", 83)].

Definition example_table : OpcodeTable := {|
  opmap := opmap_of_defs example_defs;
  opname := opname_of_defs example_defs;
  HAVE_ARGUMENT := 10;
  hasjrel := [10];
  hasjabs := [];
  hasfree := [];
  haslocal := [];
  hasname := [];
  hasconst := [];
  hascompare := [];
|}.

(** * Part I: [bytecode.py] *)

Module Bytecode.

(** [class Label]: an object with no state; only its identity matters. *)
Definition Label : Type := nat.

(** The values an instruction argument takes in this file: [None], an
    integer, or a [Label]. *)
Inductive Arg : Type :=
| ArgNone
| ArgInt (n : Z)
| ArgLabel (l : Label).

#[global] Instance Arg_eq_dec : EqDecision Arg.
Proof. solve_decision. Defined.

(** [class Instr(BaseInstr)]: the fields [__init__] sets. *)
Record Instr : Type := mkInstr {
  _lineno : Z;
  _name : string;
  _arg : Arg;
  _size : Z;
  _op : Z;
}.

(** [class Block(list)]: a list of instructions with a [label] attribute. *)
Record Block : Type := mkBlock {
  label : Label;
  instrs : list Instr;
}.

(** The fields of a code object that the file reads or replaces. *)
Record CodeType : Type := mkCodeType {
  co_code : list Z;
  co_firstlineno : Z;
  co_lnotab : list Z;
}.

(** Identity of a [Block] object. *)
Definition addr : Type := nat.

(** [class Code].  [heap] holds the [Block] objects the two containers refer
    to: [_blocks] and [_block_map] hold references, so a block mutated through
    one is seen through the other.  [next_id] is the allocator: the identities
    handed out so far are below it. *)
Record Code : Type := mkCode {
  code_obj : CodeType;
  heap : gmap addr Block;
  _blocks : list addr;
  _block_map : gmap Label addr;
  next_id : nat;
}.

(** [BaseInstr.__eq__]: the keys [(lineno, name, arg)] are compared. *)
Definition Instr_eqb (i1 i2 : Instr) : bool :=
  bool_decide (_lineno i1 = _lineno i2)
  && bool_decide (_name i1 = _name i2)
  && bool_decide (_arg i1 = _arg i2).

(** [list.__eq__], which [Block] inherits: the instructions are compared
    in order, the labels are not. *)
Fixpoint Block_eqb_list (l1 l2 : list Instr) : bool :=
  match l1, l2 with
  | [], [] => true
  | i1 :: r1, i2 :: r2 => Instr_eqb i1 i2 && Block_eqb_list r1 r2
  | _, _ => false
  end.

Definition Block_eqb (b1 b2 : Block) : bool :=
  Block_eqb_list (instrs b1) (instrs b2).

(** [struct.pack('<B', op)] *)
Definition pack_B (op : Z) : result (list Z) :=
  if (0 <=? op) && (op <=? 255) then Ok [op] else Raise StructError.

(** [struct.pack('<BH', op, arg)]: one byte, then 16 bits little endian. *)
Definition pack_BH (op : Z) (arg : Arg) : result (list Z) :=
  match arg with
  | ArgInt n =>
      if (0 <=? op) && (op <=? 255) && (0 <=? n) && (n <=? 65535)
      then Ok [op; n mod 256; n / 256]
      else Raise StructError
  | _ => Raise StructError
  end.

(** [struct.pack('Bb', a, b)]: an unsigned and a signed byte, the latter in
    two's complement. *)
Definition pack_Bb (a b : Z) : result (list Z) :=
  if (0 <=? a) && (a <=? 255) && (-128 <=? b) && (b <=? 127)
  then Ok [a; b mod 256]
  else Raise StructError.

Section WithTable.

Variable T : OpcodeTable.

(** [Instr.__init__] *)
Definition Instr_init (lineno : Z) (name : string) (arg : Arg) : result Instr :=
  let size := match arg with ArgNone => 1 | _ => 3 end in
  match opmap T !! name with
  | Some op => Ok (mkInstr lineno name arg size op)
  | None => Raise KeyError
  end.

(** [Instr.replace_arg] *)
Definition replace_arg (i : Instr) (arg : Arg) : result Instr :=
  Instr_init (_lineno i) (_name i) arg.

(** [Instr.get_jump_target] *)
Definition get_jump_target (i : Instr) (instr_offset : Z) : result (option Z) :=
  match _arg i with
  | ArgLabel _ => Raise ValueError
  | a =>
      if bool_decide (_op i ∈ hasjrel T) then
        match a with
        | ArgInt n => Ok (Some (instr_offset + _size i + n))
        | _ => Raise TypeError
        end
      else if bool_decide (_op i ∈ hasjabs T) then
        match a with
        | ArgInt n => Ok (Some n)
        | _ => Ok None
        end
      else Ok None
  end.

(** [Instr.is_jump] *)
Definition is_jump (i : Instr) : bool :=
  bool_decide (_op i ∈ hasjrel T) || bool_decide (_op i ∈ hasjabs T).

(** [Instr.assemble] *)
Definition Instr_assemble (i : Instr) : result (list Z) :=
  match _arg i with
  | ArgNone => pack_B (_op i)
  | a => pack_BH (_op i) a
  end.

(** [Instr.disassemble] *)
Definition Instr_disassemble (lineno : Z) (code : list Z) (offset : Z)
  : result Instr :=
  op ← py_getitem code offset;
  arg ← (if HAVE_ARGUMENT T <=? op then
           b1 ← py_getitem code (offset + 1);
           b2 ← py_getitem code (offset + 2);
           Ok (ArgInt (b1 + b2 * 256))
         else Ok ArgNone);
  name ← py_getitem (opname T) op;
  Instr_init lineno name arg.

(** ** [dis.findlinestarts]

    The standard library's decoder of [co_lnotab], which [Code.disassemble]
    calls; transcribed from CPython 3.6's [dis.py], the first version whose
    line increments are signed bytes (what [struct.pack('Bb', ...)] in
    [Code.assemble] writes). *)

(** [zip(lnotab[0::2], lnotab[1::2])] *)
Fixpoint lnotab_pairs (l : list Z) : list (Z * Z) :=
  match l with
  | b :: d :: l' => (b, d) :: lnotab_pairs l'
  | _ => []
  end.

(** The loop state of the generator: last yielded line, line, address and the
    pairs yielded so far. *)
Definition findlinestarts_step (st : option Z * Z * Z * list (Z * Z))
    (e : Z * Z) : option Z * Z * Z * list (Z * Z) :=
  let '(lastlineno, lineno, addr, out) := st in
  let '(byte_incr, line_incr) := e in
  let '(lastlineno, addr, out) :=
    if byte_incr =? 0 then (lastlineno, addr, out)
    else
      let '(lastlineno, out) :=
        if bool_decide (Some lineno = lastlineno) then (lastlineno, out)
        else (Some lineno, out ++ [(addr, lineno)]) in
      (lastlineno, addr + byte_incr, out) in
  let line_incr := if 128 <=? line_incr then line_incr - 256 else line_incr in
  (lastlineno, lineno + line_incr, addr, out).

Definition findlinestarts (co : CodeType) : list (Z * Z) :=
  let '(lastlineno, lineno, addr, out) :=
    foldl findlinestarts_step (None, co_firstlineno co, 0, [])
          (lnotab_pairs (co_lnotab co)) in
  if bool_decide (Some lineno = lastlineno) then out
  else out ++ [(addr, lineno)].

(** ** [Code.disassemble] *)

(** The first loop: [while offset < len(code)].  One iteration consumes one
    unit of [fuel]; every iteration advances [offset] by the size of an
    instruction, so [length code] units are enough. *)
Fixpoint decode_loop (fuel : nat) (code : list Z) (line_starts : gmap Z Z)
    (offset lineno : Z) (instructions : list Instr) (block_starts : gset Z)
  : result (list Instr * gset Z) :=
  if offset <? len code then
    match fuel with
    | O => Raise Stuck
    | S fuel' =>
        instr ← Instr_disassemble lineno code offset;
        let key := offset in
        '(lineno, instr) ←
          match line_starts !! key with
          | Some l => instr' ← Instr_init l (_name instr) (_arg instr);
                      Ok (l, instr')
          | None => Ok (lineno, instr)
          end;
        target ← get_jump_target instr offset;
        let block_starts :=
          match target with
          | Some t => {[t]} ∪ block_starts
          | None => block_starts
          end in
        decode_loop fuel' code line_starts (offset + _size instr) lineno
                    (instructions ++ [instr]) block_starts
    end
  else Ok (instructions, block_starts).

(** The state of the second loop.  [sp_done ++ [sp_block]] is the list
    [blocks]; [sp_block] is the block the variable [block] refers to, always
    the last one appended.  [block_map] only ever serves to read the [label]
    of the block stored under an offset, so the label is what is kept. *)
Record split_state : Type := mkSplit {
  sp_done : list Block;
  sp_block : Block;
  sp_map : gmap Z Label;
  sp_offset : Z;
  sp_next : nat;
}.

Definition split_step (block_starts : gset Z) (st : split_state) (instr : Instr)
  : split_state :=
  let st :=
    if negb (sp_offset st =? 0) && bool_decide (sp_offset st ∈ block_starts)
    then mkSplit (sp_done st ++ [sp_block st])
                 (mkBlock (sp_next st) [])
                 (<[sp_offset st := sp_next st]> (sp_map st))
                 (sp_offset st)
                 (S (sp_next st))
    else st in
  mkSplit (sp_done st)
          (mkBlock (label (sp_block st)) (instrs (sp_block st) ++ [instr]))
          (sp_map st)
          (sp_offset st + _size instr)
          (sp_next st).

Definition split_blocks (next : nat) (instructions : list Instr)
    (block_starts : gset Z) : result (list Block * gmap Z Label * nat) :=
  let st0 := mkSplit [] (mkBlock next []) {[0 := next]} 0 (S next) in
  let st := foldl (split_step block_starts) st0 instructions in
  if bool_decide (instrs (sp_block st) = []) then Raise AssertionError
  else Ok (sp_done st ++ [sp_block st], sp_map st, sp_next st).

(** The third loop: jump targets become the labels of their blocks. *)
Definition retarget_instr (block_map : gmap Z Label) (st : Z * list Instr)
    (instr : Instr) : result (Z * list Instr) :=
  let '(offset, out) := st in
  target ← get_jump_target instr offset;
  instr' ←
    match target with
    | Some t =>
        match block_map !! t with
        | Some lbl => replace_arg instr (ArgLabel lbl)
        | None => Raise KeyError
        end
    | None => Ok instr
    end;
  Ok (offset + _size instr, out ++ [instr']).

Definition retarget_block (block_map : gmap Z Label) (st : Z * list Block)
    (b : Block) : result (Z * list Block) :=
  let '(offset, out) := st in
  '(offset, new) ← foldM (retarget_instr block_map) (offset, []) (instrs b);
  Ok (offset, out ++ [mkBlock (label b) new]).

(** [Code.__init__]: the blocks become heap objects with fresh identities;
    [_block_map] is [dict((block.label, block) for block in blocks)]. *)
Definition Code_init (co : CodeType) (next : nat) (blocks : list Block) : Code :=
  let addrs := seq next (length blocks) in
  mkCode co
         (list_to_map (zip addrs blocks))
         addrs
         (py_dict (zip (map label blocks) addrs))
         (next + length blocks)%nat.

(** [Code.disassemble], with the allocator's state [next]. *)
Definition Code_disassemble (co : CodeType) (next : nat) : result Code :=
  let code := co_code co in
  let line_starts := py_dict (findlinestarts co) in
  '(instructions, block_starts) ←
    decode_loop (length code) code line_starts 0 (co_firstlineno co) [] ∅;
  '(blocks, block_map, next) ← split_blocks next instructions block_starts;
  '(_, blocks) ← foldM (retarget_block block_map) (0, []) blocks;
  Ok (Code_init co next blocks).

(** ** [Code.assemble] *)

(** [[(block.label, list(block)) for block in self]]: the blocks are read
    through the references of [_blocks]. *)
Definition blocks_view (c : Code) : result (list (Label * list Instr)) :=
  foldM (fun out a =>
           match heap c !! a with
           | Some b => Ok (out ++ [(label b, instrs b)])
           | None => Raise Stuck
           end) [] (_blocks c).

(** The first loop, "find targets". *)
Definition find_targets_step (st : gmap Label Z * Z) (b : Label * list Instr)
  : gmap Label Z * Z :=
  let '(targets, offset) := st in
  (<[b.1 := offset]> targets,
   foldl (fun off instr => off + _size instr) offset b.2).

Definition find_targets (blocks : list (Label * list Instr)) : gmap Label Z :=
  (foldl find_targets_step (∅, 0) blocks).1.

(** The state of the second loop: [offset], [code_str], [linenos]. *)
Record asm_state : Type := mkAsm {
  as_offset : Z;
  as_code : list (list Z);
  as_linenos : list (Z * Z);
}.

(** One iteration of "replace targets with offsets". *)
Definition resolve_instr (targets : gmap Label Z) (offset : Z) (instr : Instr)
  : result Instr :=
  match _arg instr with
  | ArgLabel l =>
      match targets !! l with
      | Some target_off =>
          let target_off :=
            if bool_decide (_op instr ∈ hasjrel T)
            then target_off - (offset + _size instr)
            else target_off in
          replace_arg instr (ArgInt target_off)
      | None => Raise KeyError
      end
  | _ => Ok instr
  end.

Definition assemble_instr (targets : gmap Label Z) (st : asm_state)
    (instr : Instr) : result asm_state :=
  instr ← resolve_instr targets (as_offset st) instr;
  bytes ← Instr_assemble instr;
  Ok (mkAsm (as_offset st + _size instr)
            (as_code st ++ [bytes])
            (as_linenos st ++ [(as_offset st, _lineno instr)])).

Definition assemble_block (targets : gmap Label Z) (st : asm_state)
    (b : Label * list Instr) : result asm_state :=
  foldM (assemble_instr targets) st b.2.

(** [while doff > 255: lnotab.append(b'\xff0'); doff -= 255].  The bytes
    literal [b'\xff0'] has two bytes: 0xff and the character ['0'], 0x30. *)
Fixpoint while_doff (fuel : nat) (doff : Z) (lnotab : list (list Z))
  : result (Z * list (list Z)) :=
  if 255 <? doff then
    match fuel with
    | O => Raise Stuck
    | S fuel' => while_doff fuel' (doff - 255) (lnotab ++ [[255; 48]])
    end
  else Ok (doff, lnotab).

(** [while dlineno < -127: lnotab.append(struct.pack('Bb', 0, -127));
    dlineno -= -127] *)
Fixpoint while_dlineno_neg (fuel : nat) (dlineno : Z) (lnotab : list (list Z))
  : result (Z * list (list Z)) :=
  if dlineno <? -127 then
    match fuel with
    | O => Raise Stuck
    | S fuel' =>
        e ← pack_Bb 0 (-127);
        while_dlineno_neg fuel' (dlineno - -127) (lnotab ++ [e])
    end
  else Ok (dlineno, lnotab).

(** [while dlineno > 126: lnotab.append(struct.pack('Bb', 0, 126));
    dlineno -= 126] *)
Fixpoint while_dlineno_pos (fuel : nat) (dlineno : Z) (lnotab : list (list Z))
  : result (Z * list (list Z)) :=
  if 126 <? dlineno then
    match fuel with
    | O => Raise Stuck
    | S fuel' =>
        e ← pack_Bb 0 126;
        while_dlineno_pos fuel' (dlineno - 126) (lnotab ++ [e])
    end
  else Ok (dlineno, lnotab).

(** The state of the third loop: [old_offset], [old_lineno], [lnotab]. *)
Definition lnotab_step (st : Z * Z * list (list Z)) (e : Z * Z)
  : result (Z * Z * list (list Z)) :=
  let '(old_offset, old_lineno, lnotab) := st in
  let '(offset, lineno) := e in
  let doff := offset - old_offset in
  let dlineno := lineno - old_lineno in
  '(doff, lnotab) ← while_doff (Z.to_nat doff) doff lnotab;
  '(dlineno, lnotab) ← while_dlineno_neg (Z.to_nat (- dlineno)) dlineno lnotab;
  '(dlineno, lnotab) ← while_dlineno_pos (Z.to_nat dlineno) dlineno lnotab;
  if negb ((0 <=? doff) && (doff <=? 255)) then Raise AssertionError
  else if negb ((-127 <=? dlineno) && (dlineno <=? 126)) then Raise AssertionError
  else if negb (doff =? 0) || negb (dlineno =? 0) then
    e ← pack_Bb doff dlineno;
    Ok (offset, lineno, lnotab ++ [e])
  else Ok (offset, lineno, lnotab).

Definition make_lnotab (firstlineno : Z) (linenos : list (Z * Z))
  : result (list Z) :=
  '(_, _, lnotab) ← foldM lnotab_step (0, firstlineno, []) linenos;
  Ok (concat lnotab).

(** The body of [Code.assemble] once the blocks have been read. *)
Definition assemble_blocks (co : CodeType) (blocks : list (Label * list Instr))
  : result CodeType :=
  let targets := find_targets blocks in
  st ← foldM (assemble_block targets) (mkAsm 0 [] []) blocks;
  lnotab ← make_lnotab (co_firstlineno co) (as_linenos st);
  Ok (mkCodeType (concat (as_code st)) (co_firstlineno co) lnotab).

Definition Code_assemble (c : Code) : result CodeType :=
  blocks ← blocks_view c;
  assemble_blocks (code_obj c) blocks.

(** ** [Code.create_label] *)

(** The first argument: a [Label] or an integer position. *)
Inductive BlockRef : Type :=
| ByLabel (l : Label)
| ByIndex (i : Z).

(** [self._blocks.index(block)]: [list.index] compares each item with
    [block] by identity first and by [==] otherwise; [==] on blocks is
    [list.__eq__].  An item identical to [block] also compares equal, so the
    test is the equality of the instruction lists. *)
Definition blocks_index (c : Code) (block : Block) : result Z :=
  py_index (fun a => match heap c !! a with
                     | Some b => Block_eqb b block
                     | None => false
                     end) (_blocks c).

(** The method mutates [self] in place: it returns its result (or the
    exception) together with the object's state after the call. *)
Definition create_label (block_index : BlockRef) (index : Z) (c : Code)
  : result Label * Code :=
  let r_index :=
    match block_index with
    | ByLabel l =>
        match _block_map c !! l with
        | Some a =>
            match heap c !! a with
            | Some block => blocks_index c block
            | None => Raise Stuck
            end
        | None => Raise KeyError
        end
    | ByIndex i => if i <? 0 then Raise ValueError else Ok i
    end in
  match r_index with
  | Raise e => (Raise e, c)
  | Ok block_index =>
      if index <? 0 then (Raise ValueError, c)
      else
        match py_getitem (_blocks c) block_index with
        | Raise e => (Raise e, c)
        | Ok a =>
            match heap c !! a with
            | None => (Raise Stuck, c)
            | Some block =>
                if index =? 0 then (Ok (label block), c)
                else
                  let instructions := py_slice_from (instrs block) index in
                  match instructions with
                  | [] => (Raise ValueError, c)
                  | _ :: _ =>
                      let l2 := next_id c in
                      let a2 := S (next_id c) in
                      let block2 := mkBlock l2 instructions in
                      let heap1 := <[a2 := block2]> (heap c) in
                      let blocks1 := py_insert (_blocks c) (block_index + 1) a2 in
                      let map1 := <[l2 := a2]> (_block_map c) in
                      let heap2 :=
                        <[a := mkBlock (label block)
                                       (py_del_from (instrs block) index)]> heap1 in
                      (Ok l2,
                       mkCode (code_obj c) heap2 blocks1 map1 (S (S (next_id c))))
                  end
            end
        end
  end.

End WithTable.

End Bytecode.

(** * Part II: [bytecode/instr.py] *)

Module InstrPy.

(** [class Label] and the identity of a [bytecode.BasicBlock] object. *)
Definition Label : Type := nat.
Definition BasicBlock : Type := nat.

(** [class Compare(enum.IntEnum)].  The last five members exist on Python
    versions before 3.9 only. *)
Inductive Compare : Type :=
| LT | LE | EQ | NE | GT | GE | IN | NOT_IN | IS | IS_NOT | EXC_MATCH.

Definition Compare_value (c : Compare) : Z :=
  match c with
  | LT => 0 | LE => 1 | EQ => 2 | NE => 3 | GT => 4 | GE => 5
  | IN => 6 | NOT_IN => 7 | IS => 8 | IS_NOT => 9 | EXC_MATCH => 10
  end.

(** The Python values that reach the instruction API as a name, an opcode or
    an argument.  [PyOther] stands for an object of any other class (a
    float, a bytes object, ...), told apart by its identity. *)
#[warnings="-register-all"]
Inductive PyVal : Type :=
| UNSET
| PyNone
| PyInt (n : Z)
| PyBool (b : bool)
| PyStr (s : string)
| PyTuple (items : list PyVal)
| PyLabel (l : Label)
| PyBasicBlock (b : BasicBlock)
| PyCellVar (name : string)
| PyFreeVar (name : string)
| PyCompare (c : Compare)
| PyOther (id : nat).

(** [isinstance(v, int)]: [bool], [IntEnum] members and [_UNSET] are
    subclasses of [int]. *)
Definition isinstance_int (v : PyVal) : bool :=
  match v with
  | PyInt _ | PyBool _ | PyCompare _ | UNSET => true
  | _ => false
  end.

(** The integer an [int] instance holds ([UNSET] is created by
    [int.__new__(cls)], which holds 0). *)
Definition int_value (v : PyVal) : Z :=
  match v with
  | PyInt n => n
  | PyBool b => Z.b2z b
  | PyCompare c => Compare_value c
  | _ => 0
  end.

(** [repr(v)] of an [int] instance, as ["<%r>" % op] formats it. *)
Definition repr_int (v : PyVal) : string :=
  match v with
  | PyBool true => "True"
  | PyBool false => "False"
  | PyCompare c =>
      ("<Compare." ++
       match c with
       | LT => "LT" | LE => "LE" | EQ => "EQ" | NE => "NE" | GT => "GT"
       | GE => "GE" | IN => "IN" | NOT_IN => "NOT_IN" | IS => "IS"
       | IS_NOT => "IS_NOT" | EXC_MATCH => "EXC_MATCH"
       end ++ ": " ++ NilZero.string_of_int (Z.to_int (Compare_value c)) ++ ">")%string
  | v => NilZero.string_of_int (Z.to_int (int_value v))
  end.

(** [_check_arg_int] *)
Definition _check_arg_int (arg : PyVal) (name : string) : result bool :=
  if negb (isinstance_int arg) then Raise TypeError
  else if negb ((0 <=? int_value arg) && (int_value arg <=? 2147483647))
  then Raise ValueError
  else Ok true.

(** [class InstrLocation] *)
Record InstrLocation : Type := mkLocation {
  lineno : option Z;
  end_lineno : option Z;
  col_offset : option Z;
  end_col_offset : option Z;
}.

(** [_check_location]; the annotated type [Optional[int]] is the model's
    type, so the [isinstance] test of the source always passes. *)
Definition _check_location (location : option Z) (min_value : Z) : result unit :=
  match location with
  | None => Ok tt
  | Some v => if v <? min_value then Raise ValueError else Ok tt
  end.

(** The instruction as an object: the four slots of [BaseInstr]. *)
Record BaseInstr : Type := mkBaseInstr {
  _name : string;
  _opcode : Z;
  _arg : PyVal;
  _location : option InstrLocation;
}.

(** A method of an instruction: it reads and assigns the slots of [self] and
    returns a value or raises.  The state is threaded through exceptions, so
    an assignment made before a [raise] stays made. *)
Definition M (A : Type) : Type := BaseInstr -> result A * BaseInstr.

Definition M_ret {A} (a : A) : M A := fun s => (Ok a, s).

Definition M_bind {A B} (m : M A) (f : A -> M B) : M B :=
  fun s => match m s with
           | (Ok a, s') => f a s'
           | (Raise e, s') => (Raise e, s')
           end.

Definition M_raise {A} (e : exn) : M A := fun s => (Raise e, s).

Definition M_lift {A} (r : result A) : M A := fun s => (r, s).

Definition M_get {A} (f : BaseInstr -> A) : M A := fun s => (Ok (f s), s).

Definition set_name (n : string) : M unit :=
  fun s => (Ok tt, mkBaseInstr n (_opcode s) (_arg s) (_location s)).

Definition set_opcode (o : Z) : M unit :=
  fun s => (Ok tt, mkBaseInstr (_name s) o (_arg s) (_location s)).

Definition set_arg (a : PyVal) : M unit :=
  fun s => (Ok tt, mkBaseInstr (_name s) (_opcode s) a (_location s)).

Definition set_location (l : option InstrLocation) : M unit :=
  fun s => (Ok tt, mkBaseInstr (_name s) (_opcode s) (_arg s) l).

#[global] Instance M_mret : MRet M := @M_ret.
#[global] Instance M_mbind : MBind M := fun A B f m => M_bind m f.

(** The interpreter-side inputs: the [opcode] tables, whether
    [sys.version_info >= (3, 11)], and [dis.stack_effect]. *)
Record Env : Type := {
  table : OpcodeTable;
  py311 : bool;
  dis_stack_effect : Z -> option Z -> option bool -> result Z;
}.

Section WithEnv.

Variable E : Env.

(** [InstrLocation.__init__] *)
Definition InstrLocation_init (lineno end_lineno col_offset end_col_offset : option Z)
  : result InstrLocation :=
  _ ← _check_location lineno (if py311 E then 0 else 1);
  _ ← _check_location end_lineno 1;
  _ ← _check_location col_offset 0;
  _ ← _check_location end_col_offset 0;
  _ ← match end_lineno with
      | Some e =>
          if e =? 0 then Ok tt
          else match lineno with
               | None => Raise ValueError
               | Some l => if e <? l then Raise ValueError else Ok tt
               end
      | None => Ok tt
      end;
  _ ← (if bool_decide (col_offset <> None) || bool_decide (end_col_offset <> None)
       then
         if bool_decide (lineno = None) || bool_decide (end_lineno = None)
         then Raise ValueError
         else match end_col_offset with
              | Some ec =>
                  match col_offset with
                  | None => Raise ValueError
                  | Some c => if ec <? c then Raise ValueError else Ok tt
                  end
              | None => Raise ValueError
              end
       else Ok tt);
  Ok (mkLocation lineno end_lineno col_offset end_col_offset).

(** [BaseInstr._has_jump] *)
Definition _has_jump (opcode : Z) : bool :=
  bool_decide (opcode ∈ hasjrel (table E)) || bool_decide (opcode ∈ hasjabs (table E)).

(** [Instr._check_arg] *)
Definition _check_arg (name : string) (opcode : Z) (arg : PyVal) : result unit :=
  if bool_decide (name = "EXTENDED_ARG") then Raise ValueError
  else
    _ ← (if HAVE_ARGUMENT (table E) <=? opcode
         then match arg with UNSET => Raise ValueError | _ => Ok tt end
         else match arg with UNSET => Ok tt | _ => Raise ValueError end);
    if _has_jump opcode then
      match arg with
      | PyLabel _ | PyBasicBlock _ => Ok tt
      | _ => Raise TypeError
      end
    else if bool_decide (opcode ∈ hasfree (table E)) then
      match arg with
      | PyCellVar _ | PyFreeVar _ => Ok tt
      | _ => Raise TypeError
      end
    else if bool_decide (opcode ∈ haslocal (table E))
            || bool_decide (opcode ∈ hasname (table E)) then
      if py311 E && bool_decide (name = "LOAD_GLOBAL") then
        match arg with
        | PyTuple [PyBool _; PyStr _] => Ok tt
        | _ => Raise TypeError
        end
      else
        match arg with
        | PyStr _ => Ok tt
        | _ => Raise TypeError
        end
    else if bool_decide (opcode ∈ hasconst (table E)) then
      match arg with
      | PyLabel _ => Raise ValueError
      | PyBasicBlock _ => Raise ValueError
      | _ => Ok tt
      end
    else if bool_decide (opcode ∈ hascompare (table E)) then
      match arg with
      | PyCompare _ => Ok tt
      | _ => Raise TypeError
      end
    else if HAVE_ARGUMENT (table E) <=? opcode then
      _ ← _check_arg_int arg name; Ok tt
    else Ok tt.

(** [BaseInstr._set] *)
Definition _set (name : PyVal) (arg : PyVal) : M unit :=
  match name with
  | PyStr name =>
      match opmap (table E) !! name with
      | None => M_raise ValueError
      | Some opcode =>
          _ ← M_lift (_check_arg name opcode arg);
          _ ← set_name name;
          _ ← set_opcode opcode;
          set_arg arg
      end
  | _ => M_raise TypeError
  end.

(** [BaseInstr.set] *)
Definition set (name : PyVal) (arg : PyVal) : M unit := _set name arg.

(** The setter of the [name] property. *)
Definition name_setter (name : PyVal) : M unit :=
  a ← M_get _arg; _set name a.

(** The setter of the [opcode] property. *)
Definition opcode_setter (op : PyVal) : M unit :=
  if negb (isinstance_int op) then M_raise TypeError
  else
    let v := int_value op in
    r ← (if (0 <=? v) && (v <=? 255) then
           name ← M_lift (py_getitem (opname (table E)) v);
           M_ret (name, negb (bool_decide (name = ("<" ++ repr_int op ++ ">")%string)))
         else M_ret (EmptyString, false)) : M (string * bool);
    if negb (snd r) then M_raise ValueError
    else a ← M_get _arg; _set (PyStr (fst r)) a.

(** The setter of the [arg] property. *)
Definition arg_setter (arg : PyVal) : M unit :=
  n ← M_get _name; _set (PyStr n) arg.

(** The [lineno] argument of the constructor: [UNSET], or an
    [Optional[int]]. *)
Inductive LinenoArg : Type :=
| LinenoUnset
| LinenoVal (v : option Z).

(** [BaseInstr.__init__].  The slots of the new object hold nothing before
    [_set] assigns them; [blank] stands for that state, and the object exists
    only when the constructor returns. *)
Definition blank : BaseInstr := mkBaseInstr EmptyString 0 UNSET None.

Definition Instr_init (name arg : PyVal) (lineno : LinenoArg)
    (location : option InstrLocation) : result BaseInstr :=
  let body : M unit :=
    _ ← _set name arg;
    match location with
    | Some loc => set_location (Some loc)
    | None =>
        match lineno with
        | LinenoUnset => set_location None
        | LinenoVal v =>
            loc ← M_lift (InstrLocation_init v None None None);
            set_location (Some loc)
        end
    end in
  match body blank with
  | (Ok _, s) => Ok s
  | (Raise e, _) => Raise e
  end.

(** [BaseInstr.require_arg] *)
Definition require_arg (s : BaseInstr) : bool :=
  HAVE_ARGUMENT (table E) <=? _opcode s.

(** [BaseInstr.stack_effect].  [dis.stack_effect] receives [None] or the
    integer its argument holds; any other object is a [TypeError] there. *)
Definition stack_effect (jump : option bool) (s : BaseInstr) : result Z :=
  arg ←
    (if _opcode s <? HAVE_ARGUMENT (table E) then Ok PyNone
     else match _arg s with
          | PyTuple items =>
              if bool_decide (_name s = "LOAD_GLOBAL") then
                match items with
                | [a0; _] => Ok a0
                | _ => Raise AssertionError
                end
              else Ok (PyInt 0)
          | a =>
              if negb (isinstance_int a)
                 || bool_decide (_opcode s ∈ hasconst (table E))
              then Ok (PyInt 0) else Ok a
          end);
  oparg ← match arg with
          | PyNone => Ok None
          | a => if isinstance_int a then Ok (Some (int_value a))
                 else Raise TypeError
          end;
  dis_stack_effect E (_opcode s) oparg jump.











End WithEnv.

(** [dis.stack_effect] is the interpreter's.  This is CPython 3.8's
    definition ([Modules/_opcode.c] and [stack_effect] in [Python/compile.c])
    on a few opcodes of [cpython_table] and on [MAP_ADD] (147): an argument
    must be given exactly to the opcodes from [HAVE_ARGUMENT] on; [FOR_ITER]
    has the effect -1 when the jump is taken and 1 otherwise, [jump=None]
    counting as not taken, which is the maximum of the two. *)
Definition cpython_stack_effect (opcode : Z) (oparg : option Z)
    (jump : option bool) : result Z :=
  match oparg with
  | None =>
      if 90 <=? opcode then Raise ValueError
      else if opcode =? 9 then Ok 0
      else if opcode =? 1 then Ok (-1)
      else Raise ValueError
  | Some n =>
      if opcode <? 90 then Raise ValueError
      else if opcode =? 92 then Ok (n - 1)
      else if opcode =? 93 then
        Ok (match jump with Some true => -1 | _ => 1 end)
      else if opcode =? 94 then Ok (Z.land n 255 + Z.shiftr n 8)
      else if opcode =? 100 then Ok 1
      else if opcode =? 145 then Ok (-1)
      else if opcode =? 146 then Ok (-1)
      else if opcode =? 147 then Ok (-2)
      else Raise ValueError
  end.

Definition cpython_env : Env := {|
  table := cpython_table;
  py311 := false;
  dis_stack_effect := cpython_stack_effect;
|}.

End InstrPy.

(** * Part III: properties of [bytecode.py] *)

(** ** The error monad *)

Lemma foldM_app {A S} (f : S -> A -> result S) (s : S) (l1 l2 : list A) :
  foldM f s (l1 ++ l2) = foldM f s l1 ≫= fun s' => foldM f s' l2.
Proof.
  revert s. induction l1 as [|x l1 IH]; intros s; simpl; [reflexivity|].
  destruct (f s x) as [s'|e]; simpl; [apply IH | reflexivity].
Qed.

Lemma foldM_concat {A B S} (f : S -> A -> result S) (g : B -> list A)
    (s : S) (bs : list B) :
  foldM (fun s b => foldM f s (g b)) s bs = foldM f s (concat (map g bs)).
Proof.
  revert s. induction bs as [|b bs IH]; intros s; simpl; [reflexivity|].
  rewrite foldM_app. destruct (foldM f s (g b)); simpl; [apply IH | reflexivity].
Qed.

Lemma len_app {A} (l1 l2 : list A) : len (l1 ++ l2) = len l1 + len l2.
Proof. unfold len. rewrite length_app. lia. Qed.

Lemma len_nonneg {A} (l : list A) : 0 <= len l.
Proof. unfold len. lia. Qed.

Lemma py_getitem_app_r {A} (l1 l2 : list A) (i : Z) (k : nat) (x : A) :
  i = len l1 + Z.of_nat k -> l2 !! k = Some x ->
  py_getitem (l1 ++ l2) i = Ok x.
Proof.
  intros -> Hx. unfold py_getitem, len. cbv zeta.
  assert (Hge : (Z.of_nat (length l1) + Z.of_nat k <? 0) = false)
    by (apply Z.ltb_ge; lia).
  rewrite !Hge.
  replace (Z.to_nat (Z.of_nat (length l1) + Z.of_nat k))
    with (length l1 + k)%nat by lia.
  rewrite lookup_app_r by lia.
  replace (length l1 + k - length l1)%nat with k by lia. rewrite Hx. reflexivity.
Qed.

Lemma bind_Ok {A B} (m : result A) (f : A -> result B) (y : B) :
  m ≫= f = Ok y -> exists x, m = Ok x /\ f x = Ok y.
Proof. destruct m as [x|e]; simpl; [eauto | discriminate]. Qed.

Module BytecodeFacts.

Import Bytecode.

(** The instructions of a graph in layout order. *)
Definition flat (blocks : list (Label * list Instr)) : list Instr :=
  concat (map snd blocks).

(** The number of bytes [offset += instr.size] adds up over a list. *)
Definition code_size (l : list Instr) : Z :=
  foldr (fun i n => _size i + n) 0 l.

(** The integer operand of an instruction, if it has one. *)
Definition operand (i : Instr) : option Z :=
  match _arg i with ArgInt n => Some n | _ => None end.

(** The bytes of an opcode and its operand. *)
Definition enc (op : Z) (a : option Z) : list Z :=
  match a with
  | None => [op]
  | Some n => [op; n mod 256; n / 256]
  end.

Lemma code_size_app l1 l2 : code_size (l1 ++ l2) = code_size l1 + code_size l2.
Proof. induction l1; simpl; lia. Qed.

Lemma foldl_size l o :
  foldl (fun off instr => off + _size instr) o l = o + code_size l.
Proof. revert o. induction l as [|i l IH]; intros o; simpl; [lia|]. rewrite IH. lia. Qed.

Lemma flat_app b1 b2 : flat (b1 ++ b2) = flat b1 ++ flat b2.
Proof. unfold flat. rewrite map_app, concat_app. reflexivity. Qed.

Section WithTable.

Variable T : OpcodeTable.

(** An [Instr] object as its constructor leaves it. *)
Definition Instr_wf (i : Instr) : Prop :=
  Instr_init T (_lineno i) (_name i) (_arg i) = Ok i.

Lemma Instr_init_wf lineno name arg i :
  Instr_init T lineno name arg = Ok i -> Instr_wf i.
Proof.
  unfold Instr_wf, Instr_init. destruct (opmap T !! name) as [op|] eqn:Hop;
    [|discriminate].
  intros H. inversion H; subst; simpl. rewrite Hop. reflexivity.
Qed.

Lemma Instr_init_fields lineno name arg i :
  Instr_init T lineno name arg = Ok i ->
  _lineno i = lineno /\ _name i = name /\ _arg i = arg
  /\ opmap T !! name = Some (_op i)
  /\ _size i = match arg with ArgNone => 1 | _ => 3 end.
Proof.
  unfold Instr_init. destruct (opmap T !! name) as [op|] eqn:Hop; [|discriminate].
  intros H. inversion H; subst; simpl. auto.
Qed.

Lemma Instr_wf_size i :
  Instr_wf i -> _size i = match _arg i with ArgNone => 1 | _ => 3 end.
Proof. intros H. apply Instr_init_fields in H. tauto. Qed.

Lemma Instr_wf_size_pos i : Instr_wf i -> 1 <= _size i.
Proof. intros H. rewrite (Instr_wf_size i H). destruct (_arg i); lia. Qed.

Lemma code_size_nonneg l : Forall Instr_wf l -> 0 <= code_size l.
Proof.
  induction 1 as [|i l Hi _ IH]; simpl; [lia|].
  pose proof (Instr_wf_size_pos i Hi). lia.
Qed.

(** ** The first loop of [assemble] *)

Lemma find_targets_offset blocks m o :
  (foldl find_targets_step (m, o) blocks).2 = o + code_size (flat blocks).
Proof.
  revert m o. induction blocks as [|[l ins] blocks IH]; intros m o; simpl.
  - unfold flat. simpl. lia.
  - rewrite IH, foldl_size. unfold flat. simpl. rewrite code_size_app. lia.
Qed.

Lemma find_targets_snoc blocks l ins :
  find_targets (blocks ++ [(l, ins)])
  = <[l := code_size (flat blocks)]> (find_targets blocks).
Proof.
  unfold find_targets. rewrite foldl_app. simpl.
  pose proof (find_targets_offset blocks ∅ 0) as Ho.
  destruct (foldl find_targets_step (∅, 0) blocks) as [m o]. simpl in *.
  subst o. f_equal.
Qed.

(** A label that [targets] knows is the label of a block, and its value is
    the layout offset of the last block with that label. *)
Lemma find_targets_lookup blocks l t :
  find_targets blocks !! l = Some t ->
  exists k ins,
    blocks !! k = Some (l, ins)
    /\ t = code_size (flat (take k blocks))
    /\ forall k' b, (k < k')%nat -> blocks !! k' = Some b -> b.1 <> l.
Proof.
  induction blocks as [|[l' ins'] blocks IH] using rev_ind; intros H.
  - unfold find_targets in H. simpl in H. rewrite lookup_empty in H. discriminate.
  - rewrite find_targets_snoc in H.
    destruct (decide (l' = l)) as [->|Hne].
    + rewrite lookup_insert_eq in H. inversion H; subst.
      exists (length blocks), ins'. split; [|split].
      * rewrite lookup_app_r by lia. rewrite Nat.sub_diag. reflexivity.
      * rewrite take_app_length. reflexivity.
      * intros k' b Hk Hb. apply lookup_lt_Some in Hb.
        rewrite length_app in Hb. simpl in Hb. lia.
    + rewrite lookup_insert_ne in H by assumption.
      destruct (IH H) as (k & ins & Hk & Ht & Hlast).
      pose proof (lookup_lt_Some _ _ _ Hk) as Hlt.
      exists k, ins. split; [|split].
      * rewrite lookup_app_l by assumption. assumption.
      * rewrite take_app_le by lia. assumption.
      * intros k' b Hkk Hb.
        destruct (decide (k' < length blocks)%nat) as [Hin|Hout].
        -- rewrite lookup_app_l in Hb by assumption. eapply Hlast; eassumption.
        -- rewrite lookup_app_r in Hb by lia.
           destruct (k' - length blocks)%nat; simpl in Hb; [|discriminate].
           inversion Hb; subst. simpl. assumption.
Qed.

(** ** The second loop of [assemble] *)

Lemma resolve_instr_fields targets o i ri :
  Instr_wf i ->
  resolve_instr T targets o i = Ok ri ->
  Instr_wf ri /\ _lineno ri = _lineno i /\ _name ri = _name i
  /\ _op ri = _op i /\ _size ri = _size i
  /\ match _arg i with
     | ArgLabel l =>
         exists t, targets !! l = Some t
           /\ _arg ri = ArgInt (if bool_decide (_op i ∈ hasjrel T)
                                then t - (o + _size i) else t)
     | a => _arg ri = a
     end.
Proof.
  intros Hwf. unfold resolve_instr.
  pose proof (Instr_init_fields _ _ _ _ Hwf) as (_ & _ & _ & Hop & Hsz).
  destruct (_arg i) as [|n|l] eqn:Harg.
  - intros H; inversion H; subst. rewrite Harg. auto 10.
  - intros H; inversion H; subst. rewrite Harg. auto 10.
  - destruct (targets !! l) as [t|]; [|discriminate].
    unfold replace_arg. intros H.
    pose proof (Instr_init_wf _ _ _ _ H) as Hwf'.
    apply Instr_init_fields in H as (Hl & Hn & Ha & Hop' & Hsz').
    rewrite Hop in Hop'. inversion Hop' as [Hopeq].
    repeat split; try assumption; try congruence.
    exists t. split; [reflexivity|]. rewrite Ha. reflexivity.
Qed.

Lemma Instr_assemble_bytes ri bytes :
  Instr_assemble ri = Ok bytes ->
  bytes = enc (_op ri) (operand ri)
  /\ 0 <= _op ri <= 255
  /\ (forall l, _arg ri <> ArgLabel l)
  /\ (forall n, _arg ri = ArgInt n -> 0 <= n <= 65535)
  /\ len bytes = match _arg ri with ArgNone => 1 | _ => 3 end.
Proof.
  unfold Instr_assemble, operand, pack_B, pack_BH.
  destruct (_arg ri) as [|n|l]; [| |discriminate].
  - destruct (Z.leb_spec 0 (_op ri)); simpl; [|discriminate].
    destruct (Z.leb_spec (_op ri) 255); simpl; [|discriminate].
    intros Hok; inversion Hok; subst.
    split; [reflexivity|]. split; [lia|]. split; [discriminate|].
    split; [discriminate|reflexivity].
  - destruct (Z.leb_spec 0 (_op ri)); simpl; [|discriminate].
    destruct (Z.leb_spec (_op ri) 255); simpl; [|discriminate].
    destruct (Z.leb_spec 0 n); simpl; [|discriminate].
    destruct (Z.leb_spec n 65535); simpl; [|discriminate].
    intros Hok; inversion Hok; subst.
    split; [reflexivity|]. split; [lia|]. split; [discriminate|].
    split; [|reflexivity]. intros ? Heq; inversion Heq; lia.
Qed.

Lemma assemble_instr_inv targets st i st' :
  assemble_instr T targets st i = Ok st' ->
  exists ri bytes,
    resolve_instr T targets (as_offset st) i = Ok ri
    /\ Instr_assemble ri = Ok bytes
    /\ st' = mkAsm (as_offset st + _size ri) (as_code st ++ [bytes])
                   (as_linenos st ++ [(as_offset st, _lineno ri)]).
Proof.
  unfold assemble_instr. intros H.
  apply bind_Ok in H as (ri & Hri & H).
  apply bind_Ok in H as (bytes & Hb & H).
  inversion H; subst. eauto.
Qed.

(** The offset is the number of bytes emitted so far. *)
Definition asm_synced (st : asm_state) : Prop :=
  as_offset st = len (concat (as_code st)).

Lemma assemble_instr_synced targets st i st' :
  Instr_wf i -> asm_synced st ->
  assemble_instr T targets st i = Ok st' ->
  asm_synced st' /\ as_offset st' = as_offset st + _size i.
Proof.
  intros Hwf Hsync H.
  apply assemble_instr_inv in H as (ri & bytes & Hri & Hb & ->).
  apply resolve_instr_fields in Hri as (Hwf' & _ & _ & _ & Hsz & _); [|assumption].
  apply Instr_assemble_bytes in Hb as (_ & _ & _ & _ & Hlen).
  unfold asm_synced in *. simpl. rewrite concat_app, len_app. simpl.
  rewrite app_nil_r. rewrite Hlen, <- (Instr_wf_size ri Hwf'). split; lia.
Qed.

Lemma assemble_fold_synced targets l st st' :
  Forall Instr_wf l -> asm_synced st ->
  foldM (assemble_instr T targets) st l = Ok st' ->
  asm_synced st' /\ as_offset st' = as_offset st + code_size l
  /\ exists more, as_code st' = as_code st ++ more.
Proof.
  intros Hwf. revert st. induction Hwf as [|i l Hi _ IH]; intros st Hsync H.
  - simpl in H. inversion H; subst. simpl. split; [assumption|].
    split; [lia|]. exists []. rewrite app_nil_r. reflexivity.
  - simpl in H. apply bind_Ok in H as (st1 & H1 & H).
    pose proof (assemble_instr_inv _ _ _ _ H1) as (ri & bytes & _ & _ & Hst1).
    destruct (assemble_instr_synced _ _ _ _ Hi Hsync H1) as [Hs1 Ho1].
    destruct (IH _ Hs1 H) as (Hs' & Ho' & more & Hmore).
    split; [assumption|]. split; [simpl; lia|].
    exists (bytes :: more). rewrite Hmore, Hst1. simpl.
    rewrite <- app_assoc. reflexivity.
Qed.

(** The operand field of the instruction at [offset], read the way
    [Instr.disassemble] reads it. *)
Definition operand_at (code : list Z) (offset : Z) : result Z :=
  b1 ← py_getitem code (offset + 1);
  b2 ← py_getitem code (offset + 2);
  Ok (b1 + b2 * 256).

Lemma operand_at_enc pre op n post :
  0 <= n ->
  operand_at (pre ++ enc op (Some n) ++ post) (len pre) = Ok n.
Proof.
  intros Hn. unfold operand_at. simpl.
  rewrite (py_getitem_app_r pre _ (len pre + 1) 1 (n mod 256)); [|lia|reflexivity].
  rewrite (py_getitem_app_r pre _ (len pre + 2) 2 (n / 256)); [|lia|reflexivity].
  simpl. f_equal. pose proof (Z.div_mod n 256). lia.
Qed.

Lemma assemble_blocks_inv co blocks out :
  assemble_blocks T co blocks = Ok out ->
  exists st,
    foldM (assemble_instr T (find_targets blocks)) (mkAsm 0 [] []) (flat blocks)
    = Ok st
    /\ co_code out = concat (as_code st)
    /\ make_lnotab (co_firstlineno co) (as_linenos st) = Ok (co_lnotab out)
    /\ co_firstlineno out = co_firstlineno co.
Proof.
  unfold assemble_blocks. intros H.
  apply bind_Ok in H as (st & Hst & H).
  apply bind_Ok in H as (lnotab & Hl & H). inversion H; subst. simpl.
  exists st. split; [|auto].
  unfold assemble_block in Hst.
  rewrite (foldM_concat (assemble_instr T (find_targets blocks)) snd) in Hst.
  exact Hst.
Qed.

(** C2.  In a graph that assembles, an instruction whose operand is a Label
    is encoded with its opcode followed by a 16-bit operand.  The label is
    the label of a block of the graph; with [target_off] the layout offset
    of that block (the sizes of all instructions before it), the operand is
    [target_off] for an absolute jump and [target_off - (offset + size)] for
    a relative one, [offset] being the layout offset of the instruction. *)
Theorem assemble_resolves_jumps (co out : CodeType)
    (blocks : list (Label * list Instr)) (pre post : list Instr)
    (instr : Instr) (l : Label) :
  Forall Instr_wf (flat blocks) ->
  assemble_blocks T co blocks = Ok out ->
  flat blocks = pre ++ instr :: post ->
  _arg instr = ArgLabel l ->
  exists k ins target_off,
    blocks !! k = Some (l, ins)
    /\ target_off = code_size (flat (take k blocks))
    /\ _size instr = 3
    /\ py_getitem (co_code out) (code_size pre) = Ok (_op instr)
    /\ operand_at (co_code out) (code_size pre)
       = Ok (if bool_decide (_op instr ∈ hasjrel T)
             then target_off - (code_size pre + _size instr)
             else target_off).
Proof.
  intros Hwf Hasm Hflat Harg.
  apply assemble_blocks_inv in Hasm as (st & Hst & Hcode & _ & _).
  rewrite Hflat in Hst, Hwf.
  apply Forall_app in Hwf as [Hwf_pre Hwf_rest].
  apply Forall_cons_1 in Hwf_rest as [Hwf_i Hwf_post].
  rewrite foldM_app in Hst. apply bind_Ok in Hst as (st1 & Hst1 & Hst).
  simpl in Hst. apply bind_Ok in Hst as (st2 & Hst2 & Hst).
  assert (Hsync0 : asm_synced (mkAsm 0 [] [])) by reflexivity.
  destruct (assemble_fold_synced _ _ _ _ Hwf_pre Hsync0 Hst1) as (Hs1 & Ho1 & _).
  simpl in Ho1.
  pose proof (assemble_instr_inv _ _ _ _ Hst2) as (ri & bytes & Hri & Hb & Hst2').
  destruct (assemble_instr_synced _ _ _ _ Hwf_i Hs1 Hst2) as [Hs2 _].
  destruct (assemble_fold_synced _ _ _ _ Hwf_post Hs2 Hst) as (_ & _ & more & Hmore).
  apply resolve_instr_fields in Hri as (_ & _ & _ & Hop & _ & Hres); [|assumption].
  rewrite Harg in Hres. destruct Hres as (t & Ht & Hargri).
  apply Instr_assemble_bytes in Hb as (Hbytes & _ & _ & Hrange & _).
  unfold operand in Hbytes. rewrite Hargri in Hbytes.
  specialize (Hrange _ Hargri).
  destruct (find_targets_lookup _ _ _ Ht) as (k & ins & Hk & Htk & _).
  exists k, ins, t. split; [assumption|]. split; [assumption|].
  split; [rewrite (Instr_wf_size _ Hwf_i), Harg; reflexivity|].
  assert (Hcode' : co_code out
                   = concat (as_code st1) ++ enc (_op ri) (Some
                       (if bool_decide (_op instr ∈ hasjrel T)
                        then t - (as_offset st1 + _size instr) else t))
                     ++ concat more).
  { rewrite Hcode, Hmore, Hst2'. simpl. rewrite !concat_app. simpl.
    rewrite app_nil_r, <- app_assoc, Hbytes. reflexivity. }
  assert (Hlen : len (concat (as_code st1)) = code_size pre).
  { unfold asm_synced in Hs1. lia. }
  rewrite Hcode', <- Hlen. split.
  - rewrite <- Hop. eapply py_getitem_app_r with (k := 0%nat); [lia|reflexivity].
  - rewrite operand_at_enc by lia. rewrite Hlen. f_equal.
    replace (as_offset st1) with (code_size pre) by lia. reflexivity.
Qed.

(** ** The third loop of [assemble] terminates and raises nothing *)

Lemma while_doff_small fuel doff lnotab :
  doff <= 255 -> while_doff fuel doff lnotab = Ok (doff, lnotab).
Proof.
  intros H. destruct fuel; simpl;
    destruct (Z.ltb_spec 255 doff); try lia; reflexivity.
Qed.

Lemma while_dlineno_neg_total fuel :
  forall d lnotab, (Z.to_nat (- d) <= fuel)%nat ->
    exists d' lnotab',
      while_dlineno_neg fuel d lnotab = Ok (d', lnotab')
      /\ -127 <= d' /\ d' <= Z.max d (-1).
Proof.
  induction fuel as [|fuel IH]; intros d lnotab Hfuel; simpl.
  - destruct (Z.ltb_spec d (-127)); [lia|].
    exists d, lnotab. split; [reflexivity|lia].
  - destruct (Z.ltb_spec d (-127)).
    + change (pack_Bb 0 (-127)) with (Ok [0; 129]). simpl.
      destruct (IH (d - -127) (lnotab ++ [[0; 129]])) as (d' & l' & Hw & Hlo & Hhi);
        [lia|].
      exists d', l'. split; [exact Hw|lia].
    + exists d, lnotab. split; [reflexivity|lia].
Qed.

Lemma while_dlineno_pos_total fuel :
  forall d lnotab, (Z.to_nat d <= fuel)%nat ->
    exists d' lnotab',
      while_dlineno_pos fuel d lnotab = Ok (d', lnotab')
      /\ d' <= 126 /\ Z.min d 1 <= d'.
Proof.
  induction fuel as [|fuel IH]; intros d lnotab Hfuel; simpl.
  - destruct (Z.ltb_spec 126 d); [lia|].
    exists d, lnotab. split; [reflexivity|lia].
  - destruct (Z.ltb_spec 126 d).
    + change (pack_Bb 0 126) with (Ok [0; 126]). simpl.
      destruct (IH (d - 126) (lnotab ++ [[0; 126]])) as (d' & l' & Hw & Hlo & Hhi);
        [lia|].
      exists d', l'. split; [exact Hw|lia].
    + exists d, lnotab. split; [reflexivity|lia].
Qed.

Lemma pack_Bb_total a b :
  0 <= a <= 255 -> -128 <= b <= 127 -> pack_Bb a b = Ok [a; b mod 256].
Proof.
  intros Ha Hb. unfold pack_Bb.
  destruct (Z.leb_spec 0 a); [|lia]. destruct (Z.leb_spec a 255); [|lia].
  destruct (Z.leb_spec (-128) b); [|lia]. destruct (Z.leb_spec b 127); [|lia].
  reflexivity.
Qed.

Lemma lnotab_step_total old_offset old_lineno lnotab offset lineno :
  0 <= offset - old_offset <= 255 ->
  exists lnotab',
    lnotab_step (old_offset, old_lineno, lnotab) (offset, lineno)
    = Ok (offset, lineno, lnotab').
Proof.
  intros Hoff. unfold lnotab_step.
  rewrite while_doff_small by lia. simpl.
  destruct (while_dlineno_neg_total (Z.to_nat (- (lineno - old_lineno)))
              (lineno - old_lineno) lnotab) as (d1 & l1 & Hw1 & Hlo1 & Hhi1);
    [lia|].
  rewrite Hw1. simpl.
  destruct (while_dlineno_pos_total (Z.to_nat d1) d1 l1)
    as (d2 & l2 & Hw2 & Hhi2 & Hlo2); [lia|].
  rewrite Hw2. simpl.
  destruct (Z.leb_spec 0 (offset - old_offset)); [|lia].
  destruct (Z.leb_spec (offset - old_offset) 255); [|lia]. simpl.
  destruct (Z.leb_spec (-127) d2); [|lia].
  destruct (Z.leb_spec d2 126); [|lia]. simpl.
  destruct (negb (offset - old_offset =? 0) || negb (d2 =? 0)).
  - rewrite pack_Bb_total by lia. simpl. eauto.
  - eauto.
Qed.

(** The offsets of [linenos] never step back and advance by at most 255. *)
Fixpoint chained (o : Z) (l : list (Z * Z)) : Prop :=
  match l with
  | [] => True
  | (o', _) :: l' => 0 <= o' - o <= 255 /\ chained o' l'
  end.

Fixpoint chain_end (o : Z) (l : list (Z * Z)) : Z :=
  match l with
  | [] => o
  | (o', _) :: l' => chain_end o' l'
  end.

Lemma chained_snoc o l o' line :
  chained o l -> 0 <= o' - chain_end o l <= 255 ->
  chained o (l ++ [(o', line)]) /\ chain_end o (l ++ [(o', line)]) = o'.
Proof.
  revert o. induction l as [|[o1 l1] l IH]; intros o Hc Hd; simpl in *.
  - auto.
  - destruct Hc as [H1 Hc]. destruct (IH o1 Hc Hd). auto.
Qed.

Lemma lnotab_fold_total linenos :
  forall old_offset old_lineno lnotab,
    chained old_offset linenos ->
    exists r, foldM lnotab_step (old_offset, old_lineno, lnotab) linenos = Ok r.
Proof.
  induction linenos as [|[o l] linenos IH]; intros oo ol acc Hc.
  - simpl. eauto.
  - destruct Hc as [Hd Hc]. cbn [foldM].
    destruct (lnotab_step_total oo ol acc o l Hd) as [acc' Hs].
    rewrite Hs. cbn [mbind result_bind]. apply IH. assumption.
Qed.

Lemma make_lnotab_total firstlineno linenos :
  chained 0 linenos -> exists lnotab, make_lnotab firstlineno linenos = Ok lnotab.
Proof.
  intros Hc. unfold make_lnotab.
  destruct (lnotab_fold_total linenos 0 firstlineno [] Hc) as [[[o l] acc] Hr].
  rewrite Hr. simpl. eauto.
Qed.

(** ** The first loop of [disassemble] on an assembled stream *)

(** Every name of [opmap] is the entry of [opname] at its opcode. *)
Definition table_wf : Prop :=
  map_Forall (fun name op => opname T !! Z.to_nat op = Some name) (opmap T).

(** An instruction as the assembler encodes it: its operand is an integer or
    absent, it has one exactly when the opcode is at least [HAVE_ARGUMENT],
    and both fit their fields. *)
Definition raw_ok (i : Instr) : Prop :=
  Instr_wf i
  /\ 0 <= _op i <= 255
  /\ (HAVE_ARGUMENT T <= _op i <-> _arg i <> ArgNone)
  /\ (forall l, _arg i <> ArgLabel l)
  /\ (forall n, _arg i = ArgInt n -> 0 <= n <= 65535)
  /\ (is_jump T i = true -> exists n, _arg i = ArgInt n).

Definition bytes_of (i : Instr) : list Z := enc (_op i) (operand i).

Definition with_lineno (l : Z) (i : Instr) : Instr :=
  mkInstr l (_name i) (_arg i) (_size i) (_op i).

(** The target [get_jump_target] computes for an integer operand. *)
Definition jump_target (o : Z) (i : Instr) : option Z :=
  match _arg i with
  | ArgInt n =>
      if bool_decide (_op i ∈ hasjrel T) then Some (o + _size i + n)
      else if bool_decide (_op i ∈ hasjabs T) then Some n
      else None
  | _ => None
  end.

(** The line numbers the first loop gives the instructions. *)
Fixpoint relined (ls : gmap Z Z) (off lineno : Z) (l : list Instr) : list Instr :=
  match l with
  | [] => []
  | i :: r =>
      let lineno' := match ls !! off with Some x => x | None => lineno end in
      with_lineno lineno' i :: relined ls (off + _size i) lineno' r
  end.

(** The offsets at which the instructions of a list start. *)
Fixpoint starts (o : Z) (l : list Instr) : list Z :=
  match l with
  | [] => []
  | i :: r => o :: starts (o + _size i) r
  end.

(** The jump targets of a list of encoded instructions. *)
Fixpoint targets_of (o : Z) (l : list Instr) : list Z :=
  match l with
  | [] => []
  | i :: r =>
      match jump_target o i with
      | Some t => t :: targets_of (o + _size i) r
      | None => targets_of (o + _size i) r
      end
  end.

Lemma raw_ok_len i : raw_ok i -> len (bytes_of i) = _size i.
Proof.
  intros (Hwf & _ & _ & Hnl & _). rewrite (Instr_wf_size i Hwf).
  unfold bytes_of, operand. destruct (_arg i) as [|n|l]; try reflexivity.
  exfalso. eapply Hnl. reflexivity.
Qed.

Lemma raw_ok_with_lineno l i : raw_ok i -> raw_ok (with_lineno l i).
Proof.
  intros (Hwf & H1 & H2 & H3 & H4 & H5).
  split; [|split; [|split; [|split; [|split]]]]; try assumption.
  unfold Instr_wf in *. simpl.
  apply Instr_init_fields in Hwf as (_ & _ & _ & Hop & Hsz).
  unfold Instr_init. rewrite Hop. unfold with_lineno. rewrite Hsz. reflexivity.
Qed.

Lemma get_jump_target_raw o i :
  raw_ok i -> get_jump_target T i o = Ok (jump_target o i).
Proof.
  intros (_ & _ & _ & Hnl & _ & Hj). unfold get_jump_target, jump_target.
  unfold is_jump in Hj.
  destruct (_arg i) as [|n|l] eqn:Ha.
  - destruct (bool_decide (_op i ∈ hasjrel T)); simpl in Hj.
    + destruct Hj as [n Hn]; [reflexivity|discriminate].
    + destruct (bool_decide (_op i ∈ hasjabs T)); reflexivity.
  - destruct (bool_decide (_op i ∈ hasjrel T)); [reflexivity|].
    destruct (bool_decide (_op i ∈ hasjabs T)); reflexivity.
  - exfalso. eapply Hnl. reflexivity.
Qed.

Lemma Instr_disassemble_enc pre i rest lineno :
  table_wf -> raw_ok i ->
  Instr_disassemble T lineno (pre ++ bytes_of i ++ rest) (len pre)
  = Ok (with_lineno lineno i).
Proof.
  intros Htab (Hwf & Hop & Har & Hnl & Hrange & _).
  pose proof (Instr_init_fields _ _ _ _ Hwf) as (_ & _ & _ & Hmap & Hsz).
  pose proof (Htab _ _ Hmap) as Hname. simpl in Hname.
  unfold Instr_disassemble, bytes_of, operand.
  assert (Hnm : py_getitem (opname T) (_op i) = Ok (_name i)).
  { unfold py_getitem. cbv zeta.
    assert (Hge : (_op i <? 0) = false) by (apply Z.ltb_ge; lia).
    rewrite !Hge, Hname. reflexivity. }
  assert (Hinit : forall l, Instr_init T l (_name i) (_arg i) = Ok (with_lineno l i)).
  { intros l. unfold Instr_init. rewrite Hmap. unfold with_lineno.
    rewrite Hsz. reflexivity. }
  destruct (_arg i) as [|n|l] eqn:Ha.
  - rewrite (py_getitem_app_r pre _ (len pre) 0 (_op i)); [|lia|reflexivity].
    simpl.
    destruct (Z.leb_spec (HAVE_ARGUMENT T) (_op i)) as [Hle|Hlt].
    + exfalso. apply Har in Hle. congruence.
    + simpl. rewrite Hnm. simpl. apply Hinit.
  - rewrite (py_getitem_app_r pre _ (len pre) 0 (_op i)); [|lia|reflexivity].
    simpl.
    destruct (Z.leb_spec (HAVE_ARGUMENT T) (_op i)) as [Hle|Hlt].
    + rewrite (py_getitem_app_r pre _ (len pre + 1) 1 (n mod 256));
        [|lia|reflexivity].
      rewrite (py_getitem_app_r pre _ (len pre + 2) 2 (n / 256));
        [|lia|reflexivity].
      simpl. rewrite Hnm. simpl.
      replace (n mod 256 + n / 256 * 256) with n
        by (pose proof (Z.div_mod n 256); lia).
      apply Hinit.
    + exfalso. assert (ArgInt n <> ArgNone) as Hne by discriminate.
      apply Har in Hne. lia.
  - exfalso. eapply Hnl. reflexivity.
Qed.

Lemma decode_loop_complete ls ris :
  table_wf -> Forall raw_ok ris ->
  forall pre fuel lineno acc bs,
    (length (concat (map bytes_of ris)) <= fuel)%nat ->
    exists bs',
      decode_loop T fuel (pre ++ concat (map bytes_of ris)) ls (len pre)
                  lineno acc bs
      = Ok (acc ++ relined ls (len pre) lineno ris, bs')
      /\ forall t, t ∈ bs' <-> t ∈ bs \/ t ∈ targets_of (len pre) ris.
Proof.
  intros Htab Hraw. induction Hraw as [|i ris Hi _ IH];
    intros pre fuel lineno acc bs Hfuel.
  - simpl. rewrite !app_nil_r.
    exists bs. split.
    + destruct fuel; simpl; destruct (Z.ltb_spec (len pre) (len pre)); try lia;
        reflexivity.
    + intros t. rewrite elem_of_nil. tauto.
  - simpl in *.
    pose proof (raw_ok_len i Hi) as Hlen.
    pose proof Hi as (Hwf & _).
    pose proof (Instr_wf_size_pos i Hwf) as Hpos.
    rewrite length_app in Hfuel.
    assert (Hblen : (1 <= length (bytes_of i))%nat) by (unfold len in Hlen; lia).
    destruct fuel as [|fuel]; [lia|]. simpl.
    destruct (Z.ltb_spec (len pre) (len (pre ++ bytes_of i ++ concat (map bytes_of ris))))
      as [_|Hge]; [|rewrite !len_app in Hge; pose proof (len_nonneg (concat (map bytes_of ris))); lia].
    rewrite Instr_disassemble_enc by assumption. simpl.
    set (lineno' := match ls !! len pre with Some x => x | None => lineno end).
    assert (Hline :
      (match ls !! len pre with
       | Some l => instr' ← Instr_init T l (_name i) (_arg i); Ok (l, instr')
       | None => Ok (lineno, with_lineno lineno i)
       end) = Ok (lineno', with_lineno lineno' i)).
    { subst lineno'. destruct (ls !! len pre) as [l|]; [|reflexivity].
      pose proof (Instr_init_fields _ _ _ _ Hwf) as (_ & _ & _ & Hmap & Hsz).
      unfold Instr_init. rewrite Hmap. simpl. unfold with_lineno.
      rewrite Hsz. reflexivity. }
    rewrite Hline. simpl.
    rewrite (get_jump_target_raw (len pre) (with_lineno lineno' i))
      by (apply raw_ok_with_lineno; assumption).
    simpl.
    change (jump_target (len pre) (with_lineno lineno' i))
      with (jump_target (len pre) i).
    specialize (IH (pre ++ bytes_of i) fuel lineno' (acc ++ [with_lineno lineno' i])).
    rewrite len_app, Hlen in IH. rewrite <- !app_assoc in IH.
    destruct (jump_target (len pre) i) as [t|].
    + destruct (IH ({[t]} ∪ bs)) as (bs' & Hdec & Hbs); [lia|].
      exists bs'. split; [exact Hdec|].
      intros t'. rewrite Hbs, elem_of_union, elem_of_singleton, elem_of_cons. tauto.
    + destruct (IH bs) as (bs' & Hdec & Hbs); [lia|].
      exists bs'. split; [exact Hdec|]. exact Hbs.
Qed.

(** ** The second loop of [disassemble] *)

Definition view_of (blocks : list Block) : list (Label * list Instr) :=
  map (fun b => (label b, instrs b)) blocks.

Definition sp_blocks (st : split_state) : list Block :=
  sp_done st ++ [sp_block st].

Lemma view_of_app b1 b2 : view_of (b1 ++ b2) = view_of b1 ++ view_of b2.
Proof. unfold view_of. apply map_app. Qed.

Lemma starts_app o l1 l2 :
  starts o (l1 ++ l2) = starts o l1 ++ starts (o + code_size l1) l2.
Proof.
  revert o. induction l1 as [|i l1 IH]; intros o; simpl.
  - f_equal. lia.
  - rewrite IH. do 3 f_equal. lia.
Qed.

Lemma starts_sizes o l1 l2 :
  map _size l1 = map _size l2 -> starts o l1 = starts o l2.
Proof.
  revert o l2. induction l1 as [|i l1 IH]; intros o [|j l2] H; simpl in *;
    try discriminate; [reflexivity|].
  inversion H as [[Hs Hr]]. rewrite Hs. f_equal. apply IH. assumption.
Qed.

Lemma code_size_sizes l1 l2 :
  map _size l1 = map _size l2 -> code_size l1 = code_size l2.
Proof.
  revert l2. induction l1 as [|i l1 IH]; intros [|j l2] H; simpl in *;
    try discriminate; [reflexivity|].
  inversion H as [[Hs Hr]]. rewrite Hs. f_equal. apply IH. assumption.
Qed.

(** What the second loop maintains.  [processed] is the list of the
    instructions consumed so far. *)
Record split_inv (bs : gset Z) (next0 : nat) (processed : list Instr)
    (st : split_state) : Prop := {
  si_flat : flat (view_of (sp_blocks st)) = processed;
  si_offset : sp_offset st = code_size processed;
  si_labels : forall b, b ∈ sp_blocks st -> (label b < sp_next st)%nat;
  si_map_labels : forall t L, sp_map st !! t = Some L -> (L < sp_next st)%nat;
  si_targets : forall t L,
    sp_map st !! t = Some L ->
    find_targets (view_of (sp_blocks st)) !! L = Some t;
  si_zero : is_Some (sp_map st !! 0);
  si_cover : forall t,
    t ∈ bs -> t ∈ starts 0 processed -> is_Some (sp_map st !! t);
  si_nonempty : processed <> [] -> instrs (sp_block st) <> [];
}.

Lemma split_inv_init bs next :
  split_inv bs next [] (mkSplit [] (mkBlock next []) {[0 := next]} 0 (S next)).
Proof.
  split; simpl; try reflexivity.
  - intros b Hb. unfold sp_blocks in Hb. simpl in Hb.
    apply list_elem_of_singleton in Hb. subst. simpl. lia.
  - intros t L H. apply lookup_singleton_Some in H as [_ <-]. lia.
  - intros t L H. apply lookup_singleton_Some in H as [<- <-].
    unfold sp_blocks, find_targets. simpl. apply lookup_insert_eq.
  - rewrite lookup_singleton_eq. eauto.
  - intros t _ H. apply elem_of_nil in H. contradiction.
  - congruence.
Qed.

Lemma find_targets_last done b :
  find_targets (view_of (done ++ [b]))
  = <[label b := code_size (flat (view_of done))]> (find_targets (view_of done)).
Proof. rewrite view_of_app. simpl. apply find_targets_snoc. Qed.

Lemma flat_view_last done b :
  flat (view_of (done ++ [b])) = flat (view_of done) ++ instrs b.
Proof.
  rewrite view_of_app, flat_app. f_equal. unfold flat. simpl.
  apply app_nil_r.
Qed.

Lemma split_inv_step bs next0 processed st i :
  Instr_wf i ->
  split_inv bs next0 processed st ->
  split_inv bs next0 (processed ++ [i]) (split_step bs st i).
Proof.
  intros Hwf [Hflat Hoff Hlab Hmlab Htgt Hzero Hcover Hne].
  unfold split_step.
  destruct (negb (sp_offset st =? 0) && bool_decide (sp_offset st ∈ bs)) eqn:Hnew.
  - (* a new block starts here *)
    apply andb_true_iff in Hnew as [Hnz Hin].
    apply bool_decide_eq_true in Hin.
    split; simpl.
    + unfold sp_blocks. simpl. fold (sp_blocks st).
      rewrite flat_view_last, Hflat. reflexivity.
    + rewrite code_size_app, Hoff. simpl. lia.
    + intros b Hb. unfold sp_blocks in Hb. simpl in Hb. fold (sp_blocks st) in Hb.
      apply elem_of_app in Hb as [Hb|Hb].
      * specialize (Hlab b Hb). lia.
      * apply list_elem_of_singleton in Hb. subst. simpl. lia.
    + intros t L H. apply lookup_insert_Some in H as [[_ <-]|[_ H]]; [lia|].
      specialize (Hmlab t L H). lia.
    + intros t L H. unfold sp_blocks. simpl. fold (sp_blocks st).
      rewrite find_targets_last. simpl.
      apply lookup_insert_Some in H as [[<- <-]|[_ H]].
      * rewrite lookup_insert_eq. rewrite Hflat, Hoff. reflexivity.
      * rewrite lookup_insert_ne by (specialize (Hmlab t L H); lia).
        apply Htgt. assumption.
    + apply lookup_insert_is_Some'. right. assumption.
    + intros t Ht Hst. rewrite starts_app in Hst. simpl in Hst.
      apply lookup_insert_is_Some'.
      apply elem_of_app in Hst as [Hst|Hst].
      * right. apply Hcover; assumption.
      * apply list_elem_of_singleton in Hst. left. lia.
    + intros _. destruct (@nil Instr ++ [i]) eqn:E; [|discriminate].
      discriminate E.
  - (* the current block goes on *)
    split; simpl.
    + unfold sp_blocks. simpl.
      rewrite flat_view_last. simpl. rewrite app_assoc. f_equal.
      rewrite <- Hflat. unfold sp_blocks. rewrite flat_view_last. reflexivity.
    + rewrite code_size_app, Hoff. simpl. lia.
    + intros b Hb. unfold sp_blocks in Hb. simpl in Hb.
      apply elem_of_app in Hb as [Hb|Hb].
      * apply Hlab. unfold sp_blocks. apply elem_of_app. left. assumption.
      * apply list_elem_of_singleton in Hb. subst. simpl.
        apply Hlab. unfold sp_blocks. apply elem_of_app. right.
        apply list_elem_of_singleton. reflexivity.
    + exact Hmlab.
    + intros t L H. specialize (Htgt t L H).
      unfold sp_blocks in *. simpl. rewrite find_targets_last in *.
      exact Htgt.
    + exact Hzero.
    + intros t Ht Hst. rewrite starts_app in Hst. simpl in Hst.
      apply elem_of_app in Hst as [Hst|Hst]; [apply Hcover; assumption|].
      apply list_elem_of_singleton in Hst.
      assert (Ht0 : t = sp_offset st) by lia.
      rewrite Ht0 in Ht |- *. clear Ht0 Hst.
      destruct (Z.eqb_spec (sp_offset st) 0) as [H0|H0].
      * rewrite H0. exact Hzero.
      * simpl in Hnew. apply bool_decide_eq_false in Hnew. contradiction.
    + intros _ E. destruct (instrs (sp_block st)); discriminate E.
Qed.

Lemma split_fold_inv bs next0 l :
  Forall Instr_wf l ->
  forall processed st,
    split_inv bs next0 processed st ->
    split_inv bs next0 (processed ++ l) (foldl (split_step bs) st l).
Proof.
  induction 1 as [|i l Hi _ IH]; intros processed st Hinv; simpl.
  - rewrite app_nil_r. assumption.
  - replace (processed ++ i :: l) with ((processed ++ [i]) ++ l)
      by (rewrite <- app_assoc; reflexivity).
    apply IH. apply split_inv_step; assumption.
Qed.

(** The second loop on a non-empty list of instructions: the blocks hold the
    instructions in order, every offset of [block_map] is the layout offset
    of the block whose label it has, and every block start that is the
    offset of an instruction is a key of [block_map]. *)
Lemma split_blocks_spec next instructions bs :
  Forall Instr_wf instructions -> instructions <> [] ->
  exists blocks block_map next',
    split_blocks next instructions bs = Ok (blocks, block_map, next')
    /\ flat (view_of blocks) = instructions
    /\ (forall t L, block_map !! t = Some L ->
          find_targets (view_of blocks) !! L = Some t)
    /\ (forall t, t ∈ bs -> t ∈ starts 0 instructions ->
          is_Some (block_map !! t)).
Proof.
  intros Hwf Hne. unfold split_blocks.
  pose proof (split_fold_inv bs next instructions Hwf [] _ (split_inv_init bs next))
    as [Hflat Hoff Hlab Hmlab Htgt Hzero Hcover Hnonempty].
  simpl in *.
  set (st := foldl (split_step bs) _ instructions) in *.
  case_bool_decide as Hemp; [exfalso; apply (Hnonempty Hne Hemp)|].
  exists (sp_done st ++ [sp_block st]), (sp_map st), (sp_next st).
  split; [reflexivity|]. split; [exact Hflat|]. split; assumption.
Qed.

(** ** The third loop of [disassemble] *)

(** The instruction the third loop leaves at offset [o]. *)
Definition relabel (block_map : gmap Z Label) (o : Z) (i : Instr) : Instr :=
  match jump_target o i with
  | Some t =>
      match block_map !! t with
      | Some L => mkInstr (_lineno i) (_name i) (ArgLabel L) 3 (_op i)
      | None => i
      end
  | None => i
  end.

Fixpoint relabel_list (block_map : gmap Z Label) (o : Z) (l : list Instr)
  : list Instr :=
  match l with
  | [] => []
  | i :: r => relabel block_map o i :: relabel_list block_map (o + _size i) r
  end.

Fixpoint relabel_blocks (block_map : gmap Z Label) (o : Z) (bs : list Block)
  : list Block :=
  match bs with
  | [] => []
  | b :: r =>
      mkBlock (label b) (relabel_list block_map o (instrs b))
      :: relabel_blocks block_map (o + code_size (instrs b)) r
  end.

Lemma targets_of_app o l1 l2 :
  targets_of o (l1 ++ l2) = targets_of o l1 ++ targets_of (o + code_size l1) l2.
Proof.
  revert o. induction l1 as [|i l1 IH]; intros o; simpl.
  - f_equal. lia.
  - rewrite IH. replace (o + _size i + code_size l1) with (o + (_size i + code_size l1)) by lia.
    destruct (jump_target o i); reflexivity.
Qed.

Lemma relabel_list_app bm o l1 l2 :
  relabel_list bm o (l1 ++ l2)
  = relabel_list bm o l1 ++ relabel_list bm (o + code_size l1) l2.
Proof.
  revert o. induction l1 as [|i l1 IH]; intros o; simpl.
  - f_equal. lia.
  - rewrite IH. do 3 f_equal. lia.
Qed.

Lemma relabel_size bm o i : raw_ok i -> _size (relabel bm o i) = _size i.
Proof.
  intros (Hwf & _). unfold relabel, jump_target.
  pose proof (Instr_wf_size i Hwf) as Hsz.
  destruct (_arg i) as [|n|l]; try reflexivity.
  destruct (bool_decide (_op i ∈ hasjrel T)).
  - destruct (bm !! _); simpl; congruence.
  - destruct (bool_decide (_op i ∈ hasjabs T)); [|reflexivity].
    destruct (bm !! _); simpl; congruence.
Qed.

Lemma relabel_list_sizes bm l :
  Forall raw_ok l -> forall o, map _size (relabel_list bm o l) = map _size l.
Proof.
  induction 1 as [|i l Hi _ IH]; intros o; simpl; [reflexivity|].
  rewrite relabel_size by assumption. f_equal. apply IH.
Qed.

Lemma relabel_blocks_flat bm bs :
  forall o, flat (view_of (relabel_blocks bm o bs))
            = relabel_list bm o (flat (view_of bs)).
Proof.
  induction bs as [|b bs IH]; intros o; simpl; [reflexivity|].
  unfold flat in *. simpl. rewrite relabel_list_app. f_equal. apply IH.
Qed.

Lemma find_targets_ext bs1 bs2 :
  Forall2 (fun b1 b2 => b1.1 = b2.1 /\ code_size b1.2 = code_size b2.2) bs1 bs2 ->
  find_targets bs1 = find_targets bs2.
Proof.
  intros H. unfold find_targets. generalize (∅ : gmap Label Z) 0.
  induction H as [|[l1 i1] [l2 i2] bs1 bs2 [Hl Hs] _ IH]; intros m o;
    [reflexivity|].
  simpl in *. rewrite !foldl_size, Hl, Hs. apply IH.
Qed.

Lemma relabel_blocks_targets bm bs :
  Forall raw_ok (flat (view_of bs)) ->
  forall o, find_targets (view_of (relabel_blocks bm o bs))
            = find_targets (view_of bs).
Proof.
  intros Hraw o. apply find_targets_ext. revert o Hraw.
  induction bs as [|b bs IH]; intros o Hraw; simpl; [constructor|].
  unfold flat in Hraw. simpl in Hraw. apply Forall_app in Hraw as [Hb Hbs].
  constructor.
  - simpl. split; [reflexivity|]. apply code_size_sizes.
    apply relabel_list_sizes. assumption.
  - apply IH. assumption.
Qed.

Lemma retarget_instr_complete bm o out i :
  raw_ok i ->
  (forall t, jump_target o i = Some t -> is_Some (bm !! t)) ->
  retarget_instr T bm (o, out) i = Ok (o + _size i, out ++ [relabel bm o i]).
Proof.
  intros Hraw Hcov. unfold retarget_instr, relabel.
  rewrite get_jump_target_raw by assumption. simpl.
  destruct (jump_target o i) as [t|]; [|reflexivity].
  destruct (Hcov t eq_refl) as [L HL]. rewrite HL.
  destruct Hraw as (Hwf & _).
  apply Instr_init_fields in Hwf as (_ & _ & _ & Hmap & _).
  unfold replace_arg, Instr_init. rewrite Hmap. reflexivity.
Qed.

Lemma retarget_list_complete bm l :
  Forall raw_ok l ->
  forall o out,
    (forall t, t ∈ targets_of o l -> is_Some (bm !! t)) ->
    foldM (retarget_instr T bm) (o, out) l
    = Ok (o + code_size l, out ++ relabel_list bm o l).
Proof.
  induction 1 as [|i l Hi _ IH]; intros o out Hcov.
  - simpl. rewrite app_nil_r. do 2 f_equal. lia.
  - cbn [foldM]. rewrite retarget_instr_complete; [|assumption|].
    + cbn [mbind result_bind]. rewrite IH.
      * simpl. rewrite <- app_assoc. do 2 f_equal. lia.
      * intros t Ht. apply Hcov. simpl.
        destruct (jump_target o i); [right|]; assumption.
    + intros t Ht. apply Hcov. simpl. rewrite Ht. left.
Qed.

Lemma retarget_blocks_complete bm bs :
  Forall raw_ok (flat (view_of bs)) ->
  forall o out,
    (forall t, t ∈ targets_of o (flat (view_of bs)) -> is_Some (bm !! t)) ->
    foldM (retarget_block T bm) (o, out) bs
    = Ok (o + code_size (flat (view_of bs)), out ++ relabel_blocks bm o bs).
Proof.
  induction bs as [|b bs IH]; intros Hraw o out Hcov.
  - simpl. rewrite app_nil_r. do 2 f_equal. unfold flat. simpl. lia.
  - unfold flat in Hraw, Hcov. simpl in Hraw, Hcov.
    apply Forall_app in Hraw as [Hb Hbs].
    rewrite targets_of_app in Hcov.
    cbn [foldM]. unfold retarget_block at 2.
    rewrite retarget_list_complete; [|assumption|].
    + cbn [mbind result_bind]. simpl app.
      rewrite IH; [|assumption|].
      * simpl. unfold flat. simpl. rewrite code_size_app, <- app_assoc.
        do 2 f_equal. lia.
      * intros t Ht. apply Hcov. apply elem_of_app. right. assumption.
    + intros t Ht. apply Hcov. apply elem_of_app. left. assumption.
Qed.

(** ** Assembling the disassembled graph *)

(** The [(offset, lineno)] pairs the second loop of [assemble] collects. *)
Fixpoint lines_of (o : Z) (l : list Instr) : list (Z * Z) :=
  match l with
  | [] => []
  | i :: r => (o, _lineno i) :: lines_of (o + _size i) r
  end.

Lemma chained_lines_of l :
  Forall Instr_wf l ->
  forall o0 o, 0 <= o - o0 <= 255 -> chained o0 (lines_of o l).
Proof.
  induction 1 as [|i l Hi _ IH]; intros o0 o Ho; simpl; [exact I|].
  split; [assumption|]. apply IH.
  rewrite (Instr_wf_size i Hi). destruct (_arg i); lia.
Qed.

Lemma Instr_assemble_raw i : raw_ok i -> Instr_assemble i = Ok (bytes_of i).
Proof.
  intros (_ & Hop & _ & Hnl & Hrange & _).
  unfold Instr_assemble, bytes_of, operand, pack_B, pack_BH.
  destruct (_arg i) as [|n|l].
  - destruct (Z.leb_spec 0 (_op i)); [|lia].
    destruct (Z.leb_spec (_op i) 255); [|lia]. reflexivity.
  - specialize (Hrange n eq_refl).
    destruct (Z.leb_spec 0 (_op i)); [|lia].
    destruct (Z.leb_spec (_op i) 255); [|lia].
    destruct (Z.leb_spec 0 n); [|lia].
    destruct (Z.leb_spec n 65535); [|lia]. reflexivity.
  - exfalso. eapply Hnl. reflexivity.
Qed.

Lemma resolve_relabel bm targets o i :
  raw_ok i ->
  (forall t L, bm !! t = Some L -> targets !! L = Some t) ->
  resolve_instr T targets o (relabel bm o i) = Ok i.
Proof.
  intros Hraw Hbm. pose proof Hraw as (Hwf & _ & _ & Hnl & _).
  pose proof (Instr_init_fields _ _ _ _ Hwf) as (_ & _ & _ & Hmap & Hsz).
  unfold relabel, jump_target, resolve_instr.
  destruct (_arg i) as [|n|l] eqn:Ha.
  - rewrite Ha. reflexivity.
  - assert (Hi : mkInstr (_lineno i) (_name i) (ArgInt n) 3 (_op i) = i).
    { destruct i; simpl in *. subst. reflexivity. }
    destruct (bool_decide (_op i ∈ hasjrel T)) eqn:Hrel.
    + destruct (bm !! (o + _size i + n)) as [L|] eqn:HL.
      * simpl. rewrite (Hbm _ _ HL). simpl. rewrite Hrel.
        unfold replace_arg, Instr_init. simpl. rewrite Hmap.
        replace (o + _size i + n - (o + 3)) with n by lia.
        rewrite Hi. reflexivity.
      * rewrite Ha. reflexivity.
    + destruct (bool_decide (_op i ∈ hasjabs T)).
      * destruct (bm !! n) as [L|] eqn:HL.
        -- simpl. rewrite (Hbm _ _ HL). simpl. rewrite Hrel.
           unfold replace_arg, Instr_init. simpl. rewrite Hmap.
           rewrite Hi. reflexivity.
        -- rewrite Ha. reflexivity.
      * rewrite Ha. reflexivity.
  - exfalso. eapply Hnl. reflexivity.
Qed.

Lemma assemble_relabel_list bm targets l :
  Forall raw_ok l ->
  (forall t L, bm !! t = Some L -> targets !! L = Some t) ->
  forall st,
    foldM (assemble_instr T targets) st (relabel_list bm (as_offset st) l)
    = Ok (mkAsm (as_offset st + code_size l)
                (as_code st ++ map bytes_of l)
                (as_linenos st ++ lines_of (as_offset st) l)).
Proof.
  intros Hraw Hbm. induction Hraw as [|i l Hi _ IH]; intros st.
  - simpl. rewrite !app_nil_r. destruct st; simpl. do 2 f_equal. lia.
  - cbn [relabel_list foldM]. unfold assemble_instr at 2.
    rewrite resolve_relabel by assumption. cbn [mbind result_bind].
    rewrite Instr_assemble_raw by assumption. cbn [mbind result_bind].
    specialize (IH (mkAsm (as_offset st + _size i) (as_code st ++ [bytes_of i])
                          (as_linenos st ++ [(as_offset st, _lineno i)]))).
    cbn [as_offset as_code as_linenos] in IH. rewrite IH.
    simpl. rewrite <- !app_assoc. simpl. do 2 f_equal. lia.
Qed.

(** ** The first assembly *)

(** An instruction of a valid graph: built by the constructor, with an
    operand exactly when the opcode takes one, and with a Label as operand
    when it is a jump. *)
Definition valid_instr (i : Instr) : Prop :=
  Instr_wf i
  /\ (HAVE_ARGUMENT T <= _op i <-> _arg i <> ArgNone)
  /\ (is_jump T i = true -> exists l, _arg i = ArgLabel l).

Definition valid_graph (blocks : list (Label * list Instr)) : Prop :=
  Forall valid_instr (flat blocks).

(** Every Label that a jump has as operand is laid out before the end of
    the stream: an instruction starts at its offset. *)
Definition jump_targets_inside (blocks : list (Label * list Instr)) : Prop :=
  forall i l t,
    i ∈ flat blocks -> is_jump T i = true -> _arg i = ArgLabel l ->
    find_targets blocks !! l = Some t ->
    t < code_size (flat blocks).

Lemma assemble_instr_raw targets st i st' :
  valid_instr i ->
  assemble_instr T targets st i = Ok st' ->
  exists ri,
    raw_ok ri /\ _size ri = _size i
    /\ st' = mkAsm (as_offset st + _size i) (as_code st ++ [bytes_of ri])
                   (as_linenos st ++ [(as_offset st, _lineno ri)])
    /\ (forall t, jump_target (as_offset st) ri = Some t ->
          exists l, is_jump T i = true /\ _arg i = ArgLabel l
                    /\ targets !! l = Some t).
Proof.
  intros (Hwf & Har & Hjump) Hasm.
  apply assemble_instr_inv in Hasm as (ri & bytes & Hri & Hb & ->).
  apply resolve_instr_fields in Hri as (Hwf' & Hl & Hn & Hop & Hsz & Harg);
    [|assumption].
  apply Instr_assemble_bytes in Hb as (Hbytes & Hoprange & Hnl & Hrange & _).
  exists ri. split; [|split; [assumption|split]].
  - split; [assumption|]. split; [assumption|].
    split; [|split; [assumption|split; [assumption|]]].
    + rewrite Hop, Har. destruct (_arg i) as [|n|l].
      * rewrite Harg. tauto.
      * rewrite Harg. tauto.
      * destruct Harg as (t & _ & ->). split; discriminate.
    + unfold is_jump in *. rewrite Hop. intros Hj.
      destruct (Hjump Hj) as [l Hl']. rewrite Hl' in Harg.
      destruct Harg as (t & _ & ->). eauto.
  - rewrite Hsz, Hbytes. reflexivity.
  - intros t Ht. unfold jump_target in Ht.
    destruct (_arg ri) as [|n|l'] eqn:Hari; try discriminate.
    assert (Hj : is_jump T i = true).
    { unfold is_jump. rewrite <- Hop.
      destruct (bool_decide (_op ri ∈ hasjrel T)); [reflexivity|].
      destruct (bool_decide (_op ri ∈ hasjabs T)); [reflexivity|discriminate]. }
    destruct (Hjump Hj) as [l Hl']. exists l. split; [assumption|].
    split; [assumption|]. rewrite Hl' in Harg.
    destruct Harg as (tl & Htl & Heq). rewrite Htl. f_equal.
    inversion Heq as [Hn']. rewrite <- Hop in Hn'.
    destruct (bool_decide (_op ri ∈ hasjrel T)).
    + inversion Ht. lia.
    + destruct (bool_decide (_op ri ∈ hasjabs T)); inversion Ht. lia.
Qed.

Lemma assemble_fold_raw targets l :
  Forall valid_instr l ->
  forall st st',
    foldM (assemble_instr T targets) st l = Ok st' ->
    exists ris,
      Forall raw_ok ris /\ map _size ris = map _size l
      /\ as_code st' = as_code st ++ map bytes_of ris
      /\ (forall t, t ∈ targets_of (as_offset st) ris ->
            exists i l', i ∈ l /\ is_jump T i = true /\ _arg i = ArgLabel l'
                         /\ targets !! l' = Some t).
Proof.
  induction 1 as [|i l Hi _ IH]; intros st st' H.
  - simpl in H. inversion H; subst. exists []. simpl.
    split; [constructor|]. split; [reflexivity|].
    split; [rewrite app_nil_r; reflexivity|].
    intros t Ht. apply elem_of_nil in Ht. contradiction.
  - cbn [foldM] in H. apply bind_Ok in H as (st1 & H1 & H).
    destruct (assemble_instr_raw _ _ _ _ Hi H1) as (ri & Hraw & Hsz & -> & Htgt).
    destruct (IH _ _ H) as (ris & Hraws & Hsizes & Hcode & Htgts).
    simpl in Hcode, Htgts.
    exists (ri :: ris). split; [constructor; assumption|].
    split; [simpl; congruence|].
    split; [rewrite Hcode, <- app_assoc; reflexivity|].
    intros t Ht. simpl in Ht. rewrite Hsz in Ht.
    destruct (jump_target (as_offset st) ri) as [t0|] eqn:Hjt.
    + apply elem_of_cons in Ht as [->|Ht].
      * destruct (Htgt _ eq_refl) as (l0 & Hj & Ha & Hl0).
        exists i, l0. split; [left|]. auto.
      * destruct (Htgts t Ht) as (i' & l' & Hin & Hrest).
        exists i', l'. split; [right; assumption|assumption].
    + destruct (Htgts t Ht) as (i' & l' & Hin & Hrest).
      exists i', l'. split; [right; assumption|assumption].
Qed.

Lemma block_start_in_starts blocks k t :
  Forall Instr_wf (flat blocks) ->
  t = code_size (flat (take k blocks)) ->
  t < code_size (flat blocks) ->
  t ∈ starts 0 (flat blocks).
Proof.
  intros Hwf -> Hlt.
  rewrite <- (take_drop k blocks) at 2. rewrite flat_app, starts_app.
  apply elem_of_app. right.
  destruct (flat (drop k blocks)) as [|j post] eqn:Hd.
  - exfalso. rewrite <- (take_drop k blocks) in Hlt at 2.
    rewrite flat_app, Hd, app_nil_r in Hlt. lia.
  - simpl. replace (0 + code_size (flat (take k blocks)))
      with (code_size (flat (take k blocks))) by lia. left.
Qed.

(** ** Line numbers do not matter to the layout *)

Lemma relined_sizes ls l :
  forall o line, map _size (relined ls o line l) = map _size l.
Proof. induction l as [|i l IH]; intros o line; simpl; [|rewrite IH]; reflexivity. Qed.

Lemma relined_bytes ls l :
  forall o line, map bytes_of (relined ls o line l) = map bytes_of l.
Proof. induction l as [|i l IH]; intros o line; simpl; [|rewrite IH]; reflexivity. Qed.

Lemma relined_raw ls l :
  Forall raw_ok l -> forall o line, Forall raw_ok (relined ls o line l).
Proof.
  induction 1 as [|i l Hi _ IH]; intros o line; simpl; constructor.
  - apply raw_ok_with_lineno. assumption.
  - apply IH.
Qed.

Lemma relined_targets ls l :
  forall o o' line, targets_of o' (relined ls o line l) = targets_of o' l.
Proof.
  induction l as [|i l IH]; intros o o' line; simpl; [reflexivity|].
  change (jump_target o' (with_lineno _ i)) with (jump_target o' i).
  rewrite IH. reflexivity.
Qed.

(** ** [Code.__init__] and the view of its blocks *)

Lemma blocks_view_fold (h : gmap addr Block) (addrs : list addr)
    (blocks : list Block) :
  Forall2 (fun a b => h !! a = Some b) addrs blocks ->
  forall out,
    foldM (fun out a =>
             match h !! a with
             | Some b => Ok (out ++ [(label b, instrs b)])
             | None => Raise Stuck
             end) out addrs
    = Ok (out ++ view_of blocks).
Proof.
  induction 1 as [|a b addrs blocks Hab _ IH]; intros out; simpl.
  - rewrite app_nil_r. reflexivity.
  - rewrite Hab. simpl. rewrite IH, <- app_assoc. reflexivity.
Qed.

Lemma Code_init_view co next blocks :
  blocks_view (Code_init co next blocks) = Ok (view_of blocks).
Proof.
  unfold blocks_view, Code_init. simpl.
  apply (fun H => blocks_view_fold _ _ blocks H []).
  apply Forall2_same_length_lookup. split; [apply length_seq|].
  intros k a b Ha Hb.
  apply elem_of_list_to_map_1.
  - rewrite fst_zip by (rewrite length_seq; lia). apply NoDup_seq.
  - apply list_elem_of_lookup. exists k.
    rewrite lookup_zip_with. unfold addr in *. rewrite Ha. simpl. rewrite Hb. reflexivity.
Qed.

(** ** The round trip *)

Lemma raw_ok_wf l : Forall raw_ok l -> Forall Instr_wf l.
Proof. apply Forall_impl. intros i Hi. apply Hi. Qed.

Lemma valid_instr_wf l : Forall valid_instr l -> Forall Instr_wf l.
Proof. apply Forall_impl. intros i Hi. apply Hi. Qed.

(** C1, amended.  For a valid graph that assembles to a non-empty stream
    and in which every Label that a jump has as operand is laid out at the
    offset of an instruction, the assembled code object disassembles, the
    disassembled graph assembles, and its instruction stream is byte for
    byte the one of the first assembly. *)
Theorem reassembly_is_identical (c : Code) (blocks : list (Label * list Instr))
    (co : CodeType) (next : nat) :
  table_wf ->
  blocks_view c = Ok blocks ->
  valid_graph blocks ->
  jump_targets_inside blocks ->
  Code_assemble T c = Ok co ->
  co_code co <> [] ->
  exists c' co',
    Code_disassemble T co next = Ok c'
    /\ Code_assemble T c' = Ok co'
    /\ co_code co' = co_code co.
Proof.
  intros Htab Hview Hvalid Hinside Hasm Hne.
  unfold Code_assemble in Hasm. rewrite Hview in Hasm. simpl in Hasm.
  apply assemble_blocks_inv in Hasm as (st & Hst & Hcode & _ & _).
  destruct (assemble_fold_raw _ _ Hvalid _ _ Hst)
    as (ris & Hraw & Hsizes & Hascode & Htgts).
  simpl in Hascode, Htgts. rewrite Hascode in Hcode.
  set (ls := py_dict (findlinestarts co)).
  set (dis := relined ls 0 (co_firstlineno co) ris).
  assert (Hrawdis : Forall raw_ok dis) by (apply relined_raw; assumption).
  assert (Hdisne : dis <> []).
  { subst dis. destruct ris; [|discriminate].
    simpl in Hcode. contradiction. }
  (* the first loop *)
  destruct (decode_loop_complete ls ris Htab Hraw [] (length (co_code co))
              (co_firstlineno co) [] ∅) as (bs' & Hdec & Hbs).
  { rewrite Hcode. lia. }
  change (len (@nil Z)) with 0 in Hdec, Hbs.
  simpl in Hdec. rewrite <- Hcode in Hdec. fold dis in Hdec.
  (* the second loop *)
  destruct (split_blocks_spec next dis bs' (raw_ok_wf _ Hrawdis) Hdisne)
    as (blocks1 & bm & next' & Hsplit & Hflat1 & Htg1 & Hcov1).
  (* the third loop *)
  assert (Hcov : forall t, t ∈ targets_of 0 (flat (view_of blocks1)) ->
                           is_Some (bm !! t)).
  { intros t Ht. rewrite Hflat1 in Ht. unfold dis in Ht.
    rewrite relined_targets in Ht.
    apply Hcov1.
    - apply Hbs. right. exact Ht.
    - destruct (Htgts t Ht) as (i & l & Hin & Hj & Ha & Hl).
      specialize (Hinside i l t Hin Hj Ha Hl).
      destruct (find_targets_lookup _ _ _ Hl) as (k & ins & _ & Hk & _).
      pose proof (block_start_in_starts blocks k t
                    (valid_instr_wf _ Hvalid) Hk Hinside) as Hstart.
      unfold dis. rewrite (starts_sizes 0 _ (flat blocks)); [assumption|].
      rewrite relined_sizes. assumption. }
  assert (Hraw1 : Forall raw_ok (flat (view_of blocks1)))
    by (rewrite Hflat1; assumption).
  pose proof (retarget_blocks_complete bm blocks1 Hraw1 0 [] Hcov) as Hret.
  exists (Code_init co next' (relabel_blocks bm 0 blocks1)).
  (* the second assembly *)
  pose proof (assemble_relabel_list bm
                (find_targets (view_of (relabel_blocks bm 0 blocks1)))
                dis Hrawdis) as Hre.
  rewrite relabel_blocks_targets in Hre by assumption.
  specialize (Hre Htg1 (mkAsm 0 [] [])). simpl in Hre.
  destruct (make_lnotab_total (co_firstlineno co) (lines_of 0 dis))
    as [lnotab Hlnotab].
  { apply chained_lines_of; [apply raw_ok_wf; assumption|lia]. }
  exists (mkCodeType (concat (map bytes_of dis)) (co_firstlineno co) lnotab).
  split; [|split].
  - unfold Code_disassemble. fold ls. rewrite Hdec. simpl.
    rewrite Hsplit. simpl. rewrite Hret. reflexivity.
  - unfold Code_assemble. rewrite Code_init_view. simpl.
    unfold assemble_blocks. unfold assemble_block.
    rewrite (foldM_concat (assemble_instr T _) snd).
    fold (flat (view_of (relabel_blocks bm 0 blocks1))).
    rewrite relabel_blocks_flat, Hflat1.
    rewrite relabel_blocks_targets by assumption.
    rewrite Hre. simpl. rewrite Hlnotab. reflexivity.
  - simpl. unfold dis. rewrite relined_bytes. symmetry. exact Hcode.
Qed.

(** ** What [disassemble] makes of every opcode *)

(** The instruction [Instr.disassemble] reads at an offset: the opcode found
    there under its name, with the two bytes after it as its operand when the
    opcode is at least [HAVE_ARGUMENT]. *)
Definition decoded_at (code : list Z) (off : Z) (i : Instr) : Prop :=
  exists op,
  py_getitem code off = Ok op
  /\ py_getitem (opname T) op = Ok (_name i)
  /\ Instr_wf i
  /\ if HAVE_ARGUMENT T <=? op
     then _size i = 3
          /\ exists b1 b2,
               py_getitem code (off + 1) = Ok b1
               /\ py_getitem code (off + 2) = Ok b2
               /\ _arg i = ArgInt (b1 + b2 * 256)
     else _size i = 1 /\ _arg i = ArgNone.

(** The instruction the graph holds for an offset: the one read there, its
    operand replaced by a Label when the opcode is a jump with an operand. *)
Definition kept_at (code : list Z) (off : Z) (i : Instr) : Prop :=
  exists op,
  py_getitem code off = Ok op
  /\ py_getitem (opname T) op = Ok (_name i)
  /\ Instr_wf i
  /\ if HAVE_ARGUMENT T <=? op
     then _size i = 3
          /\ exists b1 b2,
               py_getitem code (off + 1) = Ok b1
               /\ py_getitem code (off + 2) = Ok b2
               /\ if is_jump T i then exists l, _arg i = ArgLabel l
                  else _arg i = ArgInt (b1 + b2 * 256)
     else _size i = 1 /\ _arg i = ArgNone.

(** A property of every instruction of a list at the offset it starts at. *)
Fixpoint all_at (P : Z -> Instr -> Prop) (off : Z) (l : list Instr) : Prop :=
  match l with
  | [] => True
  | i :: r => P off i /\ all_at P (off + _size i) r
  end.

Lemma all_at_app P off l1 l2 :
  all_at P off (l1 ++ l2)
  <-> all_at P off l1 /\ all_at P (off + code_size l1) l2.
Proof.
  revert off. induction l1 as [|i l1 IH]; intros off; simpl.
  - replace (off + 0) with off by lia. tauto.
  - rewrite IH.
    replace (off + _size i + code_size l1) with (off + (_size i + code_size l1))
      by lia.
    tauto.
Qed.

Lemma py_getitem_bound {A} (l : list A) (i : Z) (x : A) :
  0 <= i -> py_getitem l i = Ok x -> i < len l.
Proof.
  intros Hi. unfold py_getitem, len. cbv zeta.
  assert (Hge : (i <? 0) = false) by (apply Z.ltb_ge; lia).
  rewrite !Hge. destruct (l !! Z.to_nat i) eqn:Hl; [|discriminate].
  intros _. apply lookup_lt_Some in Hl. lia.
Qed.

Lemma Instr_disassemble_sound lineno code off i :
  Instr_disassemble T lineno code off = Ok i -> decoded_at code off i.
Proof.
  unfold Instr_disassemble. intros H.
  apply bind_Ok in H as (op & Hop & H).
  apply bind_Ok in H as (arg & Harg & H).
  apply bind_Ok in H as (name & Hname & H).
  pose proof (Instr_init_wf _ _ _ _ H) as Hwf.
  apply Instr_init_fields in H as (_ & Hn & Ha & _ & Hsz).
  exists op. rewrite Hn. split; [exact Hop|]. split; [exact Hname|].
  split; [exact Hwf|].
  destruct (HAVE_ARGUMENT T <=? op).
  - apply bind_Ok in Harg as (b1 & Hb1 & Harg).
    apply bind_Ok in Harg as (b2 & Hb2 & Harg).
    injection Harg as <-. split; [exact Hsz|].
    exists b1, b2. auto.
  - injection Harg as <-. auto.
Qed.

Lemma decoded_at_lineno code off i l i' :
  decoded_at code off i -> Instr_init T l (_name i) (_arg i) = Ok i' ->
  decoded_at code off i'.
Proof.
  intros (op & Hop & Hname & Hwf & Harg) H.
  pose proof (Instr_init_wf _ _ _ _ H) as Hwf'.
  apply Instr_init_fields in H as (_ & Hn & Ha & _ & Hsz).
  exists op. rewrite Hn, Ha. rewrite (Instr_wf_size i Hwf) in Harg.
  rewrite Hsz. auto.
Qed.

Lemma decode_loop_sound ls code fuel :
  forall off lineno acc bs out bs',
    0 <= off <= len code ->
    decode_loop T fuel code ls off lineno acc bs = Ok (out, bs') ->
    exists new,
      out = acc ++ new
      /\ all_at (decoded_at code) off new
      /\ off + code_size new = len code.
Proof.
  induction fuel as [|fuel IH]; intros off lineno acc bs out bs' Hoff H;
    simpl in H.
  - destruct (Z.ltb_spec off (len code)) as [Hlt|Hge]; [discriminate|].
    inversion H; subst. exists []. rewrite app_nil_r. simpl.
    split; [reflexivity|]. split; [exact I|lia].
  - destruct (Z.ltb_spec off (len code)) as [Hlt|Hge].
    2:{ inversion H; subst. exists []. rewrite app_nil_r. simpl.
        split; [reflexivity|]. split; [exact I|lia]. }
    apply bind_Ok in H as (instr & Hdis & H).
    apply Instr_disassemble_sound in Hdis.
    apply bind_Ok in H as ([lineno' instr'] & Hline & H).
    assert (Hdec : decoded_at code off instr').
    { destruct (ls !! off) as [l|].
      - apply bind_Ok in Hline as (i'' & Hinit & Hline).
        inversion Hline; subst. eapply decoded_at_lineno; eassumption.
      - inversion Hline; subst. exact Hdis. }
    apply bind_Ok in H as (target & _ & H).
    apply IH in H as (new & Hout & Hall & Hlen).
    + exists (instr' :: new). rewrite Hout, <- app_assoc. simpl.
      split; [reflexivity|]. split; [split; assumption|lia].
    + destruct Hdec as (op & Hop & _ & _ & Harg).
      destruct (HAVE_ARGUMENT T <=? op).
      * destruct Harg as (Hsz & b1 & b2 & _ & Hb2 & _).
        apply py_getitem_bound in Hb2; lia.
      * destruct Harg as (Hsz & _). lia.
Qed.

Lemma all_at_wf code off l :
  all_at (decoded_at code) off l -> Forall Instr_wf l.
Proof.
  revert off. induction l as [|i l IH]; intros off; simpl; [constructor|].
  intros [(op & _ & _ & Hwf & _) Hl]. constructor; [exact Hwf|].
  eapply IH. exact Hl.
Qed.

Lemma retarget_instr_sound code bm o out i o' out' :
  decoded_at code o i ->
  retarget_instr T bm (o, out) i = Ok (o', out') ->
  exists i',
    out' = out ++ [i'] /\ o' = o + _size i /\ _size i' = _size i
    /\ kept_at code o i'.
Proof.
  intros (op & Hop & Hname & Hwf & Harg) H. unfold retarget_instr in H.
  apply bind_Ok in H as (target & Htgt & H).
  apply bind_Ok in H as (i' & Hi' & H).
  injection H as <- <-. exists i'. split; [reflexivity|].
  split; [reflexivity|].
  pose proof (Instr_init_fields _ _ _ _ Hwf) as (_ & _ & _ & Hmap & _).
  assert (Hlabel : forall t,
            target = Some t ->
            _size i = 3 ->
            is_jump T i = true ->
            _size i' = 3 /\ _name i' = _name i /\ Instr_wf i'
            /\ is_jump T i' = true /\ exists l, _arg i' = ArgLabel l).
  { intros t -> Hsz Hj. destruct (bm !! t) as [lbl|]; [|discriminate].
    unfold replace_arg in Hi'.
    pose proof (Instr_init_wf _ _ _ _ Hi') as Hwf'.
    apply Instr_init_fields in Hi' as (_ & Hn & Ha & Hmap' & Hsz').
    rewrite Hmap in Hmap'. injection Hmap' as Hopeq.
    split; [exact Hsz'|]. split; [exact Hn|]. split; [exact Hwf'|].
    split; [unfold is_jump in *; rewrite <- Hopeq; exact Hj|].
    exists lbl. exact Ha. }
  unfold get_jump_target in Htgt. unfold kept_at.
  destruct (HAVE_ARGUMENT T <=? op) eqn:Hhave.
  - destruct Harg as (Hsz & b1 & b2 & Hb1 & Hb2 & Ha). rewrite Ha in Htgt.
    destruct (is_jump T i) eqn:Hj.
    + assert (exists t, target = Some t) as [t Ht].
      { unfold is_jump in Hj.
        destruct (bool_decide (_op i ∈ hasjrel T)); [injection Htgt as <-; eauto|].
        destruct (bool_decide (_op i ∈ hasjabs T)); [injection Htgt as <-; eauto|].
        discriminate Hj. }
      destruct (Hlabel t Ht Hsz eq_refl) as (Hsz' & Hn & Hwf' & Hj' & Hl).
      split; [congruence|]. exists op. rewrite Hn, Hhave, Hj'.
      split; [exact Hop|]. split; [exact Hname|]. split; [exact Hwf'|].
      split; [exact Hsz'|]. exists b1, b2. auto.
    + unfold is_jump in Hj. apply orb_false_iff in Hj as [Hr Hab].
      rewrite Hr, Hab in Htgt. injection Htgt as <-. injection Hi' as <-.
      split; [reflexivity|]. exists op. rewrite Hhave.
      unfold is_jump. rewrite Hr, Hab. simpl.
      split; [exact Hop|]. split; [exact Hname|]. split; [exact Hwf|].
      split; [exact Hsz|]. exists b1, b2. auto.
  - destruct Harg as (Hsz & Ha). rewrite Ha in Htgt.
    assert (target = None) as ->.
    { destruct (bool_decide (_op i ∈ hasjrel T)); [discriminate|].
      destruct (bool_decide (_op i ∈ hasjabs T)); injection Htgt as <-;
        reflexivity. }
    injection Hi' as <-. split; [reflexivity|]. exists op. rewrite Hhave.
    auto.
Qed.

Lemma retarget_list_sound code bm l :
  forall o out o' out',
    all_at (decoded_at code) o l ->
    foldM (retarget_instr T bm) (o, out) l = Ok (o', out') ->
    exists new,
      out' = out ++ new /\ o' = o + code_size l
      /\ all_at (kept_at code) o new /\ code_size new = code_size l.
Proof.
  induction l as [|i l IH]; intros o out o' out' Hall H; simpl in *.
  - injection H as <- <-. exists []. rewrite app_nil_r. simpl.
    split; [reflexivity|]. split; [lia|]. split; [exact I|reflexivity].
  - destruct Hall as [Hi Hall].
    apply bind_Ok in H as ([o1 out1] & Hstep & H).
    destruct (retarget_instr_sound _ _ _ _ _ _ _ Hi Hstep)
      as (i' & -> & -> & Hsz & Hkept).
    destruct (IH _ _ _ _ Hall H) as (new & -> & -> & Hnew & Hsize).
    exists (i' :: new). rewrite <- app_assoc. simpl.
    split; [reflexivity|]. split; [lia|]. rewrite Hsz.
    split; [split; assumption|lia].
Qed.

Lemma retarget_blocks_sound code bm bs :
  forall o out o' out',
    all_at (decoded_at code) o (flat (view_of bs)) ->
    foldM (retarget_block T bm) (o, out) bs = Ok (o', out') ->
    exists new,
      out' = out ++ new
      /\ all_at (kept_at code) o (flat (view_of new))
      /\ code_size (flat (view_of new)) = code_size (flat (view_of bs)).
Proof.
  induction bs as [|b bs IH]; intros o out o' out' Hall H; simpl in H.
  - injection H as <- <-. exists []. rewrite app_nil_r.
    split; [reflexivity|]. split; [exact I|reflexivity].
  - change (flat (view_of (b :: bs))) with (instrs b ++ flat (view_of bs))
      in Hall |- *.
    apply all_at_app in Hall as [Hb Hall].
    apply bind_Ok in H as ([o1 out1] & Hstep & H).
    unfold retarget_block in Hstep.
    apply bind_Ok in Hstep as ([o2 new] & Hfold & Hstep).
    injection Hstep as <- <-.
    destruct (retarget_list_sound _ _ _ _ _ _ _ Hb Hfold)
      as (new' & Hnew & -> & Hkept & Hsize).
    simpl in Hnew. subst new'.
    destruct (IH _ _ _ _ Hall H) as (rest & -> & Hrest & Hrsize).
    exists (mkBlock (label b) new :: rest).
    split; [rewrite <- app_assoc; reflexivity|].
    change (flat (view_of (mkBlock (label b) new :: rest)))
      with (new ++ flat (view_of rest)).
    rewrite !code_size_app, all_at_app, Hsize.
    split; [split; assumption|lia].
Qed.

Lemma split_blocks_flat next instructions bs blocks block_map next' :
  Forall Instr_wf instructions ->
  split_blocks next instructions bs = Ok (blocks, block_map, next') ->
  flat (view_of blocks) = instructions.
Proof.
  intros Hwf H. destruct instructions as [|i l].
  - vm_compute in H. discriminate H.
  - destruct (split_blocks_spec next (i :: l) bs Hwf) as (b & m & n & Hs & Hf & _);
      [discriminate|].
    rewrite Hs in H. injection H as <- <- <-. exact Hf.
Qed.

Lemma all_at_split P l pre i post :
  all_at P 0 l -> l = pre ++ i :: post -> P (code_size pre) i.
Proof.
  intros Hall ->. apply all_at_app in Hall as [_ [Hi _]]. exact Hi.
Qed.

(** C3, amended.  [disassemble] merges nothing: the instructions of the
    graph it returns, in layout order, are the opcodes of the stream one by
    one.  The instruction that starts at an offset has the name of the byte
    found there; when that byte is at least [HAVE_ARGUMENT] it occupies three
    bytes and its operand is the 16-bit value of the two bytes after it, or a
    Label when the opcode is a jump; otherwise it occupies one byte and has
    no operand.  The sizes add up to the length of the stream, so no byte is
    skipped: an extended-operand prefix is an instruction of the graph like
    any other, and the instruction after it keeps its own two bytes only. *)
Theorem disassemble_keeps_every_opcode (co : CodeType) (next : nat) (c : Code)
    (blocks : list (Label * list Instr)) :
  Code_disassemble T co next = Ok c ->
  blocks_view c = Ok blocks ->
  code_size (flat blocks) = len (co_code co)
  /\ forall pre instr post,
       flat blocks = pre ++ instr :: post ->
       kept_at (co_code co) (code_size pre) instr.
Proof.
  intros Hdis Hview. unfold Code_disassemble in Hdis.
  apply bind_Ok in Hdis as ([instructions block_starts] & Hdec & Hdis).
  apply bind_Ok in Hdis as ([[bs block_map] next'] & Hsplit & Hdis).
  apply bind_Ok in Hdis as ([o' bs'] & Hret & Hdis).
  injection Hdis as <-. rewrite Code_init_view in Hview.
  injection Hview as <-.
  apply decode_loop_sound in Hdec as (new & Hnew & Hall & Hlen);
    [|pose proof (len_nonneg (co_code co)); lia].
  simpl in Hnew. subst new.
  pose proof (split_blocks_flat _ _ _ _ _ _ (all_at_wf _ _ _ Hall) Hsplit)
    as Hflat.
  rewrite <- Hflat in Hall, Hlen.
  destruct (retarget_blocks_sound _ _ _ _ _ _ _ Hall Hret)
    as (new & Hout & Hkept & Hsize).
  simpl in Hout. subst new. split; [lia|].
  intros pre instr post Hpos. eapply all_at_split; eassumption.
Qed.

(** ** The loops of [disassemble] end *)

(** [Stuck] marks a loop of the model that ran out of iterations; a result
    other than it is a result of the Python code. *)
Definition not_stuck {A} (r : result A) : Prop :=
  match r with
  | Raise Stuck => False
  | _ => True
  end.


Lemma bind_not_stuck {A B} (m : result A) (f : A -> result B) :
  not_stuck m -> (forall x, m = Ok x -> not_stuck (f x)) -> not_stuck (m ≫= f).
Proof.
  destruct m as [x|e]; simpl; intros Hm Hf.
  - apply Hf. reflexivity.
  - exact Hm.
Qed.

Lemma foldM_not_stuck {A S} (f : S -> A -> result S) (l : list A) :
  (forall s x, not_stuck (f s x)) -> forall s, not_stuck (foldM f s l).
Proof.
  intros Hf. induction l as [|x l IH]; intros s; simpl; [exact I|].
  apply bind_not_stuck; [apply Hf|]. intros s' _. apply IH.
Qed.

Lemma py_getitem_not_stuck {A} (l : list A) i : not_stuck (py_getitem l i).
Proof.
  unfold py_getitem. cbv zeta.
  destruct (_ <? 0); [exact I|]. destruct (l !! _); exact I.
Qed.

Lemma Instr_init_not_stuck lineno name arg :
  not_stuck (Instr_init T lineno name arg).
Proof. unfold Instr_init. destruct (opmap T !! name); exact I. Qed.

Lemma Instr_disassemble_not_stuck lineno code off :
  not_stuck (Instr_disassemble T lineno code off).
Proof.
  unfold Instr_disassemble.
  apply bind_not_stuck; [apply py_getitem_not_stuck|]. intros op _.
  apply bind_not_stuck.
  - destruct (HAVE_ARGUMENT T <=? op); [|exact I].
    apply bind_not_stuck; [apply py_getitem_not_stuck|]. intros b1 _.
    apply bind_not_stuck; [apply py_getitem_not_stuck|]. intros b2 _. exact I.
  - intros arg _. apply bind_not_stuck; [apply py_getitem_not_stuck|].
    intros name _. apply Instr_init_not_stuck.
Qed.

Lemma get_jump_target_not_stuck i o : not_stuck (get_jump_target T i o).
Proof.
  unfold get_jump_target.
  destruct (_arg i); try exact I;
    destruct (bool_decide (_op i ∈ hasjrel T)); try exact I;
    destruct (bool_decide (_op i ∈ hasjabs T)); exact I.
Qed.

Lemma decode_loop_not_stuck ls code fuel :
  forall off lineno acc bs,
    len code - off <= Z.of_nat fuel ->
    not_stuck (decode_loop T fuel code ls off lineno acc bs).
Proof.
  induction fuel as [|fuel IH]; intros off lineno acc bs Hfuel; simpl.
  - destruct (Z.ltb_spec off (len code)); [lia|exact I].
  - destruct (Z.ltb_spec off (len code)); [|exact I].
    apply bind_not_stuck; [apply Instr_disassemble_not_stuck|].
    intros instr Hdis. apply Instr_disassemble_sound in Hdis.
    apply bind_not_stuck.
    { destruct (ls !! off); [|exact I].
      apply bind_not_stuck; [apply Instr_init_not_stuck|]. intros i' _. exact I. }
    intros [lineno' instr'] Hline.
    assert (Hdec : decoded_at code off instr').
    { destruct (ls !! off) as [l|].
      - apply bind_Ok in Hline as (i'' & Hinit & Hline).
        inversion Hline; subst. eapply decoded_at_lineno; eassumption.
      - inversion Hline; subst. exact Hdis. }
    apply bind_not_stuck; [apply get_jump_target_not_stuck|].
    intros target _. apply IH.
    destruct Hdec as (_ & _ & _ & Hwf & _).
    pose proof (Instr_wf_size_pos _ Hwf). lia.
Qed.

Lemma retarget_block_not_stuck bm st b : not_stuck (retarget_block T bm st b).
Proof.
  unfold retarget_block. destruct st as [o out].
  apply bind_not_stuck.
  - apply foldM_not_stuck. intros [o1 out1] i. unfold retarget_instr.
    apply bind_not_stuck; [apply get_jump_target_not_stuck|]. intros t _.
    apply bind_not_stuck; [|intros i' _; exact I].
    destruct t as [t|]; [|exact I].
    destruct (bm !! t); [apply Instr_init_not_stuck|exact I].
  - intros [o2 new] _. exact I.
Qed.

(** [disassemble] always ends: a graph or a Python exception.  An iteration
    of its first loop advances the offset by at least one byte, so the loop
    runs at most as many times as the stream has bytes; the other loops run
    over lists. *)
Theorem disassemble_ends (co : CodeType) (next : nat) :
  not_stuck (Code_disassemble T co next).
Proof.
  unfold Code_disassemble.
  apply bind_not_stuck.
  { apply decode_loop_not_stuck. unfold len. lia. }
  intros [instructions block_starts] _.
  apply bind_not_stuck.
  { unfold split_blocks. cbv zeta. case_bool_decide; exact I. }
  intros [[bs block_map] next'] _.
  apply bind_not_stuck.
  { apply foldM_not_stuck. intros st b. apply retarget_block_not_stuck. }
  intros [o bs'] _. exact I.
Qed.

End WithTable.

(** The graph of the specification's example: the relative jump [J] at
    offset 0, 37 one-byte instructions, and the target block at offset 40. *)
Definition example_jump : Instr := mkInstr 1 "J" (ArgLabel 1%nat) 3 10.

Definition example_blocks : list (Label * list Instr) :=
  [(0%nat, example_jump :: replicate 37 (mkInstr 1 "NOP" ArgNone 1 9));
   (1%nat, [mkInstr 2 "RET" ArgNone 1 83])].

Lemma assemble_resolves_jumps_example :
  exists co,
    assemble_blocks example_table (mkCodeType [] 1 []) example_blocks = Ok co
    /\ py_getitem (co_code co) 0 = Ok 10
    /\ operand_at (co_code co) 0 = Ok 37.
Proof.
  destruct (assemble_blocks example_table (mkCodeType [] 1 []) example_blocks)
    as [co|e] eqn:Hco; [|vm_compute in Hco; discriminate Hco].
  exists co. split; [reflexivity|].
  destruct (assemble_resolves_jumps example_table (mkCodeType [] 1 []) co
              example_blocks []
              (replicate 37 (mkInstr 1 "NOP" ArgNone 1 9)
               ++ [mkInstr 2 "RET" ArgNone 1 83])
              example_jump 1%nat)
    as (k & ins & t & Hk & Ht & Hsz & Hop & Hoperand).
  - repeat constructor.
  - exact Hco.
  - reflexivity.
  - reflexivity.
  - destruct k as [|[|k]]; simpl in Hk; try discriminate Hk.
    subst t. split; [exact Hop|]. exact Hoperand.
Defined.



(** ** Concrete graphs *)

Definition nop (lineno : Z) : Instr := mkInstr lineno "NOP" ArgNone 1 9.

Definition empty_code_obj : CodeType := mkCodeType [] 1 [].

(** Two one-byte instructions, the first on line 1 and the second on line
    300, in a code object whose first line is 1. *)
Definition far_lines_code : Code :=
  Code_init empty_code_obj 1 [mkBlock 0%nat [nop 1; nop 300]].

(** The same instructions, the first one on line 253. *)
Definition near_lines_code : Code :=
  Code_init empty_code_obj 1 [mkBlock 0%nat [nop 253; nop 300]].

(** Two blocks with equal instruction lists and the labels 0 and 1. *)
Definition twin_blocks_code : Code :=
  Code_init empty_code_obj 2
            [mkBlock 0%nat [nop 1; nop 1]; mkBlock 1%nat [nop 1; nop 1]].

(** A jump to the label of an empty last block. *)
Definition jump_to_end_code : Code :=
  Code_init empty_code_obj 2
            [mkBlock 0%nat [mkInstr 1 "JUMP_ABSOLUTE" (ArgLabel 1%nat) 3 113];
             mkBlock 1%nat []].

(** A graph of one empty block. *)
Definition empty_block_code : Code :=
  Code_init empty_code_obj 1 [mkBlock 0%nat []].

(** [EXTENDED_ARG 1] followed by [LOAD_CONST 2]. *)
Definition extended_arg_stream : CodeType :=
  mkCodeType [144; 1; 0; 100; 2; 0] 1 [].

(** C4.  The line table of [far_lines_code] is the two filler entries
    (0, 126) followed by (1, 47).  [dis.findlinestarts] reads it as line 253
    at offset 0, where the instruction was on line 1, so the disassembled
    graph has the first instruction on line 253.  The graph whose first
    instruction is on line 253 assembles to the same code object, so no
    decoder can tell the two apart. *)
Theorem lnotab_filler_moves_previous_line :
  exists co c',
    Code_assemble cpython_table far_lines_code = Ok co
    /\ co_code co = [9; 9]
    /\ co_lnotab co = [0; 126; 0; 126; 1; 47]
    /\ findlinestarts co = [(0, 253); (1, 300)]
    /\ Code_disassemble cpython_table co 2 = Ok c'
    /\ blocks_view c' = Ok [(2%nat, [nop 253; nop 300])]
    /\ Code_assemble cpython_table near_lines_code = Ok co.
Proof.
  eexists. eexists.
  split; [vm_compute; reflexivity|].
  split; [reflexivity|]. split; [reflexivity|].
  split; [vm_compute; reflexivity|].
  split; [vm_compute; reflexivity|].
  split; vm_compute; reflexivity.
Qed.

(** C5.  In [twin_blocks_code], splitting the block labelled 1 (the object
    3) at index 1 through its label truncates the block labelled 0 (the
    object 2) and inserts the new block after it; the block labelled 1 is
    left whole and the new block does not follow it. *)
Theorem create_label_by_label_splits_twin :
  exists c',
    create_label (ByLabel 1%nat) 1 twin_blocks_code = (Ok 4%nat, c')
    /\ _blocks twin_blocks_code = [2%nat; 3%nat]
    /\ _block_map twin_blocks_code !! 1%nat = Some 3%nat
    /\ _blocks c' = [2%nat; 5%nat; 3%nat]
    /\ heap c' !! 2%nat = Some (mkBlock 0%nat [nop 1])
    /\ heap c' !! 5%nat = Some (mkBlock 4%nat [nop 1])
    /\ heap c' !! 3%nat = Some (mkBlock 1%nat [nop 1; nop 1]).
Proof.
  eexists. split; [vm_compute; reflexivity|].
  repeat split; vm_compute; reflexivity.
Qed.

(** C6.  In [twin_blocks_code], asking for the label at index 0 of the block
    labelled 1 through its label returns the label 0, the label of the other
    block; the graph is unchanged. *)
Theorem create_label_by_label_zero_twin :
  create_label (ByLabel 1%nat) 0 twin_blocks_code = (Ok 0%nat, twin_blocks_code)
  /\ _block_map twin_blocks_code !! 1%nat = Some 3%nat
  /\ heap twin_blocks_code !! 3%nat = Some (mkBlock 1%nat [nop 1; nop 1]).
Proof. repeat split; vm_compute; reflexivity. Qed.

(** A loop: two blocks that jump to each other, forwards and backwards. *)
Definition loop_code : Code :=
  Code_init empty_code_obj 2
    [mkBlock 0%nat [mkInstr 1 "LOAD_CONST" (ArgInt 0) 3 100;
                    mkInstr 1 "POP_JUMP_IF_FALSE" (ArgLabel 1%nat) 3 114;
                    mkInstr 2 "JUMP_FORWARD" (ArgLabel 1%nat) 3 110];
     mkBlock 1%nat [mkInstr 3 "NOP" ArgNone 1 9;
                    mkInstr 3 "JUMP_ABSOLUTE" (ArgLabel 0%nat) 3 113;
                    mkInstr 4 "RETURN_VALUE" ArgNone 1 83]].

Lemma cpython_table_wf : table_wf cpython_table.
Proof.
  unfold table_wf. apply map_Forall_to_list.
  vm_compute. repeat constructor.
Qed.

Lemma valid_instr_intro (T : OpcodeTable) (i : Instr) :
  Instr_init T (_lineno i) (_name i) (_arg i) = Ok i ->
  (HAVE_ARGUMENT T <=? _op i) = negb (bool_decide (_arg i = ArgNone)) ->
  (is_jump T i = true -> exists l, _arg i = ArgLabel l) ->
  valid_instr T i.
Proof.
  intros Hwf Har Hj. split; [exact Hwf|]. split; [|exact Hj].
  destruct (Z.leb_spec (HAVE_ARGUMENT T) (_op i)); case_bool_decide;
    simpl in Har; try discriminate; split; intros; try lia; congruence.
Qed.

Ltac valid_instrs :=
  repeat first
    [ apply Forall_nil_2
    | apply Forall_cons_2;
      [ apply valid_instr_intro;
        [ vm_compute; reflexivity
        | vm_compute; reflexivity
        | first [ intros _; eexists; reflexivity
                | intros Hj; vm_compute in Hj; discriminate Hj ] ]
      | ] ].

(** The round trip of [loop_code]. *)
Lemma reassembly_is_identical_witness :
  exists c' co',
    Code_disassemble cpython_table
      (mkCodeType [100; 0; 0; 114; 9; 0; 110; 0; 0; 9; 113; 0; 0; 83] 1
                  [3; 0; 3; 1; 3; 1; 1; 0; 3; 1]) 4 = Ok c'
    /\ Code_assemble cpython_table c' = Ok co'
    /\ co_code co' = [100; 0; 0; 114; 9; 0; 110; 0; 0; 9; 113; 0; 0; 83].
Proof.
  apply (reassembly_is_identical cpython_table loop_code
           [(0%nat, [mkInstr 1 "LOAD_CONST" (ArgInt 0) 3 100;
                     mkInstr 1 "POP_JUMP_IF_FALSE" (ArgLabel 1%nat) 3 114;
                     mkInstr 2 "JUMP_FORWARD" (ArgLabel 1%nat) 3 110]);
            (1%nat, [mkInstr 3 "NOP" ArgNone 1 9;
                     mkInstr 3 "JUMP_ABSOLUTE" (ArgLabel 0%nat) 3 113;
                     mkInstr 4 "RETURN_VALUE" ArgNone 1 83])]).
  - exact cpython_table_wf.
  - vm_compute. reflexivity.
  - unfold valid_graph. simpl. valid_instrs.
  - intros i l t Hin _ Harg Hl. simpl in Hin.
    repeat (apply elem_of_cons in Hin as [->|Hin]);
      try (apply elem_of_nil in Hin; contradiction);
      simpl in Harg; try discriminate Harg; inversion Harg; subst l;
      vm_compute in Hl; inversion Hl; subst t; vm_compute; reflexivity.
  - vm_compute. reflexivity.
  - discriminate.
Defined.

(** C1, counterexample.  [jump_to_end_code] is a valid graph: its only
    instruction is a jump whose operand is the Label of the second block, a
    block of the graph.  It assembles to the three bytes of a jump to offset
    3, the end of the stream, and disassembling them raises [KeyError]: no
    block starts at offset 3.  The graph of one empty block assembles to the
    empty stream, on which [disassemble] fails its assertion. *)
Lemma reassembly_counterexample :
  valid_graph cpython_table
    [(0%nat, [mkInstr 1 "JUMP_ABSOLUTE" (ArgLabel 1%nat) 3 113]); (1%nat, [])]
  /\ blocks_view jump_to_end_code
     = Ok [(0%nat, [mkInstr 1 "JUMP_ABSOLUTE" (ArgLabel 1%nat) 3 113]); (1%nat, [])]
  /\ Code_assemble cpython_table jump_to_end_code
     = Ok (mkCodeType [113; 3; 0] 1 [])
  /\ Code_disassemble cpython_table (mkCodeType [113; 3; 0] 1 []) 4
     = Raise KeyError
  /\ Code_assemble cpython_table empty_block_code = Ok (mkCodeType [] 1 [])
  /\ Code_disassemble cpython_table (mkCodeType [] 1 []) 2
     = Raise AssertionError.
Proof.
  split; [unfold valid_graph; simpl; valid_instrs|].
  repeat split; vm_compute; reflexivity.
Qed.

(** The claim that no instruction of a disassembled graph is an
    extended-operand prefix. *)
Definition no_standalone_extended_arg (T : OpcodeTable) : Prop :=
  forall co next c blocks,
    Code_disassemble T co next = Ok c ->
    blocks_view c = Ok blocks ->
    Forall (fun i => _name i <> "EXTENDED_ARG"%string) (flat blocks).

(** C3, counterexample.  [extended_arg_stream] is the prefix
    [EXTENDED_ARG 1] followed by [LOAD_CONST 2], the encoding of
    [LOAD_CONST 65538].  [disassemble] returns a graph of two instructions:
    the prefix, standing alone with the operand 1, and [LOAD_CONST] with the
    operand 2. *)
Lemma extended_arg_counterexample :
  Code_disassemble cpython_table extended_arg_stream 0
  = Ok (Code_init extended_arg_stream 1
          [mkBlock 0%nat [mkInstr 1 "EXTENDED_ARG" (ArgInt 1) 3 144;
                          mkInstr 1 "LOAD_CONST" (ArgInt 2) 3 100]])
  /\ ~ no_standalone_extended_arg cpython_table.
Proof.
  assert (Hdis : Code_disassemble cpython_table extended_arg_stream 0
                 = Ok (Code_init extended_arg_stream 1
                         [mkBlock 0%nat [mkInstr 1 "EXTENDED_ARG" (ArgInt 1) 3 144;
                                         mkInstr 1 "LOAD_CONST" (ArgInt 2) 3 100]]))
    by (vm_compute; reflexivity).
  split; [exact Hdis|]. intros Hclaim.
  specialize (Hclaim _ _ _ _ Hdis (Code_init_view _ _ _)).
  apply Forall_inv in Hclaim. apply Hclaim. reflexivity.
Qed.

(** On [extended_arg_stream]: the prefix at offset 0 and [LOAD_CONST] at
    offset 3 are both instructions of the graph, each with its own operand. *)
Lemma disassemble_keeps_every_opcode_witness :
  kept_at cpython_table [144; 1; 0; 100; 2; 0] 0
          (mkInstr 1 "EXTENDED_ARG" (ArgInt 1) 3 144)
  /\ kept_at cpython_table [144; 1; 0; 100; 2; 0] 3
             (mkInstr 1 "LOAD_CONST" (ArgInt 2) 3 100).
Proof.
  destruct (disassemble_keeps_every_opcode cpython_table extended_arg_stream 0
              (Code_init extended_arg_stream 1
                 [mkBlock 0%nat [mkInstr 1 "EXTENDED_ARG" (ArgInt 1) 3 144;
                                 mkInstr 1 "LOAD_CONST" (ArgInt 2) 3 100]])
              [(0%nat, [mkInstr 1 "EXTENDED_ARG" (ArgInt 1) 3 144;
                        mkInstr 1 "LOAD_CONST" (ArgInt 2) 3 100])])
    as [_ Hall].
  - vm_compute. reflexivity.
  - vm_compute. reflexivity.
  - split.
    + exact (Hall [] _ [mkInstr 1 "LOAD_CONST" (ArgInt 2) 3 100] eq_refl).
    + exact (Hall [mkInstr 1 "EXTENDED_ARG" (ArgInt 1) 3 144] _ [] eq_refl).
Defined.

(** ** [create_label] on a block given by its position *)

(** The allocator is ahead of every object and label of the graph. *)
Definition Code_wf (c : Code) : Prop :=
  forall a b, heap c !! a = Some b ->
              (a < next_id c)%nat /\ (label b < next_id c)%nat.

Lemma Code_init_wf co next blocks :
  Forall (fun b => (label b < next + length blocks)%nat) blocks ->
  Code_wf (Code_init co next blocks).
Proof.
  intros Hlab a b Hab. unfold Code_init in *. cbn [heap next_id] in *.
  apply elem_of_list_to_map_2 in Hab.
  pose proof (elem_of_zip_l _ _ _ _ Hab) as Ha.
  pose proof (elem_of_zip_r _ _ _ _ Hab) as Hb.
  apply elem_of_seq in Ha. rewrite Forall_forall in Hlab.
  split; [lia|]. apply Hlab. first [apply elem_of_list_In | apply list_elem_of_In]. exact Hb.
Qed.

Lemma py_getitem_lookup {A} (l : list A) (i : Z) (x : A) :
  0 <= i -> l !! Z.to_nat i = Some x -> py_getitem l i = Ok x.
Proof.
  intros Hi Hx. unfold py_getitem. cbv zeta.
  assert (Hge : (i <? 0) = false) by (apply Z.ltb_ge; lia).
  rewrite !Hge, Hx. reflexivity.
Qed.

(** With the block given by its position, [create_label] at an index inside
    the block splits that block: it keeps its label and its first [index]
    instructions, the new block holds the rest under a label no block had,
    the new block follows it in [_blocks], and no other block changes. *)
Theorem create_label_by_index_splits (c : Code) (bi i : Z) (a : addr) (b : Block) :
  Code_wf c ->
  0 <= bi ->
  _blocks c !! Z.to_nat bi = Some a ->
  heap c !! a = Some b ->
  0 < i < len (instrs b) ->
  exists c',
    create_label (ByIndex bi) i c = (Ok (next_id c), c')
    /\ _blocks c' = take (S (Z.to_nat bi)) (_blocks c)
                    ++ S (next_id c) :: drop (S (Z.to_nat bi)) (_blocks c)
    /\ heap c' !! a = Some (mkBlock (label b) (take (Z.to_nat i) (instrs b)))
    /\ heap c' !! S (next_id c)
       = Some (mkBlock (next_id c) (drop (Z.to_nat i) (instrs b)))
    /\ take (Z.to_nat i) (instrs b) ++ drop (Z.to_nat i) (instrs b) = instrs b
    /\ _block_map c' = <[next_id c := S (next_id c)]> (_block_map c)
    /\ (forall a' b', heap c !! a' = Some b' -> label b' <> next_id c)
    /\ (forall a', a' <> a -> a' <> S (next_id c) ->
                   heap c' !! a' = heap c !! a').
Proof.
  intros Hwf Hbi Ha Hb Hi. unfold create_label.
  assert (Hneg : (bi <? 0) = false) by (apply Z.ltb_ge; lia).
  assert (Hineg : (i <? 0) = false) by (apply Z.ltb_ge; lia).
  assert (Hizero : (i =? 0) = false) by (apply Z.eqb_neq; lia).
  rewrite Hneg, Hineg, (py_getitem_lookup _ _ _ Hbi Ha), Hb, Hizero.
  unfold py_slice_from, py_del_from, py_insert, py_slice_start.
  assert (Hbi1 : (bi + 1 <? 0) = false) by (apply Z.ltb_ge; lia).
  rewrite Hineg, Hbi1.
  replace (Z.to_nat (bi + 1)) with (S (Z.to_nat bi)) by lia.
  destruct (drop (Z.to_nat i) (instrs b)) as [|x rest] eqn:Hdrop.
  { exfalso. apply (f_equal length) in Hdrop. rewrite length_drop in Hdrop.
    unfold len in Hi. simpl in Hdrop. lia. }
  destruct (Hwf a b Hb) as [Halt _].
  eexists. split; [reflexivity|]. cbn [_blocks heap _block_map].
  split; [reflexivity|].
  split; [apply lookup_insert_eq|].
  split; [rewrite lookup_insert_ne by lia; apply lookup_insert_eq|].
  split; [rewrite <- Hdrop; apply take_drop|].
  split; [reflexivity|].
  split.
  - intros a' b' Hb'. destruct (Hwf a' b' Hb'). lia.
  - intros a' Hne1 Hne2. rewrite !lookup_insert_ne by congruence. reflexivity.
Qed.

Lemma create_label_by_index_splits_example :
  exists c',
    create_label (ByIndex 1) 1 twin_blocks_code = (Ok 4%nat, c')
    /\ _blocks c' = [2%nat; 3%nat; 5%nat]
    /\ heap c' !! 3%nat = Some (mkBlock 1%nat [nop 1])
    /\ heap c' !! 5%nat = Some (mkBlock 4%nat [nop 1]).
Proof.
  destruct (create_label_by_index_splits twin_blocks_code 1 1 3%nat
              (mkBlock 1%nat [nop 1; nop 1]))
    as (c' & Hc & Hbs & Hfirst & Hsecond & _).
  - apply Code_init_wf. repeat constructor.
  - lia.
  - reflexivity.
  - vm_compute. reflexivity.
  - unfold len. simpl. lia.
  - exists c'. split; [exact Hc|]. split; [exact Hbs|].
    split; [exact Hfirst|exact Hsecond].
Defined.

(** With the block given by its position, index 0 returns the label of that
    block and changes nothing. *)
Theorem create_label_by_index_zero (c : Code) (bi : Z) (a : addr) (b : Block) :
  0 <= bi ->
  _blocks c !! Z.to_nat bi = Some a ->
  heap c !! a = Some b ->
  create_label (ByIndex bi) 0 c = (Ok (label b), c).
Proof.
  intros Hbi Ha Hb. unfold create_label.
  assert (Hneg : (bi <? 0) = false) by (apply Z.ltb_ge; lia).
  rewrite Hneg. simpl. rewrite (py_getitem_lookup _ _ _ Hbi Ha), Hb.
  reflexivity.
Qed.

Lemma create_label_by_index_zero_example :
  create_label (ByIndex 1) 0 twin_blocks_code = (Ok 1%nat, twin_blocks_code).
Proof.
  apply (create_label_by_index_zero twin_blocks_code 1 3%nat
           (mkBlock 1%nat [nop 1; nop 1])).
  - lia.
  - reflexivity.
  - vm_compute. reflexivity.
Defined.

End BytecodeFacts.

(** * Part IV: properties of [bytecode/instr.py] *)

Module InstrFacts.

Import InstrPy.

(** ** What the operand check promises, in the words of the specification *)

Definition is_label_or_block (a : PyVal) : Prop :=
  match a with PyLabel _ | PyBasicBlock _ => True | _ => False end.

Definition is_cell_or_free (a : PyVal) : Prop :=
  match a with PyCellVar _ | PyFreeVar _ => True | _ => False end.

Definition is_str (a : PyVal) : Prop :=
  match a with PyStr _ => True | _ => False end.

(** The composite operand of the dual-purpose load: a flag and a name. *)
Definition is_flag_and_name (a : PyVal) : Prop :=
  match a with PyTuple [PyBool _; PyStr _] => True | _ => False end.

Definition is_compare (a : PyVal) : Prop :=
  match a with PyCompare _ => True | _ => False end.

Definition is_bounded_int (a : PyVal) : Prop :=
  isinstance_int a = true /\ 0 <= int_value a <= 2147483647.

Section Categories.

Variable E : Env.

Definition in_jump (o : Z) : Prop := o ∈ hasjrel (table E) \/ o ∈ hasjabs (table E).
Definition in_free (o : Z) : Prop := o ∈ hasfree (table E).
Definition in_name (o : Z) : Prop := o ∈ haslocal (table E) \/ o ∈ hasname (table E).
Definition in_const (o : Z) : Prop := o ∈ hasconst (table E).
Definition in_compare (o : Z) : Prop := o ∈ hascompare (table E).

(** The operand's tag matches the category the tables declare for the opcode.
    An opcode listed in several tables has the category of the first one in
    the order jump, free variable, name or local, constant, comparison; an
    opcode in none that takes an argument has a bounded integer. *)
Definition operand_matches (name : string) (o : Z) (a : PyVal) : Prop :=
  (in_jump o -> is_label_or_block a)
  /\ (~ in_jump o -> in_free o -> is_cell_or_free a)
  /\ (~ in_jump o -> ~ in_free o -> in_name o ->
      if py311 E && bool_decide (name = "LOAD_GLOBAL")
      then is_flag_and_name a else is_str a)
  /\ (~ in_jump o -> ~ in_free o -> ~ in_name o -> ~ in_const o ->
      in_compare o -> is_compare a)
  /\ (~ in_jump o -> ~ in_free o -> ~ in_name o -> ~ in_const o ->
      ~ in_compare o -> HAVE_ARGUMENT (table E) <= o -> is_bounded_int a).

(** An operand is present exactly when the opcode takes one. *)
Definition arity_ok (o : Z) (a : PyVal) : Prop :=
  HAVE_ARGUMENT (table E) <= o <-> a <> UNSET.

Ltac split5 := split; [|split; [|split; [|split]]].

Ltac category_clash :=
  first [ tauto
        | lia
        | unfold in_free, in_name, in_const, in_compare in *; tauto ].

Lemma has_jump_true o : _has_jump E o = true <-> in_jump o.
Proof.
  unfold _has_jump, in_jump. rewrite orb_true_iff, !bool_decide_eq_true. tauto.
Qed.

Lemma has_jump_false o : _has_jump E o = false <-> ~ in_jump o.
Proof.
  rewrite <- has_jump_true. destruct (_has_jump E o); split; intros; congruence.
Qed.

Lemma check_arg_arity name o a :
  _check_arg E name o a = Ok tt -> arity_ok o a.
Proof.
  unfold _check_arg, arity_ok. case_bool_decide as Hext; [discriminate|].
  intros H. apply bind_Ok in H as ([] & H & _). revert H.
  destruct (Z.leb_spec (HAVE_ARGUMENT (table E)) o) as [Hle|Hlt].
  - destruct a; simpl; try discriminate; intros _; split; intros; try lia; congruence.
  - destruct a; simpl; try discriminate; intros _; split; intros; try lia; congruence.
Qed.

Lemma check_arg_sound name o a :
  _check_arg E name o a = Ok tt -> operand_matches name o a.
Proof.
  unfold _check_arg, operand_matches. case_bool_decide as Hext; [discriminate|].
  intros H. apply bind_Ok in H as ([] & _ & H). revert H.
  destruct (_has_jump E o) eqn:Hj.
  { apply has_jump_true in Hj. intros H. split5; intros; try category_clash.
    destruct a; simpl in *; try discriminate; exact I. }
  apply has_jump_false in Hj.
  case_bool_decide as Hf.
  { intros H. split5; intros; try category_clash.
    destruct a; simpl in *; try discriminate; exact I. }
  destruct (bool_decide (o ∈ haslocal (table E)) || bool_decide (o ∈ hasname (table E)))
    eqn:Hn.
  { apply orb_true_iff in Hn. rewrite !bool_decide_eq_true in Hn.
    intros H. split5; intros; try category_clash.
    destruct (py311 E && bool_decide (name = "LOAD_GLOBAL")).
    - destruct a as [| | | | |items| | | | | |]; try discriminate.
      destruct items as [|[] [|[] [|]]]; try discriminate. exact I.
    - destruct a; try discriminate. exact I. }
  apply orb_false_iff in Hn. rewrite !bool_decide_eq_false in Hn.
  case_bool_decide as Hc.
  { intros H. split5; intros; category_clash. }
  case_bool_decide as Hcmp.
  { intros H. split5; intros; try category_clash.
    destruct a; try discriminate. exact I. }
  destruct (Z.leb_spec (HAVE_ARGUMENT (table E)) o) as [Hle|Hlt].
  - unfold _check_arg_int, is_bounded_int. intros H.
    split5; intros; try category_clash.
    destruct (isinstance_int a); simpl in H; [|discriminate].
    destruct (0 <=? int_value a) eqn:Hlo; simpl in H; [|discriminate].
    destruct (int_value a <=? 2147483647) eqn:Hhi; simpl in H; [|discriminate].
    split; [reflexivity | lia].
  - intros _. split5; intros; category_clash.
Qed.

(** [_set] either raises and assigns nothing, or assigns the three slots to
    a name, its opcode and an argument that passed [_check_arg]. *)
Lemma set_spec name arg s :
  (exists e, _set E name arg s = (Raise e, s))
  \/ (exists n o, name = PyStr n
        /\ opmap (table E) !! n = Some o
        /\ _check_arg E n o arg = Ok tt
        /\ _set E name arg s = (Ok tt, mkBaseInstr n o arg (_location s))).
Proof.
  destruct name as [| | | |n| | | | | | |]; try (left; eexists; reflexivity).
  unfold _set. destruct (opmap (table E) !! n) as [o|] eqn:Hop;
    [|left; eexists; reflexivity].
  destruct (_check_arg E n o arg) as [[]|e] eqn:Hck.
  - right. exists n, o. repeat split; assumption.
  - left. exists e. reflexivity.
Qed.

(** The four public ways of changing an instruction in place. *)
Inductive Mutation : Type :=
| MutSet (name arg : PyVal)
| MutName (name : PyVal)
| MutOpcode (op : PyVal)
| MutArg (arg : PyVal).

Definition mutate (m : Mutation) : M unit :=
  match m with
  | MutSet name arg => set E name arg
  | MutName name => name_setter E name
  | MutOpcode op => opcode_setter E op
  | MutArg arg => arg_setter E arg
  end.

(** The operand check in full: the tag matches the opcode's category, and the
    operand of a constant opcode (one that is no jump, free-variable, name or
    local opcode) is any object but a Label or a block. *)
Definition operand_accepted (name : string) (o : Z) (a : PyVal) : Prop :=
  operand_matches name o a
  /\ (~ in_jump o -> ~ in_free o -> ~ in_name o -> in_const o ->
      ~ is_label_or_block a).

(** The location arguments the constructor accepts: a location object, no
    line number, the line number [None], or one from the smallest valid line
    number on. *)
Definition lineno_accepted (lineno : LinenoArg) (location : option InstrLocation)
  : Prop :=
  match location, lineno with
  | None, LinenoVal (Some v) => (if py311 E then 0 else 1) <= v
  | _, _ => True
  end.

(** What the constructor accepts. *)
Definition init_accepts (name arg : PyVal) (lineno : LinenoArg)
    (location : option InstrLocation) : Prop :=
  exists n o,
    name = PyStr n
    /\ opmap (table E) !! n = Some o
    /\ n <> "EXTENDED_ARG"
    /\ arity_ok o arg
    /\ operand_accepted n o arg
    /\ lineno_accepted lineno location.

Lemma check_arg_raises name o a e :
  _check_arg E name o a = Raise e -> e = TypeError \/ e = ValueError.
Proof.
  unfold _check_arg, _check_arg_int.
  repeat first
    [ progress cbn [mbind result_bind negb]
    | match goal with
      | |- context [bool_decide ?P] => destruct (bool_decide P)
      | |- context [_has_jump E ?o] => destruct (_has_jump E o)
      | |- context [?a <=? ?b] => destruct (a <=? b)
      | |- context [isinstance_int ?a] => destruct (isinstance_int a)
      | |- context [py311 E] => destruct (py311 E)
      | |- context [match ?a with UNSET => _ | _ => _ end] => destruct a
      | |- context [match ?l with [] => _ | _ :: _ => _ end] => destruct l
      | |- context [andb _ _] => progress cbn [andb orb]
      end ];
    intros H; try discriminate H; injection H as <-; auto.
Qed.

Lemma check_arg_complete name o a :
  name <> "EXTENDED_ARG" -> arity_ok o a -> operand_accepted name o a ->
  _check_arg E name o a = Ok tt.
Proof.
  intros Hext Har [(Hjump & Hfree & Hname & Hcmp & Hint) Hconst].
  unfold _check_arg. rewrite bool_decide_eq_false_2 by exact Hext.
  assert (Hfirst :
    (if HAVE_ARGUMENT (table E) <=? o
     then match a with UNSET => Raise ValueError | _ => Ok tt end
     else match a with UNSET => Ok tt | _ => Raise ValueError end) = Ok tt).
  { unfold arity_ok in Har.
    destruct (Z.leb_spec (HAVE_ARGUMENT (table E)) o) as [Hle|Hlt].
    - destruct a; try reflexivity. exfalso. apply (proj1 Har Hle). reflexivity.
    - destruct a; try reflexivity; exfalso;
        assert (HAVE_ARGUMENT (table E) <= o) by (apply Har; discriminate); lia. }
  rewrite Hfirst. cbn [mbind result_bind].
  destruct (_has_jump E o) eqn:Hj.
  { apply has_jump_true in Hj. specialize (Hjump Hj).
    destruct a; try contradiction; reflexivity. }
  apply has_jump_false in Hj.
  destruct (bool_decide (o ∈ hasfree (table E))) eqn:Hf.
  { apply bool_decide_eq_true in Hf. specialize (Hfree Hj Hf).
    destruct a; try contradiction; reflexivity. }
  apply bool_decide_eq_false in Hf.
  destruct (bool_decide (o ∈ haslocal (table E)) || bool_decide (o ∈ hasname (table E)))
    eqn:Hn.
  { apply orb_true_iff in Hn. rewrite !bool_decide_eq_true in Hn.
    specialize (Hname Hj Hf Hn).
    destruct (py311 E && bool_decide (name = "LOAD_GLOBAL")).
    - destruct a as [| | | | |items| | | | | |]; try contradiction.
      destruct items as [|[] [|[] [|]]]; try contradiction. reflexivity.
    - destruct a; try contradiction. reflexivity. }
  apply orb_false_iff in Hn. rewrite !bool_decide_eq_false in Hn.
  assert (Hnn : ~ in_name o) by (unfold in_name; tauto).
  destruct (bool_decide (o ∈ hasconst (table E))) eqn:Hc.
  { apply bool_decide_eq_true in Hc. specialize (Hconst Hj Hf Hnn Hc).
    destruct a; try reflexivity; exfalso; apply Hconst; exact I. }
  apply bool_decide_eq_false in Hc.
  destruct (bool_decide (o ∈ hascompare (table E))) eqn:Hcm.
  { apply bool_decide_eq_true in Hcm. specialize (Hcmp Hj Hf Hnn Hc Hcm).
    destruct a; try contradiction. reflexivity. }
  apply bool_decide_eq_false in Hcm.
  destruct (Z.leb_spec (HAVE_ARGUMENT (table E)) o) as [Hle|Hlt]; [|reflexivity].
  destruct (Hint Hj Hf Hnn Hc Hcm Hle) as [Hi Hr].
  unfold _check_arg_int. rewrite Hi. cbn [negb].
  replace (0 <=? int_value a) with true by (symmetry; apply Z.leb_le; lia).
  replace (int_value a <=? 2147483647) with true by (symmetry; apply Z.leb_le; lia).
  reflexivity.
Qed.

Lemma check_arg_const name o a :
  _check_arg E name o a = Ok tt ->
  ~ in_jump o -> ~ in_free o -> ~ in_name o -> in_const o ->
  ~ is_label_or_block a.
Proof.
  unfold _check_arg. case_bool_decide as Hext; [discriminate|].
  intros H Hj Hf Hn Hc. apply bind_Ok in H as ([] & _ & H). revert H.
  apply has_jump_false in Hj. rewrite Hj.
  rewrite (bool_decide_eq_false_2 _ Hf).
  assert (Hn' : bool_decide (o ∈ haslocal (table E))
                || bool_decide (o ∈ hasname (table E)) = false).
  { apply orb_false_iff. rewrite !bool_decide_eq_false. unfold in_name in Hn. tauto. }
  rewrite Hn'. rewrite (bool_decide_eq_true_2 _ Hc).
  destruct a; simpl; intros H; try discriminate H; tauto.
Qed.

Lemma check_arg_name name o a :
  _check_arg E name o a = Ok tt -> name <> "EXTENDED_ARG".
Proof.
  unfold _check_arg. case_bool_decide as Hext; [discriminate|]. intros _. exact Hext.
Qed.

Lemma location_init_line v :
  (lineno_accepted (LinenoVal v) None
   /\ InstrLocation_init E v None None None = Ok (mkLocation v None None None))
  \/ (~ lineno_accepted (LinenoVal v) None
      /\ InstrLocation_init E v None None None = Raise ValueError).
Proof.
  unfold InstrLocation_init, lineno_accepted, _check_location.
  destruct v as [l|]; [|left; split; [exact I|reflexivity]].
  destruct (Z.ltb_spec l (if py311 E then 0 else 1)).
  - right. split; [lia|reflexivity].
  - left. split; [lia|reflexivity].
Qed.

(** C7, amended.  The constructor returns an instruction exactly when it
    accepts its arguments: the name is a string of the opcode table other
    than EXTENDED_ARG, an operand is present exactly when the opcode takes
    one, the operand's tag matches the opcode's category (a Label or block
    for a jump; a CellVar or FreeVar for a free-variable opcode; a string for
    a name or local opcode, but the flag-and-name pair for LOAD_GLOBAL from
    Python 3.11 on; anything but a Label or block for a constant opcode; a
    Compare for a comparison; an integer in 0..2147483647 for an opcode of no
    category that takes an operand), and the line number, if one is given
    without a location, is valid.  The instruction then holds the name, its
    opcode and the operand.  Otherwise the constructor raises TypeError or
    ValueError. *)
Theorem Instr_init_checks_operand name arg lineno location :
  (exists e, Instr_init E name arg lineno location = Raise e
     /\ (e = TypeError \/ e = ValueError)
     /\ ~ init_accepts name arg lineno location)
  \/ (exists s n, Instr_init E name arg lineno location = Ok s
        /\ init_accepts name arg lineno location
        /\ name = PyStr n /\ _name s = n /\ _arg s = arg
        /\ opmap (table E) !! n = Some (_opcode s)
        /\ arity_ok (_opcode s) arg
        /\ operand_accepted n (_opcode s) arg).
Proof.
  destruct name as [| | | |n| | | | | | |];
    try (left; exists TypeError; split; [reflexivity|]; split; [auto|];
         intros (n' & o' & Hn & _); discriminate Hn).
  destruct (opmap (table E) !! n) as [o|] eqn:Hop.
  2:{ left. exists ValueError. split.
      - unfold Instr_init, mbind, M_mbind, M_bind, _set. rewrite Hop. reflexivity.
      - split; [auto|]. intros (n' & o & Hn & Hop' & _).
        injection Hn as <-. congruence. }
  destruct (_check_arg E n o arg) as [[]|e] eqn:Hck.
  2:{ left. exists e. split.
      - unfold Instr_init, mbind, M_mbind, M_bind, _set, M_lift.
        rewrite Hop, Hck. reflexivity.
      - split; [eapply check_arg_raises; exact Hck|].
        intros (n' & o' & Hn & Hop' & Hext & Har & Hacc & _).
        injection Hn as <-. rewrite Hop in Hop'. injection Hop' as <-.
        rewrite (check_arg_complete _ _ _ Hext Har Hacc) in Hck.
        discriminate Hck. }
  assert (Hset : _set E (PyStr n) arg blank = (Ok tt, mkBaseInstr n o arg None)).
  { unfold _set, mbind, M_mbind, M_bind, M_lift. rewrite Hop, Hck. reflexivity. }
  assert (Hacc : operand_accepted n o arg).
  { split; [apply check_arg_sound; exact Hck|eapply check_arg_const; exact Hck]. }
  pose proof (check_arg_arity _ _ _ Hck) as Har.
  pose proof (check_arg_name _ _ _ Hck) as Hext.
  assert (Hyes : forall loc,
            lineno_accepted lineno location ->
            Instr_init E (PyStr n) arg lineno location
            = Ok (mkBaseInstr n o arg loc) ->
            exists s n0,
              Instr_init E (PyStr n) arg lineno location = Ok s
              /\ init_accepts (PyStr n) arg lineno location
              /\ PyStr n = PyStr n0 /\ _name s = n0 /\ _arg s = arg
              /\ opmap (table E) !! n0 = Some (_opcode s)
              /\ arity_ok (_opcode s) arg
              /\ operand_accepted n0 (_opcode s) arg).
  { intros loc Hl Hi. exists (mkBaseInstr n o arg loc), n.
    split; [exact Hi|]. split; [exists n, o; auto 10|]. simpl. auto 10. }
  destruct location as [loc|]; [|destruct lineno as [|v]].
  - right. apply (Hyes (Some loc)); [exact I|].
    unfold Instr_init, mbind, M_mbind, M_bind. rewrite Hset. reflexivity.
  - right. apply (Hyes None); [exact I|].
    unfold Instr_init, mbind, M_mbind, M_bind. rewrite Hset. reflexivity.
  - destruct (location_init_line v) as [[Hl Hi]|[Hl Hi]].
    + right. apply (Hyes (Some (mkLocation v None None None))); [exact Hl|].
      unfold Instr_init, mbind, M_mbind, M_bind, M_lift. rewrite Hset, Hi.
      reflexivity.
    + left. exists ValueError. split.
      * unfold Instr_init, mbind, M_mbind, M_bind, M_lift. rewrite Hset, Hi.
        reflexivity.
      * split; [auto|].
        intros (n' & o' & _ & _ & _ & _ & _ & Hl'). contradiction.
Qed.

(** C10.  Each mutator ([set] and the setters of [name], [opcode] and [arg])
    either raises and leaves the instruction exactly as it was, or returns
    with the three slots holding a name of the opcode table, its opcode and an
    operand that passes the check for that opcode, so that the operand
    matches the opcode's category; the location is untouched. *)
Theorem mutation_checks_before_assigning (m : Mutation) (s : BaseInstr) :
  (exists e, mutate m s = (Raise e, s))
  \/ (exists s', mutate m s = (Ok tt, s')
        /\ opmap (table E) !! _name s' = Some (_opcode s')
        /\ _check_arg E (_name s') (_opcode s') (_arg s') = Ok tt
        /\ arity_ok (_opcode s') (_arg s')
        /\ operand_matches (_name s') (_opcode s') (_arg s')
        /\ _location s' = _location s).
Proof.
  assert (Hset : forall name arg,
    (exists e, _set E name arg s = (Raise e, s))
    \/ (exists s', _set E name arg s = (Ok tt, s')
          /\ opmap (table E) !! _name s' = Some (_opcode s')
          /\ _check_arg E (_name s') (_opcode s') (_arg s') = Ok tt
          /\ arity_ok (_opcode s') (_arg s')
          /\ operand_matches (_name s') (_opcode s') (_arg s')
          /\ _location s' = _location s)).
  { intros name arg.
    destruct (set_spec name arg s) as [He|(n & o & Hn & Hop & Hck & Hs)];
      [left; exact He|].
    right. eexists. split; [exact Hs|]. simpl.
    split; [assumption|]. split; [assumption|].
    split; [eapply check_arg_arity; eassumption|].
    split; [apply check_arg_sound; assumption | reflexivity]. }
  destruct m as [name arg|name|op|arg]; simpl.
  - apply Hset.
  - unfold name_setter, mbind, M_mbind, M_bind, M_get. apply Hset.
  - unfold opcode_setter.
    destruct (isinstance_int op); simpl; [|left; eexists; reflexivity].
    unfold mbind, M_mbind, M_bind.
    destruct ((0 <=? int_value op) && (int_value op <=? 255)).
    + unfold M_lift.
      destruct (py_getitem (opname (table E)) (int_value op)) as [nm|e];
        [|left; eexists; reflexivity].
      unfold M_ret. simpl.
      destruct (negb (bool_decide (nm = _))); simpl;
        [|left; eexists; reflexivity].
      exact (Hset (PyStr nm) (_arg s)).
    + unfold M_ret. simpl. left. eexists. reflexivity.
  - unfold arg_setter, mbind, M_mbind, M_bind, M_get. apply Hset.
Qed.

End Categories.

(** A fragment of CPython 3.11's [opcode] module: no jump, free-variable or
    comparison opcode is in it. *)
Definition cpython311_defs : list (string * Z) :=
  [("POP_TOP", 1); ("NOP", 9); ("RETURN_VALUE", 83); ("STORE_NAME", 90);
   ("LOAD_CONST", 100); ("LOAD_NAME", 101); ("LOAD_GLOBAL", 116);
   ("LOAD_FAST", 124); ("STORE_FAST", 125)].

Definition cpython311_table : OpcodeTable := {|
  opmap := opmap_of_defs cpython311_defs;
  opname := opname_of_defs cpython311_defs;
  HAVE_ARGUMENT := 90;
  hasjrel := [];
  hasjabs := [];
  hasfree := [];
  haslocal := [124; 125];
  hasname := [90; 101; 116];
  hasconst := [100];
  hascompare := [];
|}.

(** CPython 3.11's [dis.stack_effect] on these opcodes; the low bit of the
    operand of [LOAD_GLOBAL] says whether a NULL is pushed with the value. *)
Definition cpython311_stack_effect (opcode : Z) (oparg : option Z)
    (jump : option bool) : result Z :=
  match oparg with
  | None =>
      if 90 <=? opcode then Raise ValueError
      else if opcode =? 9 then Ok 0
      else if (opcode =? 1) || (opcode =? 83) then Ok (-1)
      else Raise ValueError
  | Some n =>
      if opcode <? 90 then Raise ValueError
      else if (opcode =? 90) || (opcode =? 125) then Ok (-1)
      else if (opcode =? 100) || (opcode =? 101) || (opcode =? 124) then Ok 1
      else if opcode =? 116 then Ok (Z.land n 1 + 1)
      else Raise ValueError
  end.

Definition cpython311_env : Env := {|
  table := cpython311_table;
  py311 := true;
  dis_stack_effect := cpython311_stack_effect;
|}.

(** The statement of C7 about name and local opcodes: construction fails
    unless the operand is a string. *)
Definition name_operand_claim (E : Env) : Prop :=
  forall n o arg lineno location s,
    opmap (table E) !! n = Some o ->
    ~ in_jump E o -> ~ in_free E o -> in_name E o ->
    Instr_init E (PyStr n) arg lineno location = Ok s ->
    is_str arg.

(** C7, counterexample.  On Python 3.11 the constructor accepts the pair
    [(True, "print")] as the operand of [LOAD_GLOBAL], a name opcode, and
    raises TypeError on the string ["print"]. *)
Lemma load_global_counterexample :
  Instr_init cpython311_env (PyStr "LOAD_GLOBAL")
    (PyTuple [PyBool true; PyStr "print"]) LinenoUnset None
  = Ok (mkBaseInstr "LOAD_GLOBAL" 116 (PyTuple [PyBool true; PyStr "print"]) None)
  /\ Instr_init cpython311_env (PyStr "LOAD_GLOBAL") (PyStr "print")
       LinenoUnset None
     = Raise TypeError
  /\ ~ name_operand_claim cpython311_env.
Proof.
  assert (H1 : Instr_init cpython311_env (PyStr "LOAD_GLOBAL")
                 (PyTuple [PyBool true; PyStr "print"]) LinenoUnset None
               = Ok (mkBaseInstr "LOAD_GLOBAL" 116
                       (PyTuple [PyBool true; PyStr "print"]) None))
    by (vm_compute; reflexivity).
  split; [exact H1|]. split; [vm_compute; reflexivity|].
  intros H.
  apply (H "LOAD_GLOBAL" 116 (PyTuple [PyBool true; PyStr "print"])
           LinenoUnset None _) in H1.
  - exact H1.
  - vm_compute. reflexivity.
  - unfold in_jump. simpl. intros [Hin|Hin]; inversion Hin.
  - unfold in_free. simpl. intros Hin; inversion Hin.
  - unfold in_name. right. simpl. set_solver.
Qed.

(** ** Stack effects *)





Section Effects.

Variable E : Env.





End Effects.

(** The instruction [FOR_ITER] of [cpython_table], as the constructor builds
    it for a jump to label 0. *)
Definition for_iter : BaseInstr := mkBaseInstr "FOR_ITER" 93 (PyLabel 0%nat) None.





(** The statement of C8 for one instruction: with the two directed effects
    [t] and [n], direction [None] is an error when they differ and returns
    the common value when they agree. *)
Definition none_direction_claim (E : Env) (s : BaseInstr) : Prop :=
  forall t n,
    stack_effect E (Some true) s = Ok t ->
    stack_effect E (Some false) s = Ok n ->
    (t <> n -> exists e, stack_effect E None s = Raise e)
    /\ (t = n -> stack_effect E None s = Ok t).

(** An effect function that answers direction [None] with the larger of the
    two directed effects, as CPython documents [dis.stack_effect]. *)
Definition none_is_maximum (f : Z -> option Z -> option bool -> result Z) : Prop :=
  forall op oparg t n,
    f op oparg (Some true) = Ok t ->
    f op oparg (Some false) = Ok n ->
    f op oparg None = Ok (Z.max t n).

Lemma cpython_none_is_maximum : none_is_maximum cpython_stack_effect.
Proof.
  intros op oparg t n. unfold cpython_stack_effect.
  destruct oparg as [v|]; repeat case_match; intros Ht Hn;
    try discriminate; inversion Ht; inversion Hn; subst; f_equal; lia.
Qed.

(** The part of [stack_effect] that precedes the call of [dis.stack_effect]
    does not read the direction. *)
Lemma stack_effect_forwards (E : Env) (s : BaseInstr) :
  (exists e, forall jump, stack_effect E jump s = Raise e)
  \/ (exists oparg, forall jump,
        stack_effect E jump s = dis_stack_effect E (_opcode s) oparg jump).
Proof.
  unfold stack_effect.
  match goal with
  | |- context [mbind _ ?m] => destruct m as [a|e] eqn:Ha
  end; [|left; exists e; reflexivity].
  simpl.
  match goal with
  | |- context [mbind _ ?m] => destruct m as [oparg|e] eqn:Ho
  end; [|left; exists e; reflexivity].
  right. exists oparg. reflexivity.
Qed.

(** C8, counterexample.  With CPython's effect function, [FOR_ITER] has the
    effect -1 when the jump is taken and 1 when it is not, and direction
    [None] returns 1: no error. *)
Lemma none_direction_counterexample :
  stack_effect cpython_env (Some true) for_iter = Ok (-1)
  /\ stack_effect cpython_env (Some false) for_iter = Ok 1
  /\ stack_effect cpython_env None for_iter = Ok 1
  /\ ~ none_direction_claim cpython_env for_iter.
Proof.
  split; [reflexivity|]. split; [reflexivity|]. split; [reflexivity|].
  intros H. destruct (H (-1) 1 eq_refl eq_refl) as [Herr _].
  destruct Herr as [e He]; [lia|]. discriminate He.
Qed.

(** C8, amended.  [stack_effect] passes the branch direction unchanged to
    the instruction set's effect function and raises no error of its own
    that depends on the direction: either it raises the same exception for
    every direction, before the effect function is called, or it returns,
    for every direction, what the effect function returns for the opcode,
    one operand and that very direction.  Hence, when the effect function
    answers [None] with the maximum of the two directions, so does
    [stack_effect]: the larger effect when they differ, the common one when
    they agree. *)
Theorem stack_effect_none_is_maximum (E : Env) (s : BaseInstr) :
  ((exists e, forall jump, stack_effect E jump s = Raise e)
   \/ (exists oparg, forall jump,
         stack_effect E jump s = dis_stack_effect E (_opcode s) oparg jump))
  /\ (none_is_maximum (dis_stack_effect E) ->
      forall t n,
        stack_effect E (Some true) s = Ok t ->
        stack_effect E (Some false) s = Ok n ->
        stack_effect E None s = Ok (Z.max t n)
        /\ (t = n -> stack_effect E None s = Ok t)).
Proof.
  split; [apply stack_effect_forwards|].
  intros Hmax t n Ht Hn.
  assert (Hnone : stack_effect E None s = Ok (Z.max t n)).
  { destruct (stack_effect_forwards E s) as [[e He]|[oparg Ho]].
    - rewrite He in Ht. discriminate.
    - rewrite Ho in *. apply Hmax; assumption. }
  split; [exact Hnone|]. intros ->. rewrite Hnone. f_equal. lia.
Qed.

Lemma stack_effect_none_is_maximum_witness :
  stack_effect cpython_env None for_iter = Ok (Z.max (-1) 1)
  /\ (-1 = 1 -> stack_effect cpython_env None for_iter = Ok (-1)).
Proof.
  apply (proj2 (stack_effect_none_is_maximum cpython_env for_iter)
           cpython_none_is_maximum (-1) 1).
  - reflexivity.
  - reflexivity.
Defined.







End InstrFacts.

(** * Part V: further functions and properties of [bytecode.py] *)

Module BytecodeMore.

Import Bytecode BytecodeFacts.

(** ** The container methods of [Code] *)

(** [Code.__len__] *)
Definition Code_len (c : Code) : Z := len (_blocks c).

(** [Code.__getitem__]: a [Label] is looked up in [_block_map], anything
    else indexes the list [_blocks].  The result is the block object; its
    state is read from the heap. *)
Definition Code_getitem (c : Code) (index : BlockRef) : result (addr * Block) :=
  a ← match index with
      | ByLabel l =>
          match _block_map c !! l with
          | Some a => Ok a
          | None => Raise KeyError
          end
      | ByIndex i => py_getitem (_blocks c) i
      end;
  match heap c !! a with
  | Some b => Ok (a, b)
  | None => Raise Stuck
  end.

(** ** [dict(pairs)] *)

Lemma map_fmap {A B} (f : A -> B) (l : list A) : map f l = f <$> l.
Proof. induction l as [|x l IH]; simpl; [reflexivity|]. rewrite IH. reflexivity. Qed.

Lemma py_dict_snoc {K V} `{Countable K} (l : list (K * V)) (k : K) (v : V) :
  py_dict (l ++ [(k, v)]) = <[k := v]> (py_dict l).
Proof. unfold py_dict. rewrite foldl_app. reflexivity. Qed.

Lemma py_dict_lookup_None {K V} `{Countable K} (l : list (K * V)) (k : K) :
  k ∉ l.*1 -> py_dict l !! k = None.
Proof.
  induction l as [|[k' v'] l IH] using rev_ind; intros Hk; [reflexivity|].
  rewrite py_dict_snoc. rewrite fmap_app in Hk. simpl in Hk.
  rewrite lookup_insert_ne.
  - apply IH. intros Hin. apply Hk. apply elem_of_app. left. assumption.
  - intros ->. apply Hk. apply elem_of_app. right. apply list_elem_of_singleton.
    reflexivity.
Qed.

Lemma py_dict_lookup_NoDup {K V} `{Countable K} (l : list (K * V)) (i : nat)
    (k : K) (v : V) :
  NoDup l.*1 -> l !! i = Some (k, v) -> py_dict l !! k = Some v.
Proof.
  revert i. induction l as [|[k' v'] l IH] using rev_ind; intros i Hnd Hi;
    [discriminate|].
  rewrite py_dict_snoc. rewrite fmap_app in Hnd. simpl in Hnd.
  apply list.NoDup_app in Hnd as (Hnd & Hdisj & _).
  destruct (decide (i < length l)%nat) as [Hlt|Hge].
  - rewrite lookup_app_l in Hi by assumption.
    rewrite lookup_insert_ne; [eapply IH; eassumption|].
    intros ->. apply (Hdisj k); [|apply list_elem_of_singleton; reflexivity].
    apply list_elem_of_fmap. exists (k, v). split; [reflexivity|].
    eapply list_elem_of_lookup_2. exact Hi.
  - rewrite lookup_app_r in Hi by lia.
    destruct (i - length l)%nat; simpl in Hi; [|discriminate].
    injection Hi as -> ->. apply lookup_insert_eq.
Qed.

(** A graph built by the constructor from blocks with pairwise distinct
    labels returns, for the position of a block and for its label, that
    block object; a label of no block is a [KeyError], a position past the
    end an [IndexError]. *)
Theorem Code_init_getitem (co : CodeType) (next : nat) (blocks : list Block)
    (k : nat) (b : Block) :
  NoDup (map label blocks) ->
  blocks !! k = Some b ->
  Code_getitem (Code_init co next blocks) (ByIndex (Z.of_nat k))
    = Ok ((next + k)%nat, b)
  /\ Code_getitem (Code_init co next blocks) (ByLabel (label b))
     = Ok ((next + k)%nat, b)
  /\ Code_len (Code_init co next blocks) = len blocks
  /\ Code_getitem (Code_init co next blocks) (ByIndex (len blocks))
     = Raise IndexError
  /\ (forall l, l ∉ map label blocks ->
        Code_getitem (Code_init co next blocks) (ByLabel l) = Raise KeyError).
Proof.
  intros Hnd Hk.
  pose proof (lookup_lt_Some _ _ _ Hk) as Hlt.
  assert (Haddr : seq next (length blocks) !! k = Some (next + k)%nat)
    by (apply lookup_seq; split; [reflexivity|exact Hlt]).
  assert (Hheap : (list_to_map (zip (seq next (length blocks)) blocks)
                     : gmap addr Block) !! (next + k)%nat = Some b).
  { apply elem_of_list_to_map_1.
    - rewrite fst_zip by (rewrite length_seq; lia). apply NoDup_seq.
    - apply list_elem_of_lookup. exists k. apply lookup_zip_with_Some.
      exists (next + k)%nat, b. auto. }
  unfold Code_getitem, Code_len, Code_init.
  cbn [_blocks _block_map heap]. unfold addr in *.
  split; [|split; [|split; [|split]]].
  - rewrite (py_getitem_lookup _ (Z.of_nat k) (next + k)%nat);
      [|lia|rewrite Nat2Z.id; exact Haddr].
    cbn [mbind result_bind]. rewrite Hheap. reflexivity.
  - rewrite (py_dict_lookup_NoDup _ k (label b) (next + k)%nat).
    + cbn [mbind result_bind]. rewrite Hheap. reflexivity.
    + rewrite fst_zip by (rewrite length_map, length_seq; lia).
      exact Hnd.
    + apply lookup_zip_with_Some. exists (label b), (next + k)%nat.
      split; [reflexivity|]. split; [|exact Haddr].
      rewrite map_fmap, list_lookup_fmap, Hk. reflexivity.
  - unfold len. rewrite length_seq. reflexivity.
  - unfold py_getitem, len. cbv zeta. rewrite length_seq.
    assert (Hge : (Z.of_nat (length blocks) <? 0) = false)
      by (apply Z.ltb_ge; lia).
    rewrite !Hge, Nat2Z.id.
    rewrite (lookup_ge_None_2 (seq next (length blocks)))
      by (rewrite length_seq; lia).
    reflexivity.
  - intros l Hl. rewrite py_dict_lookup_None; [reflexivity|].
    rewrite fst_zip by (rewrite length_map, length_seq; lia).
    exact Hl.
Qed.

(** ** [Code.create_label]: errors *)

(** [create_label] returns a label, or raises and leaves the graph as it
    was: no list, dictionary or block is touched before the last check. *)
Theorem create_label_raises_unchanged (ref : BlockRef) (index : Z) (c : Code) :
  (exists l c', create_label ref index c = (Ok l, c'))
  \/ (exists e, create_label ref index c = (Raise e, c)).
Proof.
  unfold create_label.
  destruct (match ref with
            | ByLabel l =>
                match _block_map c !! l with
                | Some a =>
                    match heap c !! a with
                    | Some block => blocks_index c block
                    | None => Raise Stuck
                    end
                | None => Raise KeyError
                end
            | ByIndex i => if i <? 0 then Raise ValueError else Ok i
            end) as [bi|e]; [|right; eauto].
  destruct (index <? 0); [right; eauto|].
  destruct (py_getitem (_blocks c) bi) as [a|e]; [|right; eauto].
  destruct (heap c !! a) as [block|]; [|right; eauto].
  destruct (index =? 0); [left; eauto|].
  destruct (py_slice_from (instrs block) index); [right; eauto|left; eauto].
Qed.

(** With the block given by its position, [create_label] returns exactly
    when the position is one of [_blocks] and the index is 0 or inside the
    block; a negative position or index is a [ValueError], a position past
    the end an [IndexError], an index at or past the end of the block a
    [ValueError]. *)
Theorem create_label_by_index_bounds (c : Code) (bi i : Z) :
  (forall a, a ∈ _blocks c -> is_Some (heap c !! a)) ->
  match create_label (ByIndex bi) i c with
  | (Ok _, _) =>
      exists a b, 0 <= bi < len (_blocks c)
        /\ _blocks c !! Z.to_nat bi = Some a /\ heap c !! a = Some b
        /\ (i = 0 \/ 0 < i < len (instrs b))
  | (Raise e, _) =>
      (e = ValueError
       /\ (bi < 0 \/ i < 0
           \/ exists a b, _blocks c !! Z.to_nat bi = Some a
                /\ heap c !! a = Some b /\ 0 < i /\ len (instrs b) <= i))
      \/ (e = IndexError /\ 0 <= i /\ len (_blocks c) <= bi)
  end.
Proof.
  intros Hclosed. unfold create_label.
  destruct (Z.ltb_spec bi 0) as [Hneg|Hbi]; [left; auto|].
  destruct (Z.ltb_spec i 0) as [Hineg|Hi]; [left; auto|].
  unfold py_getitem. cbv zeta.
  assert (Hge : (bi <? 0) = false) by (apply Z.ltb_ge; lia).
  rewrite !Hge.
  destruct (_blocks c !! Z.to_nat bi) as [a|] eqn:Ha.
  2:{ right. split; [reflexivity|]. split; [lia|].
      apply lookup_ge_None_1 in Ha. unfold len. lia. }
  pose proof (lookup_lt_Some _ _ _ Ha) as Hlt.
  destruct (Hclosed a) as [b Hb]; [eapply list_elem_of_lookup_2; exact Ha|].
  rewrite Hb.
  destruct (Z.eqb_spec i 0) as [->|Hnz].
  { exists a, b. unfold len. repeat split; auto; lia. }
  unfold py_slice_from, py_slice_start.
  assert (Hige : (i <? 0) = false) by (apply Z.ltb_ge; lia).
  rewrite Hige.
  destruct (drop (Z.to_nat i) (instrs b)) as [|x rest] eqn:Hdrop.
  - left. split; [reflexivity|]. right. right. exists a, b.
    apply (f_equal length) in Hdrop. rewrite length_drop in Hdrop.
    simpl in Hdrop. unfold len. repeat split; auto; lia.
  - exists a, b. apply (f_equal length) in Hdrop. rewrite length_drop in Hdrop.
    simpl in Hdrop. unfold len. repeat split; auto; lia.
Qed.

(** ** [create_label] on a block given by its label *)

Lemma Block_eqb_refl (b : Block) : Block_eqb b b = true.
Proof.
  unfold Block_eqb. induction (instrs b) as [|i l IH]; simpl; [reflexivity|].
  rewrite IH. unfold Instr_eqb. rewrite !bool_decide_eq_true_2 by reflexivity.
  reflexivity.
Qed.

Lemma py_index_from_first {A} (eqb : A -> bool) (l : list A) (k : nat) (a : A) :
  forall i,
    l !! k = Some a -> eqb a = true ->
    (forall j x, (j < k)%nat -> l !! j = Some x -> eqb x = false) ->
    py_index_from eqb l i = Ok (i + Z.of_nat k).
Proof.
  revert k. induction l as [|y l IH]; intros k i Hk Ha Hbefore; [discriminate|].
  destruct k as [|k]; simpl in *.
  - injection Hk as ->. rewrite Ha. f_equal. lia.
  - rewrite (Hbefore 0%nat y); [|lia|reflexivity].
    rewrite (IH k (i + 1)); [f_equal; lia|exact Hk|exact Ha|].
    intros j x Hj Hx. apply (Hbefore (S j) x); [lia|exact Hx].
Qed.

(** With the block given by its label, [create_label] does what it does for
    the position of that block, provided no block before it in [_blocks]
    holds an equal list of instructions. *)
Theorem create_label_by_label_first_equal (c : Code) (l : Label) (a : addr)
    (b : Block) (k : nat) (i : Z) :
  _block_map c !! l = Some a ->
  heap c !! a = Some b ->
  _blocks c !! k = Some a ->
  (forall j a' b', (j < k)%nat -> _blocks c !! j = Some a' ->
                   heap c !! a' = Some b' -> Block_eqb b' b = false) ->
  create_label (ByLabel l) i c = create_label (ByIndex (Z.of_nat k)) i c.
Proof.
  intros Hmap Hb Hk Hbefore. unfold create_label. rewrite Hmap, Hb.
  unfold blocks_index, py_index.
  rewrite (py_index_from_first _ _ k a 0 Hk).
  - assert (Hneg : (Z.of_nat k <? 0) = false) by (apply Z.ltb_ge; lia).
    rewrite Hneg. reflexivity.
  - rewrite Hb. apply Block_eqb_refl.
  - intros j a' Hj Ha'. destruct (heap c !! a') as [b'|] eqn:Hb'; [|reflexivity].
    eapply Hbefore; eassumption.
Qed.

Section WithTable.

Variable T : OpcodeTable.

(** ** [Instr.assemble] and [Instr.disassemble] *)

(** Disassembling what [Instr.assemble] returns gives the instruction back:
    for an instruction as the constructor leaves it whose operand is present
    exactly when the opcode is at least [HAVE_ARGUMENT], in a table whose
    [opname] agrees with [opmap]. *)
Theorem Instr_disassemble_assemble (i : Instr) (bytes : list Z) :
  table_wf T ->
  Instr_wf T i ->
  (HAVE_ARGUMENT T <= _op i <-> _arg i <> ArgNone) ->
  Instr_assemble i = Ok bytes ->
  Instr_disassemble T (_lineno i) bytes 0 = Ok i.
Proof.
  intros Htab Hwf Har Hasm.
  apply Instr_assemble_bytes in Hasm as (-> & Hop & Hnl & Hrange & _).
  pose proof (Instr_init_fields T _ _ _ _ Hwf) as (_ & _ & _ & Hmap & Hsz).
  pose proof (Htab _ _ Hmap) as Hname. simpl in Hname.
  assert (Hnm : py_getitem (opname T) (_op i) = Ok (_name i)).
  { unfold py_getitem. cbv zeta.
    assert (Hge : (_op i <? 0) = false) by (apply Z.ltb_ge; lia).
    rewrite !Hge, Hname. reflexivity. }
  unfold Instr_disassemble, enc, operand.
  destruct (_arg i) as [|n|l] eqn:Ha.
  - change (py_getitem [_op i] 0) with (Ok (_op i) : result Z). simpl.
    destruct (Z.leb_spec (HAVE_ARGUMENT T) (_op i)) as [Hle|Hlt].
    + exfalso. apply Har in Hle. congruence.
    + simpl. rewrite Hnm. simpl. rewrite <- Ha. exact Hwf.
  - change (py_getitem [_op i; n mod 256; n / 256] 0) with (Ok (_op i) : result Z).
    simpl.
    destruct (Z.leb_spec (HAVE_ARGUMENT T) (_op i)) as [Hle|Hlt].
    + change (py_getitem [_op i; n mod 256; n / 256] (0 + 1))
        with (Ok (n mod 256) : result Z).
      change (py_getitem [_op i; n mod 256; n / 256] (0 + 2))
        with (Ok (n / 256) : result Z).
      simpl. rewrite Hnm. simpl.
      replace (n mod 256 + n / 256 * 256) with n
        by (pose proof (Z.div_mod n 256); lia).
      rewrite <- Ha. exact Hwf.
    + exfalso. assert (ArgInt n <> ArgNone) as Hne by discriminate.
      apply Har in Hne. lia.
  - exfalso. eapply Hnl. reflexivity.
Qed.

(** ** What [Code.assemble] can encode *)

(** When [assemble] succeeds, the stream is as long as the sizes of the
    instructions add up to, and every instruction fits its encoding: the
    opcode is a byte, an integer operand is within 0..65535, and the operand
    computed for a Label is within 0..65535 too.  For a relative jump this
    means that the target block does not start before the end of the jump:
    a relative jump backwards is never assembled. *)
Theorem assemble_operands_fit (co out : CodeType)
    (blocks : list (Label * list Instr)) (pre post : list Instr)
    (instr : Instr) :
  Forall (Instr_wf T) (flat blocks) ->
  assemble_blocks T co blocks = Ok out ->
  flat blocks = pre ++ instr :: post ->
  len (co_code out) = code_size (flat blocks)
  /\ 0 <= _op instr <= 255
  /\ (forall n, _arg instr = ArgInt n -> 0 <= n <= 65535)
  /\ (forall l, _arg instr = ArgLabel l ->
        exists t, find_targets blocks !! l = Some t
          /\ if bool_decide (_op instr ∈ hasjrel T)
             then code_size pre + _size instr <= t
                  <= code_size pre + _size instr + 65535
             else 0 <= t <= 65535).
Proof.
  intros Hwf Hasm Hflat.
  apply assemble_blocks_inv in Hasm as (st & Hst & Hcode & _ & _).
  assert (Hsync0 : asm_synced (mkAsm 0 [] [])) by reflexivity.
  destruct (assemble_fold_synced T _ _ _ _ Hwf Hsync0 Hst) as (Hs & Ho & _).
  split; [unfold asm_synced in Hs; simpl in Ho; rewrite Hcode; lia|].
  rewrite Hflat in Hst, Hwf.
  apply Forall_app in Hwf as [Hwf_pre Hwf_rest].
  apply Forall_cons_1 in Hwf_rest as [Hwf_i Hwf_post].
  rewrite foldM_app in Hst. apply bind_Ok in Hst as (st1 & Hst1 & Hst).
  simpl in Hst. apply bind_Ok in Hst as (st2 & Hst2 & _).
  destruct (assemble_fold_synced T _ _ _ _ Hwf_pre Hsync0 Hst1) as (_ & Ho1 & _).
  simpl in Ho1.
  apply assemble_instr_inv in Hst2 as (ri & bytes & Hri & Hb & _).
  apply resolve_instr_fields in Hri as (_ & _ & _ & Hop & _ & Hres);
    [|assumption].
  apply Instr_assemble_bytes in Hb as (_ & Hoprange & _ & Hrange & _).
  split; [lia|]. split.
  - intros n Hn. rewrite Hn in Hres. apply Hrange. exact Hres.
  - intros l Hl. rewrite Hl in Hres. destruct Hres as (t & Ht & Hargri).
    exists t. split; [exact Ht|].
    specialize (Hrange _ Hargri). rewrite Ho1 in Hrange.
    destruct (bool_decide (_op instr ∈ hasjrel T)); lia.
Qed.

(** ** The third loop of [disassemble] *)

(** What the third loop makes of an instruction at an offset: the
    instruction with the target [t] gets the label stored under [t]; one
    without a target is left alone. *)
Definition retargeted (bm : gmap Z Label) (o : Z) (i i' : Instr) : Prop :=
  _size i' = _size i
  /\ match get_jump_target T i o with
     | Ok (Some t) =>
         exists l, bm !! t = Some l
                   /\ Instr_init T (_lineno i) (_name i) (ArgLabel l) = Ok i'
     | _ => i' = i
     end.

Fixpoint retargeted_list (bm : gmap Z Label) (o : Z) (l l' : list Instr)
  : Prop :=
  match l, l' with
  | [], [] => True
  | i :: r, i' :: r' =>
      retargeted bm o i i' /\ retargeted_list bm (o + _size i) r r'
  | _, _ => False
  end.

Lemma retargeted_list_app bm o l1 l1' l2 l2' :
  retargeted_list bm o l1 l1' ->
  retargeted_list bm (o + code_size l1) l2 l2' ->
  retargeted_list bm o (l1 ++ l2) (l1' ++ l2').
Proof.
  revert o l1'. induction l1 as [|i l1 IH]; intros o [|i' l1'] H1 H2;
    simpl in *; try contradiction.
  - replace (o + 0) with o in H2 by lia. exact H2.
  - destruct H1 as [Hi H1]. split; [exact Hi|]. apply IH; [exact H1|].
    replace (o + _size i + code_size l1) with (o + (_size i + code_size l1))
      by lia.
    exact H2.
Qed.

Lemma retargeted_list_size bm o l l' :
  retargeted_list bm o l l' ->
  code_size l' = code_size l /\ length l' = length l.
Proof.
  revert o l'. induction l as [|i l IH]; intros o [|i' l'] H; simpl in *;
    try contradiction; [split; reflexivity|].
  destruct H as [[Hsz _] H]. destruct (IH _ _ H) as [Hc Hl].
  split; [lia|congruence].
Qed.

(** The instruction at a position of the new list comes from the one at the
    same offset of the old list. *)
Lemma retargeted_list_split bm o l l' pre' i' post' :
  retargeted_list bm o l l' ->
  l' = pre' ++ i' :: post' ->
  exists pre i post,
    l = pre ++ i :: post /\ code_size pre = code_size pre'
    /\ retargeted bm (o + code_size pre) i i'.
Proof.
  revert o l l'. induction pre' as [|p' pre' IH]; intros o l l' H ->.
  - destruct l as [|i l]; simpl in H; [contradiction|].
    destruct H as [Hi _]. exists [], i, l. simpl.
    replace (o + 0) with o by lia. auto.
  - destruct l as [|p l]; simpl in H; [contradiction|].
    destruct H as [[Hsz _] H].
    destruct (IH _ _ _ H eq_refl) as (pre & i & post & -> & Hc & Hi).
    exists (p :: pre), i, post. simpl. split; [reflexivity|].
    split; [lia|].
    replace (o + (_size p + code_size pre)) with (o + _size p + code_size pre)
      by lia.
    exact Hi.
Qed.

Lemma retarget_instr_inv bm o out i o' out' :
  Instr_wf T i ->
  retarget_instr T bm (o, out) i = Ok (o', out') ->
  exists i', out' = out ++ [i'] /\ o' = o + _size i /\ retargeted bm o i i'.
Proof.
  intros Hwf H. unfold retarget_instr in H.
  apply bind_Ok in H as (target & Htgt & H).
  apply bind_Ok in H as (i' & Hi' & H).
  injection H as <- <-. exists i'. split; [reflexivity|].
  split; [reflexivity|]. unfold retargeted. rewrite Htgt.
  destruct target as [t|].
  - destruct (bm !! t) as [lbl|] eqn:Hbm; [|discriminate].
    unfold replace_arg in Hi'. split; [|eauto].
    apply Instr_init_fields in Hi' as (_ & _ & _ & _ & ->).
    rewrite (Instr_wf_size T i Hwf).
    unfold get_jump_target in Htgt.
    destruct (_arg i); [|reflexivity|discriminate].
    destruct (bool_decide (_op i ∈ hasjrel T)); [discriminate|].
    destruct (bool_decide (_op i ∈ hasjabs T)); discriminate.
  - injection Hi' as <-. auto.
Qed.

Lemma retarget_list_inv bm l :
  Forall (Instr_wf T) l ->
  forall o out o' out',
    foldM (retarget_instr T bm) (o, out) l = Ok (o', out') ->
    exists new,
      out' = out ++ new /\ o' = o + code_size l /\ retargeted_list bm o l new.
Proof.
  induction 1 as [|i l Hi _ IH]; intros o out o' out' H; simpl in H.
  - injection H as <- <-. exists []. rewrite app_nil_r. simpl.
    split; [reflexivity|]. split; [lia|exact I].
  - apply bind_Ok in H as ([o1 out1] & Hstep & H).
    destruct (retarget_instr_inv _ _ _ _ _ _ Hi Hstep) as (i' & -> & -> & Hret).
    destruct (IH _ _ _ _ H) as (new & -> & -> & Hnew).
    exists (i' :: new). rewrite <- app_assoc. simpl.
    split; [reflexivity|]. split; [lia|]. split; assumption.
Qed.

Lemma retarget_blocks_inv bm bs :
  Forall (Instr_wf T) (flat (view_of bs)) ->
  forall o out o' out',
    foldM (retarget_block T bm) (o, out) bs = Ok (o', out') ->
    exists new,
      out' = out ++ new
      /\ retargeted_list bm o (flat (view_of bs)) (flat (view_of new))
      /\ Forall2 (fun b b' => label b' = label b
                              /\ code_size (instrs b') = code_size (instrs b)
                              /\ length (instrs b') = length (instrs b)) bs new.
Proof.
  induction bs as [|b bs IH]; intros Hwf o out o' out' H; simpl in H.
  - injection H as <- <-. exists []. rewrite app_nil_r.
    split; [reflexivity|]. split; [exact I|constructor].
  - change (flat (view_of (b :: bs))) with (instrs b ++ flat (view_of bs))
      in Hwf |- *.
    apply Forall_app in Hwf as [Hb Hwf].
    apply bind_Ok in H as ([o1 out1] & Hstep & H).
    unfold retarget_block in Hstep.
    apply bind_Ok in Hstep as ([o2 new] & Hfold & Hstep).
    injection Hstep as <- <-.
    destruct (retarget_list_inv _ _ Hb _ _ _ _ Hfold) as (new' & Hnew & -> & Hret).
    simpl in Hnew. subst new'.
    destruct (IH Hwf _ _ _ _ H) as (rest & -> & Hrest & Hall).
    exists (mkBlock (label b) new :: rest).
    split; [rewrite <- app_assoc; reflexivity|].
    destruct (retargeted_list_size _ _ _ _ Hret) as [Hc Hl].
    split.
    + change (flat (view_of (mkBlock (label b) new :: rest)))
        with (new ++ flat (view_of rest)).
      apply retargeted_list_app; assumption.
    + constructor; [simpl; auto|exact Hall].
Qed.

(** ** The graph [disassemble] returns *)

Lemma find_targets_retargeted bs new :
  Forall2 (fun b b' => label b' = label b
                       /\ code_size (instrs b') = code_size (instrs b)
                       /\ length (instrs b') = length (instrs b)) bs new ->
  find_targets (view_of new) = find_targets (view_of bs).
Proof.
  intros H. apply find_targets_ext. unfold view_of.
  induction H as [|b b' bs new (Hl & Hc & _) _ IH]; simpl; constructor;
    simpl; auto.
Qed.

(** Every jump of the disassembled graph has as operand the label of the
    block that starts at the jump's target: with [n] the 16-bit operand in
    the stream, the instructions before that block take [n] bytes for an
    absolute jump and [offset + size + n] bytes for a relative one. *)
Theorem disassemble_labels_jump_targets (co : CodeType) (next : nat) (c : Code)
    (blocks : list (Label * list Instr)) (pre post : list Instr)
    (instr : Instr) (l : Label) :
  Code_disassemble T co next = Ok c ->
  blocks_view c = Ok blocks ->
  flat blocks = pre ++ instr :: post ->
  _arg instr = ArgLabel l ->
  exists n k ins,
    operand_at (co_code co) (code_size pre) = Ok n
    /\ blocks !! k = Some (l, ins)
    /\ code_size (flat (take k blocks))
       = if bool_decide (_op instr ∈ hasjrel T)
         then code_size pre + _size instr + n else n.
Proof.
  intros Hdis Hview Hpos Harg. unfold Code_disassemble in Hdis.
  apply bind_Ok in Hdis as ([instructions block_starts] & Hdec & Hdis).
  apply bind_Ok in Hdis as ([[bs bm] next'] & Hsplit & Hdis).
  apply bind_Ok in Hdis as ([o' bs'] & Hret & Hdis).
  injection Hdis as <-. rewrite Code_init_view in Hview.
  injection Hview as <-.
  apply decode_loop_sound in Hdec as (new & Hnew & Hall & _);
    [|pose proof (len_nonneg (co_code co)); lia].
  simpl in Hnew. subst new.
  pose proof (all_at_wf T _ _ _ Hall) as Hwf.
  assert (Hne : instructions <> []).
  { intros ->. vm_compute in Hsplit. discriminate Hsplit. }
  destruct (split_blocks_spec T next _ block_starts Hwf Hne)
    as (bs0 & bm0 & n0 & Hs & Hflat & Hbm & _).
  rewrite Hs in Hsplit. injection Hsplit as -> -> ->.
  rewrite <- Hflat in Hwf, Hall.
  destruct (retarget_blocks_inv _ _ Hwf _ _ _ _ Hret) as (new & Hout & Hrl & Hf2).
  simpl in Hout. subst new.
  destruct (retargeted_list_split _ _ _ _ _ _ _ Hrl Hpos)
    as (pre0 & i & post0 & Hpos0 & Hc & [Hsz Hi]).
  pose proof (all_at_split _ _ _ _ _ Hall Hpos0) as (op & Hop & _ & Hwfi & Hbytes).
  rewrite Hc in *. simpl in Hi.
  pose proof (Instr_init_fields T _ _ _ _ Hwfi) as (_ & _ & _ & Hmap & _).
  unfold get_jump_target in Hi.
  assert (Hlabel : forall t,
            (exists l', bm !! t = Some l'
               /\ Instr_init T (_lineno i) (_name i) (ArgLabel l') = Ok instr) ->
            _op instr = _op i
            /\ exists k ins, bs' !! k = Some (mkBlock l ins)
                 /\ code_size (flat (take k (view_of bs'))) = t).
  { intros t (l' & Ht & Hinit).
    apply Instr_init_fields in Hinit as (_ & _ & Ha & Hmap' & _).
    rewrite Harg in Ha. injection Ha as <-.
    rewrite Hmap in Hmap'. injection Hmap' as Hopeq. split; [congruence|].
    apply Hbm in Ht. rewrite <- (find_targets_retargeted _ _ Hf2) in Ht.
    apply find_targets_lookup in Ht as (k & ins & Hk & -> & _).
    unfold view_of in Hk. rewrite list_lookup_fmap in Hk.
    destruct (bs' !! k) as [b|] eqn:Hb; [|discriminate]. simpl in Hk.
    injection Hk as Hlb Hib. exists k, ins. split; [|reflexivity].
    rewrite Hb. destruct b; simpl in *; subst. reflexivity. }
  assert (Hview : forall k ins, bs' !! k = Some (mkBlock l ins) ->
                                view_of bs' !! k = Some (l, ins)).
  { intros k ins Hk. unfold view_of. rewrite list_lookup_fmap, Hk. reflexivity. }
  destruct (HAVE_ARGUMENT T <=? op).
  - destruct Hbytes as (Hsz3 & b1 & b2 & Hb1 & Hb2 & Ha). rewrite Ha in Hi.
    exists (b1 + b2 * 256).
    assert (Hoperand : operand_at (co_code co) (code_size pre)
                       = Ok (b1 + b2 * 256)).
    { unfold operand_at. rewrite Hb1. simpl. rewrite Hb2. reflexivity. }
    destruct (bool_decide (_op i ∈ hasjrel T)) eqn:Hrel.
    + destruct (Hlabel _ Hi) as (Hopeq & k & ins & Hk & Hoff).
      exists k, ins. rewrite Hopeq, Hrel, Hsz. auto.
    + destruct (bool_decide (_op i ∈ hasjabs T)).
      * destruct (Hlabel _ Hi) as (Hopeq & k & ins & Hk & Hoff).
        exists k, ins. rewrite Hopeq, Hrel. auto.
      * subst instr. congruence.
  - destruct Hbytes as (_ & Ha). rewrite Ha in Hi.
    destruct (bool_decide (_op i ∈ hasjrel T)); [subst instr; congruence|].
    destruct (bool_decide (_op i ∈ hasjabs T)); subst instr; congruence.
Qed.

(** The labels of the blocks of the second loop are the consecutive fresh
    ones, and a block is left behind only with instructions in it. *)
Record split_fresh (next0 : nat) (st : split_state) : Prop := {
  sf_labels : map label (sp_blocks st) = seq next0 (length (sp_blocks st));
  sf_next : sp_next st = (next0 + length (sp_blocks st))%nat;
  sf_done : Forall (fun b => instrs b <> []) (sp_done st);
  sf_block : sp_offset st <> 0 -> instrs (sp_block st) <> [];
}.

Lemma split_fresh_step bs next0 st i :
  1 <= _size i -> 0 <= sp_offset st ->
  split_fresh next0 st -> split_fresh next0 (split_step bs st i).
Proof.
  intros Hpos Hoff [Hlab Hnext Hdone Hblock]. unfold split_step.
  destruct (negb (sp_offset st =? 0) && bool_decide (sp_offset st ∈ bs)) eqn:Hnew.
  - apply andb_true_iff in Hnew as [Hnz _].
    apply negb_true_iff, Z.eqb_neq in Hnz.
    split; unfold sp_blocks in *;
      cbn [sp_done sp_block sp_map sp_offset sp_next label instrs].
    + rewrite map_app, length_app, seq_app, Hlab. simpl.
      rewrite Hnext. reflexivity.
    + rewrite !length_app in *. simpl in *. lia.
    + apply Forall_app. split; [exact Hdone|].
      constructor; [apply Hblock; exact Hnz|constructor].
    + intros _. discriminate.
  - split; unfold sp_blocks in *;
      cbn [sp_done sp_block sp_map sp_offset sp_next label instrs].
    + rewrite map_app, length_app in *. simpl in *. exact Hlab.
    + rewrite !length_app in *. simpl in *. exact Hnext.
    + exact Hdone.
    + intros _ Habs. apply app_eq_nil in Habs as [_ Habs]. discriminate.
Qed.

Lemma split_step_offset bs st i :
  sp_offset (split_step bs st i) = sp_offset st + _size i.
Proof.
  unfold split_step.
  destruct (negb (sp_offset st =? 0) && bool_decide (sp_offset st ∈ bs));
    reflexivity.
Qed.

Lemma split_fresh_fold bs next0 l :
  Forall (Instr_wf T) l ->
  forall st, 0 <= sp_offset st -> split_fresh next0 st ->
             split_fresh next0 (foldl (split_step bs) st l).
Proof.
  induction 1 as [|i l Hi _ IH]; intros st Hoff Hst; simpl; [exact Hst|].
  pose proof (Instr_wf_size_pos T i Hi) as Hpos.
  apply IH.
  - rewrite split_step_offset. lia.
  - apply split_fresh_step; assumption.
Qed.

(** The graph [disassemble] returns has at least one block, no empty block,
    and pairwise distinct labels: the fresh ones, in the order of the
    blocks.  Every object and label of it was allocated before its
    [next_id]. *)
Theorem disassemble_blocks_wellformed (co : CodeType) (next : nat) (c : Code)
    (blocks : list (Label * list Instr)) :
  Code_disassemble T co next = Ok c ->
  blocks_view c = Ok blocks ->
  blocks <> []
  /\ map fst blocks = seq next (length blocks)
  /\ NoDup (map fst blocks)
  /\ Forall (fun b => b.2 <> []) blocks
  /\ Code_wf c.
Proof.
  intros Hdis Hview. unfold Code_disassemble in Hdis.
  apply bind_Ok in Hdis as ([instructions block_starts] & Hdec & Hdis).
  apply bind_Ok in Hdis as ([[bs bm] next'] & Hsplit & Hdis).
  apply bind_Ok in Hdis as ([o' bs'] & Hret & Hdis).
  injection Hdis as <-. rewrite Code_init_view in Hview.
  injection Hview as <-.
  apply decode_loop_sound in Hdec as (new & Hnew & Hall & _);
    [|pose proof (len_nonneg (co_code co)); lia].
  simpl in Hnew. subst new.
  pose proof (all_at_wf T _ _ _ Hall) as Hwf.
  pose proof (split_blocks_flat T _ _ _ _ _ _ Hwf Hsplit) as Hflat.
  unfold split_blocks in Hsplit. cbv zeta in Hsplit.
  set (st0 := mkSplit [] (mkBlock next []) {[0 := next]} 0 (S next)) in Hsplit.
  assert (Hst0 : split_fresh next st0).
  { split; simpl; [reflexivity|lia|constructor|congruence]. }
  pose proof (split_fresh_fold block_starts next _ Hwf st0 (Z.le_refl 0) Hst0)
    as [Hlab Hnext Hdone _].
  set (st := foldl (split_step block_starts) st0 instructions) in *.
  case_bool_decide as Hemp; [discriminate|].
  injection Hsplit as <- <- <-.
  rewrite <- Hflat in Hwf.
  destruct (retarget_blocks_inv _ _ Hwf _ _ _ _ Hret) as (new & Hout & _ & Hf2).
  simpl in Hout. subst new. fold (sp_blocks st) in Hf2.
  assert (Hlen : length bs' = length (sp_blocks st))
    by (symmetry; eapply Forall2_length; exact Hf2).
  assert (Hlabels : map label bs' = map label (sp_blocks st)).
  { clear -Hf2. induction Hf2 as [|b b' l l' (Hl & _) _ IH]; simpl;
      [reflexivity|]. rewrite Hl, IH. reflexivity. }
  assert (Hfst : map fst (view_of bs') = map label bs').
  { unfold view_of. rewrite map_map. reflexivity. }
  assert (Hvl : length (view_of bs') = length bs')
    by (unfold view_of; apply length_map).
  split; [|split; [|split; [|split]]].
  - intros Hnil. apply (f_equal length) in Hnil. rewrite Hvl, Hlen in Hnil.
    unfold sp_blocks in Hnil. rewrite length_app in Hnil. simpl in Hnil. lia.
  - rewrite Hfst, Hlabels, Hlab, Hvl, Hlen. reflexivity.
  - rewrite Hfst, Hlabels, Hlab. apply NoDup_seq.
  - assert (Hall' : Forall (fun b => instrs b <> []) (sp_blocks st)).
    { unfold sp_blocks. apply Forall_app. split; [exact Hdone|].
      constructor; [exact Hemp|constructor]. }
    clear -Hf2 Hall'. unfold view_of.
    induction Hf2 as [|b b' l l' (_ & _ & Hl) _ IH]; simpl; constructor.
    + simpl. apply Forall_inv in Hall'. intros Hnil. apply Hall'.
      rewrite Hnil in Hl. simpl in Hl. symmetry in Hl.
      apply length_zero_iff_nil in Hl. exact Hl.
    + apply IH. eapply Forall_inv_tail. exact Hall'.
  - apply Code_init_wf. rewrite Forall_forall. intros b Hb.
    assert (Hin : In (label b) (map label bs')) by (apply in_map; exact Hb).
    rewrite Hlabels, Hlab in Hin. apply in_seq in Hin.
    rewrite Hnext, Hlen. lia.
Qed.

(** ** [create_label] and [assemble] *)

Lemma blocks_view_inv (h : gmap addr Block) (addrs : list addr) :
  forall out res,
    foldM (fun out a =>
             match h !! a with
             | Some b => Ok (out ++ [(label b, instrs b)])
             | None => Raise Stuck
             end) out addrs = Ok res ->
    exists Bs, Forall2 (fun a b => h !! a = Some b) addrs Bs
               /\ res = out ++ view_of Bs.
Proof.
  induction addrs as [|a addrs IH]; intros out res H; simpl in H.
  - injection H as <-. exists []. rewrite app_nil_r. split; [constructor|reflexivity].
  - destruct (h !! a) as [b|] eqn:Hb; [|discriminate]. simpl in H.
    destruct (IH _ _ H) as (Bs & HF & ->).
    exists (b :: Bs). split; [constructor; assumption|].
    rewrite <- app_assoc. reflexivity.
Qed.

Lemma heap_frame (h h' : gmap addr Block) (addrs : list addr) (Bs : list Block) :
  Forall2 (fun a b => h !! a = Some b) addrs Bs ->
  (forall a, a ∈ addrs -> h' !! a = h !! a) ->
  Forall2 (fun a b => h' !! a = Some b) addrs Bs.
Proof.
  induction 1 as [|a b addrs Bs Hab _ IH]; intros Hsame; constructor.
  - rewrite Hsame by (apply elem_of_cons; left; reflexivity). exact Hab.
  - apply IH. intros a' Ha'. apply Hsame. apply elem_of_cons. right. exact Ha'.
Qed.

(** Two runs of the first loop of [assemble] from maps that agree off the
    label [new] agree off [new] at the end. *)
Lemma find_targets_agree (new : Label) (bs : list (Label * list Instr)) :
  forall m1 m2 o,
    (forall l, l <> new -> m1 !! l = m2 !! l) ->
    (foldl find_targets_step (m1, o) bs).2
    = (foldl find_targets_step (m2, o) bs).2
    /\ forall l, l <> new ->
         (foldl find_targets_step (m1, o) bs).1 !! l
         = (foldl find_targets_step (m2, o) bs).1 !! l.
Proof.
  induction bs as [|[lb ins] bs IH]; intros m1 m2 o Hm; simpl; [auto|].
  apply IH. intros l Hl.
  destruct (decide (lb = l)) as [->|Hne].
  - rewrite !lookup_insert_eq. reflexivity.
  - rewrite !lookup_insert_ne by assumption. apply Hm. exact Hl.
Qed.

Lemma find_targets_split pre lb ins1 ins2 new post l :
  l <> new ->
  find_targets (pre ++ (lb, ins1) :: (new, ins2) :: post) !! l
  = find_targets (pre ++ (lb, ins1 ++ ins2) :: post) !! l.
Proof.
  intros Hl. unfold find_targets. rewrite !foldl_app.
  destruct (foldl find_targets_step (∅, 0) pre) as [m o]. simpl.
  rewrite !foldl_size, code_size_app.
  replace (o + code_size ins1 + code_size ins2)
    with (o + (code_size ins1 + code_size ins2)) by lia.
  refine (proj2 (find_targets_agree new post _ _ _ _) l Hl).
  intros l' Hl'. rewrite lookup_insert_ne by congruence. reflexivity.
Qed.

Lemma assemble_fold_targets (t1 t2 : gmap Label Z) (l : list Instr) :
  (forall lb t, t1 !! lb = Some t -> t2 !! lb = Some t) ->
  forall st st',
    foldM (assemble_instr T t1) st l = Ok st' ->
    foldM (assemble_instr T t2) st l = Ok st'.
Proof.
  intros Ht. induction l as [|i l IH]; intros st st' H; simpl in *; [exact H|].
  apply bind_Ok in H as (st1 & H1 & H).
  assert (H2 : assemble_instr T t2 st i = Ok st1).
  { unfold assemble_instr, resolve_instr in *.
    destruct (_arg i) as [|n|lb]; try exact H1.
    destruct (t1 !! lb) as [t|] eqn:Hlb; [|discriminate].
    rewrite (Ht _ _ Hlb). exact H1. }
  rewrite H2. simpl. apply IH. exact H.
Qed.

(** Splitting a block does not change what the graph assembles to: after
    [create_label] on a block given by its position, [assemble] returns the
    code object it returned before.  The graph lists no block object twice,
    and its allocator is ahead of its objects and labels. *)
Theorem create_label_keeps_assembly (c c' : Code) (bi i : Z) (l : Label)
    (co : CodeType) :
  Code_wf c ->
  NoDup (_blocks c) ->
  Code_assemble T c = Ok co ->
  create_label (ByIndex bi) i c = (Ok l, c') ->
  Code_assemble T c' = Ok co.
Proof.
  intros Hwf Hnd Hasm Hcl. pose proof Hasm as Hasm0.
  unfold Code_assemble in Hasm.
  apply bind_Ok in Hasm as (blocks & Hview & Hab).
  unfold blocks_view in Hview.
  apply blocks_view_inv in Hview as (Bs & HF2 & Hblocks).
  simpl in Hblocks. subst blocks.
  unfold create_label in Hcl.
  destruct (Z.ltb_spec bi 0) as [Hneg|Hbi]; [discriminate|].
  destruct (Z.ltb_spec i 0) as [Hineg|Hi]; [discriminate|].
  unfold py_getitem in Hcl. cbv zeta in Hcl.
  assert (Hge : (bi <? 0) = false) by (apply Z.ltb_ge; lia).
  rewrite !Hge in Hcl.
  set (k := Z.to_nat bi) in *.
  destruct (_blocks c !! k) as [a|] eqn:Ha; [|discriminate].
  destruct (heap c !! a) as [b|] eqn:Hb; [|discriminate].
  destruct (Z.eqb_spec i 0) as [->|Hnz].
  { injection Hcl as _ <-. exact Hasm0. }
  unfold py_slice_from, py_del_from, py_insert, py_slice_start in Hcl.
  assert (Hige : (i <? 0) = false) by (apply Z.ltb_ge; lia).
  assert (Hbi1 : (bi + 1 <? 0) = false) by (apply Z.ltb_ge; lia).
  rewrite Hige, Hbi1 in Hcl.
  replace (Z.to_nat (bi + 1)) with (S k) in Hcl by (subst k; lia).
  set (n := Z.to_nat i) in *.
  destruct (drop n (instrs b)) as [|x rest] eqn:Hdrop; [discriminate|].
  rewrite <- Hdrop in Hcl. clear x rest Hdrop.
  injection Hcl as _ <-.
  set (new := next_id c) in *. set (a2 := S new) in *.
  (* the block at position [k] *)
  destruct (Forall2_lookup_l _ _ _ _ _ HF2 Ha) as (b0 & HBk & Hb0).
  rewrite Hb in Hb0. injection Hb0 as <-.
  pose proof (take_drop_middle _ _ _ Ha) as Haddrs.
  pose proof (take_drop_middle _ _ _ HBk) as HBs.
  assert (Hlenk : length (take k (_blocks c)) = length (take k Bs)).
  { assert (Hlen2 : length (_blocks c) = length Bs)
      by (eapply Forall2_length; exact HF2).
    rewrite !length_take, Hlen2. reflexivity. }
  pose proof HF2 as HF2'. rewrite <- Haddrs, <- HBs in HF2'.
  apply Forall2_app_inv in HF2' as [HFpre HFrest]; [|exact Hlenk].
  apply Forall2_cons_1 in HFrest as [_ HFpost].
  pose proof Hnd as Hnd'. rewrite <- Haddrs in Hnd'.
  apply list.NoDup_app in Hnd' as (_ & Hdisj & Hnd').
  apply list.NoDup_cons in Hnd' as [Hnotin _].
  assert (Hfresh : forall a', a' ∈ _blocks c -> a' <> a2).
  { intros a' Hin. apply list_elem_of_lookup in Hin as [j Hj].
    destruct (Forall2_lookup_l _ _ _ _ _ HF2 Hj) as (bj & _ & Hbj).
    destruct (Hwf _ _ Hbj) as [Hlt _]. subst a2 new. lia. }
  set (B1 := mkBlock (label b) (take n (instrs b))).
  set (B2 := mkBlock new (drop n (instrs b))).
  set (h' := <[a := B1]> (<[a2 := B2]> (heap c))).
  assert (Hother : forall a', a' ∈ _blocks c -> a' <> a ->
                              h' !! a' = heap c !! a').
  { intros a' Hin Hne. subst h'.
    rewrite lookup_insert_ne by congruence.
    rewrite lookup_insert_ne by (apply not_eq_sym, Hfresh; exact Hin).
    reflexivity. }
  assert (HF' : Forall2 (fun a b => h' !! a = Some b)
                  (take (S k) (_blocks c) ++ a2 :: drop (S k) (_blocks c))
                  (take k Bs ++ B1 :: B2 :: drop (S k) Bs)).
  { rewrite (take_S_r _ _ _ Ha), <- app_assoc. simpl.
    apply Forall2_app; [|constructor; [|constructor]].
    - apply (heap_frame (heap c)); [exact HFpre|].
      intros a' Hin. apply Hother.
      + eapply subseteq_take. exact Hin.
      + intros ->. apply (Hdisj a); [exact Hin|].
        apply elem_of_cons. left. reflexivity.
    - subst h'. apply lookup_insert_eq.
    - subst h'. rewrite lookup_insert_ne by (apply Hfresh;
        eapply list_elem_of_lookup_2; exact Ha).
      apply lookup_insert_eq.
    - apply (heap_frame (heap c)); [exact HFpost|].
      intros a' Hin. apply Hother.
      + eapply subseteq_drop. exact Hin.
      + intros ->. apply Hnotin. exact Hin. }
  unfold Code_assemble, blocks_view. cbn [_blocks heap code_obj].
  pose proof (blocks_view_fold _ _ _ HF' []) as Hv.
  subst h' a2. cbn [app] in Hv. unfold addr in *. rewrite Hv.
  cbn [mbind result_bind].
  (* the two graphs assemble alike *)
  rewrite <- HBs in Hab.
  unfold assemble_blocks in Hab |- *.
  apply bind_Ok in Hab as (st & Hst & Hab).
  unfold assemble_block in Hst |- *.
  rewrite (foldM_concat (assemble_instr T _) snd) in Hst.
  rewrite (foldM_concat (assemble_instr T _) snd).
  fold (flat (view_of (take k Bs ++ b :: drop (S k) Bs))) in Hst.
  fold (flat (view_of (take k Bs ++ B1 :: B2 :: drop (S k) Bs))).
  assert (Hflat : flat (view_of (take k Bs ++ B1 :: B2 :: drop (S k) Bs))
                  = flat (view_of (take k Bs ++ b :: drop (S k) Bs))).
  { rewrite !view_of_app, !flat_app. f_equal. unfold flat. simpl.
    rewrite app_assoc, take_drop. reflexivity. }
  rewrite Hflat.
  assert (Htargets : forall lb t,
            find_targets (view_of (take k Bs ++ b :: drop (S k) Bs)) !! lb
            = Some t ->
            find_targets (view_of (take k Bs ++ B1 :: B2 :: drop (S k) Bs)) !! lb
            = Some t).
  { intros lb t Ht.
    assert (Hlb : lb <> new).
    { intros ->. apply find_targets_lookup in Ht as (j & ins & Hj & _).
      unfold view_of in Hj. rewrite list_lookup_fmap in Hj.
      destruct ((take k Bs ++ b :: drop (S k) Bs) !! j) as [bj|] eqn:Hbj;
        [|discriminate].
      simpl in Hj. injection Hj as Hlab _.
      rewrite HBs in Hbj.
      destruct (Forall2_lookup_r _ _ _ _ _ HF2 Hbj) as (aj & _ & Haj).
      destruct (Hwf _ _ Haj) as [_ Hlt]. subst new. lia. }
    rewrite <- Ht. rewrite !view_of_app. simpl.
    replace (instrs b) with (take n (instrs b) ++ drop n (instrs b)) at 3
      by apply take_drop.
    apply find_targets_split. exact Hlb. }
  rewrite (assemble_fold_targets _ _ _ Htargets _ _ Hst). exact Hab.
Qed.

(** ** The errors of [assemble] *)

Definition encoding_error (e : exn) : Prop := e = KeyError \/ e = StructError.

Lemma assemble_instr_errors targets st i e :
  assemble_instr T targets st i = Raise e -> encoding_error e.
Proof.
  unfold assemble_instr, resolve_instr, replace_arg, Instr_init, encoding_error.
  destruct (_arg i) as [|n|l] eqn:Harg; simpl.
  - unfold Instr_assemble, pack_B. rewrite Harg.
    destruct (_ && _); simpl; intros H; inversion H; auto.
  - unfold Instr_assemble, pack_BH. rewrite Harg.
    destruct (_ && _); simpl; intros H; inversion H; auto.
  - destruct (targets !! l) as [t|]; simpl; [|intros H; inversion H; auto].
    destruct (opmap T !! _name i) as [op|]; simpl; [|intros H; inversion H; auto].
    unfold Instr_assemble, pack_BH. simpl.
    destruct (_ && _); simpl; intros H; inversion H; auto.
Qed.

Lemma assemble_fold_errors targets l :
  forall st e,
    foldM (assemble_instr T targets) st l = Raise e -> encoding_error e.
Proof.
  induction l as [|i l IH]; intros st e H; simpl in H; [discriminate|].
  destruct (assemble_instr T targets st i) as [st1|e1] eqn:H1; simpl in H.
  - eapply IH. exact H.
  - injection H as <-. eapply assemble_instr_errors. exact H1.
Qed.

(** The offsets recorded for the line table are at most three bytes apart. *)
Definition linenos_close (st : asm_state) : Prop :=
  chained 0 (as_linenos st)
  /\ 0 <= as_offset st - chain_end 0 (as_linenos st) <= 3.

Lemma assemble_fold_linenos targets l :
  Forall (Instr_wf T) l ->
  forall st st',
    linenos_close st ->
    foldM (assemble_instr T targets) st l = Ok st' ->
    linenos_close st'.
Proof.
  induction 1 as [|i l Hi _ IH]; intros st st' Hst H; simpl in H.
  - injection H as <-. exact Hst.
  - apply bind_Ok in H as (st1 & H1 & H). apply (IH st1); [|exact H].
    apply assemble_instr_inv in H1 as (ri & bytes & Hri & _ & ->).
    apply resolve_instr_fields in Hri as (Hwf' & _); [|exact Hi].
    destruct Hst as [Hc Hd]. unfold linenos_close. simpl.
    destruct (chained_snoc 0 (as_linenos st) (as_offset st) (_lineno ri) Hc)
      as [Hc' He]; [lia|].
    split; [exact Hc'|]. rewrite He, (Instr_wf_size T ri Hwf').
    destruct (_arg ri); lia.
Qed.

(** [assemble] fails only where an instruction cannot be encoded: with a
    [KeyError] for a Label of no block (or a name outside [opmap]) and with
    [struct.error] for an opcode or operand outside its field.  Building the
    line table never fails, whatever the line numbers: its loops end and its
    two assertions hold. *)
Theorem assemble_raises_only (co : CodeType)
    (blocks : list (Label * list Instr)) :
  Forall (Instr_wf T) (flat blocks) ->
  match assemble_blocks T co blocks with
  | Ok out => exists st,
      foldM (assemble_instr T (find_targets blocks)) (mkAsm 0 [] [])
            (flat blocks) = Ok st
      /\ co_code out = concat (as_code st)
  | Raise e =>
      encoding_error e
      /\ foldM (assemble_instr T (find_targets blocks)) (mkAsm 0 [] [])
               (flat blocks) = Raise e
  end.
Proof.
  intros Hwf.
  destruct (assemble_blocks T co blocks) as [out|e] eqn:Hasm.
  - apply assemble_blocks_inv in Hasm as (st & Hst & Hcode & _). eauto.
  - unfold assemble_blocks, assemble_block in Hasm.
    rewrite (foldM_concat (assemble_instr T _) snd) in Hasm.
    fold (flat blocks) in Hasm.
    destruct (foldM (assemble_instr T (find_targets blocks)) (mkAsm 0 [] [])
                    (flat blocks)) as [st|e1] eqn:Hfold; simpl in Hasm.
    + exfalso.
      assert (H0 : linenos_close (mkAsm 0 [] [])) by (split; simpl; [exact I|lia]).
      destruct (assemble_fold_linenos _ _ Hwf _ _ H0 Hfold) as [Hc _].
      destruct (make_lnotab_total (co_firstlineno co) _ Hc) as [lnotab Hl].
      rewrite Hl in Hasm. discriminate Hasm.
    + injection Hasm as <-. split; [|reflexivity].
      eapply assemble_fold_errors. exact Hfold.
Qed.

(** ** The line table and [dis.findlinestarts] *)

(** The entries a decoder of the line table is expected to yield for the
    recorded pairs (offset, line): the first pair, and every pair whose line
    differs from the one before it. *)
Fixpoint line_changes (last : option Z) (l : list (Z * Z)) : list (Z * Z) :=
  match l with
  | [] => []
  | (o, ln) :: r =>
      if bool_decide (Some ln = last) then line_changes last r
      else (o, ln) :: line_changes (Some ln) r
  end.

(** The offsets go up by 1..255 and the lines move by -127..126 per pair:
    no pair needs a filler entry. *)
Fixpoint small_steps (o ln : Z) (l : list (Z * Z)) : Prop :=
  match l with
  | [] => True
  | (o', ln') :: r =>
      1 <= o' - o <= 255 /\ -127 <= ln' - ln <= 126 /\ small_steps o' ln' r
  end.

(** The line of an instruction is within -127..126 of the line before. *)
Fixpoint lines_close (ln : Z) (l : list Instr) : Prop :=
  match l with
  | [] => True
  | i :: r => -127 <= _lineno i - ln <= 126 /\ lines_close (_lineno i) r
  end.

(** The table entries of pairs that need no filler. *)
Fixpoint pairs_of (o ln : Z) (l : list (Z * Z)) : list (Z * Z) :=
  match l with
  | [] => []
  | (o', ln') :: r => (o' - o, (ln' - ln) mod 256) :: pairs_of o' ln' r
  end.

Definition pair_bytes (p : Z * Z) : list Z := [p.1; p.2].

(** The end of [findlinestarts]: the pending line is yielded if it is new. *)
Definition flush (st : option Z * Z * Z * list (Z * Z)) : list (Z * Z) :=
  let '(lastlineno, lineno, addr, out) := st in
  if bool_decide (Some lineno = lastlineno) then out
  else out ++ [(addr, lineno)].

Lemma while_dlineno_neg_small fuel d acc :
  -127 <= d -> while_dlineno_neg fuel d acc = Ok (d, acc).
Proof.
  intros H. destruct fuel; simpl;
    destruct (Z.ltb_spec d (-127)); try lia; reflexivity.
Qed.

Lemma while_dlineno_pos_small fuel d acc :
  d <= 126 -> while_dlineno_pos fuel d acc = Ok (d, acc).
Proof.
  intros H. destruct fuel; simpl;
    destruct (Z.ltb_spec 126 d); try lia; reflexivity.
Qed.

Lemma lnotab_step_small oo ol acc o l :
  0 <= o - oo <= 255 -> -127 <= l - ol <= 126 ->
  lnotab_step (oo, ol, acc) (o, l)
  = Ok (o, l, acc ++ (if (o - oo =? 0) && (l - ol =? 0) then []
                      else [pair_bytes (o - oo, (l - ol) mod 256)])).
Proof.
  intros Ho Hl. unfold lnotab_step.
  rewrite while_doff_small by lia. cbn [mbind result_bind].
  rewrite while_dlineno_neg_small by lia. cbn [mbind result_bind].
  rewrite while_dlineno_pos_small by lia. cbn [mbind result_bind].
  destruct (Z.leb_spec 0 (o - oo)); [|lia].
  destruct (Z.leb_spec (o - oo) 255); [|lia].
  destruct (Z.leb_spec (-127) (l - ol)); [|lia].
  destruct (Z.leb_spec (l - ol) 126); [|lia]. cbn [andb negb].
  destruct (o - oo =? 0); destruct (l - ol =? 0); cbn [negb orb andb];
    try (rewrite pack_Bb_total by lia; reflexivity).
  rewrite app_nil_r. reflexivity.
Qed.

Lemma lnotab_fold_small rest :
  forall o ln acc,
    small_steps o ln rest ->
    exists o' ln',
      foldM lnotab_step (o, ln, acc) rest
      = Ok (o', ln', acc ++ map pair_bytes (pairs_of o ln rest)).
Proof.
  induction rest as [|[o1 l1] rest IH]; intros o ln acc Hs.
  - simpl. rewrite app_nil_r. eauto.
  - destruct Hs as (Ho & Hl & Hs). cbn [foldM].
    rewrite lnotab_step_small by lia. cbn [mbind result_bind].
    assert (Hnz : (o1 - o =? 0) = false) by (apply Z.eqb_neq; lia).
    rewrite Hnz. cbn [andb].
    destruct (IH o1 l1 (acc ++ [pair_bytes (o1 - o, (l1 - ln) mod 256)]) Hs)
      as (o' & ln' & Hfold).
    exists o', ln'. rewrite Hfold. simpl. rewrite <- app_assoc. reflexivity.
Qed.

Lemma lnotab_pairs_bytes ps :
  lnotab_pairs (concat (map pair_bytes ps)) = ps.
Proof.
  induction ps as [|[a b] ps IH]; simpl; [reflexivity|]. rewrite IH. reflexivity.
Qed.

Lemma signed_byte d :
  -127 <= d <= 126 ->
  (if 128 <=? d mod 256 then d mod 256 - 256 else d mod 256) = d.
Proof.
  intros Hd. destruct (Z_lt_le_dec d 0) as [Hneg|Hpos].
  - replace (d mod 256) with (d + 256)
      by (apply Z.mod_unique with (q := -1); lia).
    destruct (Z.leb_spec 128 (d + 256)); lia.
  - rewrite Z.mod_small by lia. destruct (Z.leb_spec 128 d); lia.
Qed.

Lemma findlinestarts_fold rest :
  forall last ln o out,
    small_steps o ln rest ->
    flush (foldl findlinestarts_step (last, ln, o, out) (pairs_of o ln rest))
    = out ++ line_changes last ((o, ln) :: rest).
Proof.
  induction rest as [|[o1 l1] rest IH]; intros last ln o out Hs.
  - simpl. case_bool_decide; [rewrite app_nil_r|]; reflexivity.
  - destruct Hs as (Ho & Hl & Hs).
    cbn [pairs_of foldl]. unfold findlinestarts_step at 2.
    assert (Hnz : (o1 - o =? 0) = false) by (apply Z.eqb_neq; lia).
    rewrite Hnz, (signed_byte _ Hl).
    replace (o + (o1 - o)) with o1 by lia.
    replace (ln + (l1 - ln)) with l1 by lia.
    cbn [line_changes].
    destruct (bool_decide (Some ln = last)).
    + apply IH. exact Hs.
    + rewrite IH by exact Hs. rewrite <- app_assoc. reflexivity.
Qed.

(** The table written for recorded pairs that need no filler decodes, with
    [dis.findlinestarts], to the line changes of those pairs. *)
Lemma make_lnotab_decodes (code : list Z) (first l0 : Z) (rest : list (Z * Z)) :
  -127 <= l0 - first <= 126 ->
  small_steps 0 l0 rest ->
  exists lnotab,
    make_lnotab first ((0, l0) :: rest) = Ok lnotab
    /\ findlinestarts (mkCodeType code first lnotab)
       = line_changes None ((0, l0) :: rest).
Proof.
  intros Hl0 Hs. unfold make_lnotab. cbn [foldM].
  rewrite lnotab_step_small by lia. cbn [mbind result_bind].
  replace (0 - 0 =? 0) with true by reflexivity. cbn [andb app].
  set (e0 := if l0 - first =? 0 then []
             else [pair_bytes (0 - 0, (l0 - first) mod 256)]).
  destruct (lnotab_fold_small rest 0 l0 e0 Hs) as (o' & ln' & Hfold).
  rewrite Hfold. cbn [mbind result_bind]. eexists. split; [reflexivity|].
  change (findlinestarts ?co)
    with (flush (foldl findlinestarts_step (None, co_firstlineno co, 0, [])
                       (lnotab_pairs (co_lnotab co)))).
  cbn [co_firstlineno co_lnotab].
  assert (Hpairs : lnotab_pairs (concat (e0 ++ map pair_bytes (pairs_of 0 l0 rest)))
                   = (if l0 - first =? 0 then []
                      else [(0, (l0 - first) mod 256)])
                     ++ pairs_of 0 l0 rest).
  { subst e0. destruct (l0 - first =? 0); simpl.
    - apply lnotab_pairs_bytes.
    - f_equal. apply lnotab_pairs_bytes. }
  rewrite Hpairs, foldl_app.
  assert (Hfirst : foldl findlinestarts_step (None, first, 0, [])
                     (if l0 - first =? 0 then []
                      else [(0, (l0 - first) mod 256)])
                   = (None, l0, 0, [])).
  { destruct (Z.eqb_spec (l0 - first) 0) as [Hz|Hnz]; simpl.
    - repeat f_equal. lia.
    - rewrite (signed_byte _ Hl0). repeat f_equal. lia. }
  rewrite Hfirst. apply (findlinestarts_fold rest None l0 0 [] Hs).
Qed.

Lemma assemble_fold_lines targets l :
  Forall (Instr_wf T) l ->
  forall st st',
    foldM (assemble_instr T targets) st l = Ok st' ->
    as_linenos st' = as_linenos st ++ lines_of (as_offset st) l.
Proof.
  induction 1 as [|i l Hi _ IH]; intros st st' H; simpl in H.
  - injection H as <-. simpl. rewrite app_nil_r. reflexivity.
  - apply bind_Ok in H as (st1 & H1 & H).
    apply assemble_instr_inv in H1 as (ri & bytes & Hri & _ & ->).
    apply resolve_instr_fields in Hri as (_ & Hl & _ & _ & Hsz & _); [|exact Hi].
    rewrite (IH _ _ H). simpl. rewrite <- app_assoc, Hl, Hsz. reflexivity.
Qed.

Lemma lines_close_small l :
  Forall (Instr_wf T) l ->
  forall o o0 ln,
    1 <= o - o0 <= 3 -> lines_close ln l -> small_steps o0 ln (lines_of o l).
Proof.
  induction 1 as [|i l Hi _ IH]; intros o o0 ln Ho Hl; simpl; [exact I|].
  destruct Hl as [Hd Hl]. split; [lia|]. split; [exact Hd|].
  apply IH; [|exact Hl].
  rewrite (Instr_wf_size T i Hi). destruct (_arg i); lia.
Qed.

Lemma findlinestarts_of_lines (code : list Z) (first : Z) (l : list Instr)
    (lnotab : list Z) :
  Forall (Instr_wf T) l -> l <> [] -> lines_close first l ->
  make_lnotab first (lines_of 0 l) = Ok lnotab ->
  findlinestarts (mkCodeType code first lnotab)
  = line_changes None (lines_of 0 l).
Proof.
  intros Hwf Hne Hclose Hlnotab.
  destruct l as [|i l]; [contradiction|].
  apply Forall_cons_1 in Hwf as [Hi Hl]. destruct Hclose as [Hd Hclose].
  simpl in Hlnotab |- *.
  destruct (make_lnotab_decodes code first (_lineno i)
              (lines_of (0 + _size i) l)) as (lnotab' & Hmk & Hdec).
  - exact Hd.
  - apply lines_close_small; [exact Hl| |exact Hclose].
    rewrite (Instr_wf_size T i Hi). destruct (_arg i); lia.
  - rewrite Hmk in Hlnotab. injection Hlnotab as ->. exact Hdec.
Qed.

(** When no line is further than -127..126 from the line before it (the
    first one from [co_firstlineno]), the line table [assemble] writes
    decodes, with [dis.findlinestarts], to the offsets and lines of the
    instructions at which the line changes. *)
Theorem assemble_line_table_round_trip (co out : CodeType)
    (blocks : list (Label * list Instr)) :
  Forall (Instr_wf T) (flat blocks) ->
  flat blocks <> [] ->
  lines_close (co_firstlineno co) (flat blocks) ->
  assemble_blocks T co blocks = Ok out ->
  findlinestarts out = line_changes None (lines_of 0 (flat blocks)).
Proof.
  intros Hwf Hne Hclose Hasm.
  apply assemble_blocks_inv in Hasm as (st & Hst & _ & Hlnotab & Hfirst).
  rewrite (assemble_fold_lines _ _ Hwf _ _ Hst) in Hlnotab. simpl in Hlnotab.
  pose proof (findlinestarts_of_lines (co_code out) _ _ _ Hwf Hne Hclose Hlnotab)
    as Hdec.
  rewrite <- Hfirst in Hdec. destruct out. exact Hdec.
Qed.

(** ** The lines the first loop of [disassemble] assigns *)

Lemma py_dict_cons_lookup {V} (k : Z) (v : V) (l : list (Z * V)) (k' : Z) :
  py_dict ((k, v) :: l) !! k'
  = match py_dict l !! k' with
    | Some v' => Some v'
    | None => if decide (k = k') then Some v else None
    end.
Proof.
  revert k v. induction l as [|[k1 v1] l IH] using rev_ind; intros k v.
  - unfold py_dict. simpl. destruct (decide (k = k')) as [->|Hne].
    + rewrite lookup_insert_eq. reflexivity.
    + rewrite lookup_insert_ne by assumption. reflexivity.
  - rewrite app_comm_cons, !py_dict_snoc.
    destruct (decide (k1 = k')) as [->|Hne].
    + rewrite !lookup_insert_eq. reflexivity.
    + rewrite !lookup_insert_ne by assumption. apply IH.
Qed.

Lemma line_changes_keys l :
  Forall (Instr_wf T) l ->
  forall o last o',
    o' ∈ (line_changes last (lines_of o l)).*1 -> o <= o'.
Proof.
  induction 1 as [|i l Hi _ IH]; intros o last o' Hin; simpl in Hin.
  - apply elem_of_nil in Hin. contradiction.
  - pose proof (Instr_wf_size_pos T i Hi) as Hpos.
    destruct (bool_decide (Some (_lineno i) = last)).
    + apply IH in Hin. lia.
    + simpl in Hin. apply elem_of_cons in Hin as [->|Hin]; [lia|].
      apply IH in Hin. lia.
Qed.

Lemma with_lineno_same i : with_lineno (_lineno i) i = i.
Proof. destruct i. reflexivity. Qed.

(** With the decoded line changes as [line_starts], the first loop gives
    every instruction the line it had. *)
Lemma relined_line_changes l :
  Forall (Instr_wf T) l ->
  forall o last prev (ls : gmap Z Z),
    (last = None \/ last = Some prev) ->
    (forall o', o <= o' ->
       ls !! o' = py_dict (line_changes last (lines_of o l)) !! o') ->
    map _lineno (relined ls o prev l) = map _lineno l.
Proof.
  induction 1 as [|i l Hi Hl IH]; intros o last prev ls Hlast Hls;
    [reflexivity|].
  pose proof (Instr_wf_size_pos T i Hi) as Hpos.
  assert (Hlater : forall last',
            py_dict (line_changes last' (lines_of (o + _size i) l)) !! o = None).
  { intros last'. apply py_dict_lookup_None. intros Hin.
    apply (line_changes_keys _ Hl) in Hin. lia. }
  cbn [relined lines_of line_changes] in *.
  case_bool_decide as Hsame.
  - (* the line of the instruction before: no entry at [o] *)
    destruct Hlast as [->| ->]; [discriminate|]. injection Hsame as Hsame.
    rewrite (Hls o (Z.le_refl o)), Hlater. cbn [map with_lineno _lineno].
    f_equal; [congruence|].
    apply (IH _ (Some prev) prev); [right; reflexivity|].
    intros o' Ho'. apply Hls. lia.
  - rewrite (Hls o (Z.le_refl o)), py_dict_cons_lookup, Hlater.
    destruct (decide (o = o)) as [_|Hne]; [|contradiction].
    cbn [map with_lineno _lineno]. f_equal.
    apply (IH _ (Some (_lineno i)) (_lineno i)); [right; reflexivity|].
    intros o' Ho'. rewrite (Hls o') by lia. rewrite py_dict_cons_lookup.
    destruct (py_dict _ !! o'); [reflexivity|].
    destruct (decide (o = o')); [lia|reflexivity].
Qed.

Lemma relined_lines_sizes ls l1 :
  forall l2 o prev,
    map _size l1 = map _size l2 ->
    map _lineno (relined ls o prev l1) = map _lineno (relined ls o prev l2).
Proof.
  induction l1 as [|i1 l1 IH]; intros [|i2 l2] o prev Hsz; simpl in *;
    try discriminate; [reflexivity|].
  injection Hsz as Hs Hsz. rewrite Hs. f_equal. apply IH. exact Hsz.
Qed.

Lemma relabel_list_lines bm l :
  forall o, map _lineno (relabel_list T bm o l) = map _lineno l.
Proof.
  induction l as [|i l IH]; intros o; simpl; [reflexivity|].
  rewrite IH. f_equal. unfold relabel.
  destruct (jump_target T o i); [|reflexivity].
  destruct (bm !! _); reflexivity.
Qed.

(** Assembling a graph and disassembling the result gives every instruction
    the line number it had, when no line is further than -127..126 from the
    line before it (the first one from [co_firstlineno]); the conditions on
    the graph are those of the round trip of the instruction stream. *)
Theorem round_trip_keeps_lines (c : Code) (blocks : list (Label * list Instr))
    (co : CodeType) (next : nat) :
  table_wf T ->
  blocks_view c = Ok blocks ->
  valid_graph T blocks ->
  jump_targets_inside T blocks ->
  lines_close (co_firstlineno (code_obj c)) (flat blocks) ->
  Code_assemble T c = Ok co ->
  co_code co <> [] ->
  exists c' blocks',
    Code_disassemble T co next = Ok c'
    /\ blocks_view c' = Ok blocks'
    /\ map _lineno (flat blocks') = map _lineno (flat blocks)
    /\ map _size (flat blocks') = map _size (flat blocks).
Proof.
  intros Htab Hview Hvalid Hinside Hclose Hasm Hne.
  unfold Code_assemble in Hasm. rewrite Hview in Hasm. simpl in Hasm.
  apply assemble_blocks_inv in Hasm as (st & Hst & Hcode & Hlnotab & Hfirst).
  pose proof (valid_instr_wf T _ Hvalid) as Hwf.
  destruct (assemble_fold_raw T _ _ Hvalid _ _ Hst)
    as (ris & Hraw & Hsizes & Hascode & Htgts).
  simpl in Hascode, Htgts. rewrite Hascode in Hcode.
  assert (Hflatne : flat blocks <> []).
  { intros Hnil. rewrite Hnil in Hsizes. destruct ris; [|discriminate].
    simpl in Hcode. contradiction. }
  set (ls := py_dict (findlinestarts co)).
  set (dis := relined ls 0 (co_firstlineno co) ris).
  assert (Hrawdis : Forall (raw_ok T) dis) by (apply relined_raw; assumption).
  assert (Hdisne : dis <> []).
  { subst dis. destruct ris; [|discriminate].
    simpl in Hcode. contradiction. }
  destruct (decode_loop_complete T ls ris Htab Hraw [] (length (co_code co))
              (co_firstlineno co) [] ∅) as (bs' & Hdec & Hbs).
  { rewrite Hcode. lia. }
  change (len (@nil Z)) with 0 in Hdec, Hbs.
  simpl in Hdec. rewrite <- Hcode in Hdec. fold dis in Hdec.
  destruct (split_blocks_spec T next dis bs' (raw_ok_wf T _ Hrawdis) Hdisne)
    as (blocks1 & bm & next' & Hsplit & Hflat1 & Htg1 & Hcov1).
  assert (Hcov : forall t, t ∈ targets_of T 0 (flat (view_of blocks1)) ->
                           is_Some (bm !! t)).
  { intros t Ht. rewrite Hflat1 in Ht. unfold dis in Ht.
    rewrite relined_targets in Ht.
    apply Hcov1.
    - apply Hbs. right. exact Ht.
    - destruct (Htgts t Ht) as (i & l & Hin & Hj & Ha & Hl).
      specialize (Hinside i l t Hin Hj Ha Hl).
      destruct (find_targets_lookup _ _ _ Hl) as (k & ins & _ & Hk & _).
      pose proof (block_start_in_starts T blocks k t Hwf Hk Hinside) as Hstart.
      unfold dis. rewrite (starts_sizes 0 _ (flat blocks)); [assumption|].
      rewrite relined_sizes. assumption. }
  assert (Hraw1 : Forall (raw_ok T) (flat (view_of blocks1)))
    by (rewrite Hflat1; assumption).
  pose proof (retarget_blocks_complete T bm blocks1 Hraw1 0 [] Hcov) as Hret.
  exists (Code_init co next' (relabel_blocks T bm 0 blocks1)),
         (view_of (relabel_blocks T bm 0 blocks1)).
  split; [|split; [apply Code_init_view|]].
  - unfold Code_disassemble. fold ls. rewrite Hdec. simpl.
    rewrite Hsplit. simpl. rewrite Hret. reflexivity.
  - rewrite relabel_blocks_flat, Hflat1. split.
    + rewrite relabel_list_lines. unfold dis.
      rewrite (relined_lines_sizes ls ris (flat blocks)) by exact Hsizes.
      apply (relined_line_changes _ Hwf 0 None); [left; reflexivity|].
      intros o' _. subst ls.
      rewrite (assemble_fold_lines _ _ Hwf _ _ Hst) in Hlnotab.
      simpl in Hlnotab.
      pose proof (findlinestarts_of_lines (co_code co) _ _ _ Hwf Hflatne
                    Hclose Hlnotab) as Hfl.
      rewrite <- Hfirst in Hfl. destruct co. simpl in Hfl. rewrite Hfl.
      reflexivity.
    + rewrite relabel_list_sizes by exact Hrawdis.
      unfold dis. rewrite relined_sizes. exact Hsizes.
Qed.

(** ** [disassemble] on a well-formed stream *)

Lemma relined_names ls l :
  forall o line, map _name (relined ls o line l) = map _name l.
Proof. induction l as [|i l IH]; intros o line; simpl; [|rewrite IH]; reflexivity. Qed.

Lemma relabel_list_names bm l :
  forall o, map _name (relabel_list T bm o l) = map _name l.
Proof.
  induction l as [|i l IH]; intros o; simpl; [reflexivity|].
  rewrite IH. f_equal. unfold relabel.
  destruct (jump_target T o i); [|reflexivity].
  destruct (bm !! _); reflexivity.
Qed.

(** [disassemble] returns a graph for every non-empty stream that is the
    concatenation of encoded instructions whose jumps all land on the start
    of an instruction, whatever the line table holds; the graph has the
    instructions of the stream in order, with their sizes. *)
Theorem disassemble_accepts_wellformed (ris : list Instr) (first : Z)
    (lnotab : list Z) (next : nat) :
  table_wf T ->
  Forall (raw_ok T) ris ->
  ris <> [] ->
  (forall t, t ∈ targets_of T 0 ris -> t ∈ starts 0 ris) ->
  exists c blocks,
    Code_disassemble T (mkCodeType (concat (map bytes_of ris)) first lnotab) next
    = Ok c
    /\ blocks_view c = Ok blocks
    /\ map _name (flat blocks) = map _name ris
    /\ map _size (flat blocks) = map _size ris.
Proof.
  intros Htab Hraw Hne Htargets.
  set (co := mkCodeType (concat (map bytes_of ris)) first lnotab).
  set (ls := py_dict (findlinestarts co)).
  set (dis := relined ls 0 first ris).
  assert (Hrawdis : Forall (raw_ok T) dis) by (apply relined_raw; assumption).
  assert (Hdisne : dis <> []) by (subst dis; destruct ris; [contradiction|discriminate]).
  destruct (decode_loop_complete T ls ris Htab Hraw [] (length (co_code co))
              first [] ∅) as (bs' & Hdec & Hbs).
  { simpl. lia. }
  change (len (@nil Z)) with 0 in Hdec, Hbs.
  simpl in Hdec. fold dis in Hdec.
  destruct (split_blocks_spec T next dis bs' (raw_ok_wf T _ Hrawdis) Hdisne)
    as (blocks1 & bm & next' & Hsplit & Hflat1 & Htg1 & Hcov1).
  assert (Hcov : forall t, t ∈ targets_of T 0 (flat (view_of blocks1)) ->
                           is_Some (bm !! t)).
  { intros t Ht. rewrite Hflat1 in Ht. unfold dis in Ht.
    rewrite relined_targets in Ht.
    apply Hcov1.
    - apply Hbs. right. exact Ht.
    - unfold dis. rewrite (starts_sizes 0 _ ris); [apply Htargets; exact Ht|].
      apply relined_sizes. }
  assert (Hraw1 : Forall (raw_ok T) (flat (view_of blocks1)))
    by (rewrite Hflat1; assumption).
  pose proof (retarget_blocks_complete T bm blocks1 Hraw1 0 [] Hcov) as Hret.
  exists (Code_init co next' (relabel_blocks T bm 0 blocks1)),
         (view_of (relabel_blocks T bm 0 blocks1)).
  split; [|split; [apply Code_init_view|]].
  - unfold Code_disassemble. fold ls. cbn [co_code co_firstlineno co].
    rewrite Hdec. simpl. rewrite Hsplit. simpl. rewrite Hret. reflexivity.
  - rewrite relabel_blocks_flat, Hflat1. split.
    + rewrite relabel_list_names. unfold dis. apply relined_names.
    + rewrite relabel_list_sizes by exact Hrawdis.
      unfold dis. apply relined_sizes.
Qed.

End WithTable.

(** ** The theorems on concrete graphs *)

Definition load_const_258 : Instr := mkInstr 1 "LOAD_CONST" (ArgInt 258) 3 100.

Lemma Instr_disassemble_assemble_example :
  Instr_disassemble cpython_table 1 [100; 2; 1] 0 = Ok load_const_258.
Proof.
  apply (Instr_disassemble_assemble cpython_table load_const_258 [100; 2; 1]).
  - exact cpython_table_wf.
  - vm_compute. reflexivity.
  - simpl. split; [discriminate|lia].
  - reflexivity.
Defined.

Lemma assemble_operands_fit_example :
  exists out,
    assemble_blocks example_table (mkCodeType [] 1 []) example_blocks = Ok out
    /\ len (co_code out) = 41.
Proof.
  destruct (assemble_blocks example_table (mkCodeType [] 1 []) example_blocks)
    as [out|e] eqn:Hout; [|vm_compute in Hout; discriminate Hout].
  exists out. split; [reflexivity|].
  destruct (assemble_operands_fit example_table (mkCodeType [] 1 []) out
              example_blocks []
              (replicate 37 (mkInstr 1 "NOP" ArgNone 1 9)
               ++ [mkInstr 2 "RET" ArgNone 1 83])
              example_jump) as [Hlen _].
  - repeat constructor.
  - exact Hout.
  - reflexivity.
  - exact Hlen.
Defined.

(** The stream of one instruction, a jump to itself. *)
Definition self_jump_stream : CodeType := mkCodeType [113; 0; 0] 1 [].

Definition self_jump : Instr := mkInstr 1 "JUMP_ABSOLUTE" (ArgLabel 0%nat) 3 113.

Lemma disassemble_labels_jump_targets_example :
  exists n k ins,
    operand_at [113; 0; 0] 0 = Ok n
    /\ [(0%nat, [self_jump])] !! k = Some (0%nat, ins)
    /\ code_size (flat (take k [(0%nat, [self_jump])])) = n.
Proof.
  apply (disassemble_labels_jump_targets cpython_table self_jump_stream 0
           (Code_init self_jump_stream 1 [mkBlock 0%nat [self_jump]])
           [(0%nat, [self_jump])] [] [] self_jump 0%nat).
  - vm_compute. reflexivity.
  - vm_compute. reflexivity.
  - reflexivity.
  - reflexivity.
Defined.

Lemma disassemble_blocks_wellformed_example :
  [(0%nat, [self_jump])] <> []
  /\ map fst [(0%nat, [self_jump])] = seq 0 1
  /\ NoDup (map fst [(0%nat, [self_jump])])
  /\ Forall (fun b => b.2 <> []) [(0%nat, [self_jump])]
  /\ Code_wf (Code_init self_jump_stream 1 [mkBlock 0%nat [self_jump]]).
Proof.
  apply (disassemble_blocks_wellformed cpython_table self_jump_stream 0).
  - vm_compute. reflexivity.
  - vm_compute. reflexivity.
Defined.

Lemma twin_labels_NoDup :
  NoDup (map label [mkBlock 0%nat [nop 1; nop 1]; mkBlock 1%nat [nop 1; nop 1]]).
Proof.
  simpl. apply NoDup_cons_2; [|apply NoDup_singleton].
  intros Hin. apply list_elem_of_singleton in Hin. discriminate Hin.
Qed.

Lemma Code_init_getitem_example :
  Code_getitem twin_blocks_code (ByIndex 1)
    = Ok (3%nat, mkBlock 1%nat [nop 1; nop 1])
  /\ Code_getitem twin_blocks_code (ByLabel 1%nat)
     = Ok (3%nat, mkBlock 1%nat [nop 1; nop 1]).
Proof.
  destruct (Code_init_getitem empty_code_obj 2
              [mkBlock 0%nat [nop 1; nop 1]; mkBlock 1%nat [nop 1; nop 1]]
              1 (mkBlock 1%nat [nop 1; nop 1]) twin_labels_NoDup eq_refl)
    as (H1 & H2 & _).
  split; [exact H1|exact H2].
Defined.

Lemma twin_blocks_closed :
  forall a, a ∈ _blocks twin_blocks_code -> is_Some (heap twin_blocks_code !! a).
Proof.
  intros a Ha. change (_blocks twin_blocks_code) with [2%nat; 3%nat] in Ha.
  apply elem_of_cons in Ha as [->|Ha];
    [|apply list_elem_of_singleton in Ha as ->]; vm_compute; eauto.
Qed.

Lemma create_label_by_index_bounds_example :
  exists a b, 0 <= 1 < len (_blocks twin_blocks_code)
    /\ _blocks twin_blocks_code !! Z.to_nat 1 = Some a
    /\ heap twin_blocks_code !! a = Some b
    /\ (1 = 0 \/ 0 < 1 < len (instrs b)).
Proof.
  pose proof (create_label_by_index_bounds twin_blocks_code 1 1
                twin_blocks_closed) as H.
  destruct (create_label (ByIndex 1) 1 twin_blocks_code) as [[l|e] c'] eqn:Hc;
    [exact H|vm_compute in Hc; discriminate Hc].
Defined.

Lemma twin_blocks_wf : Code_wf twin_blocks_code.
Proof. apply Code_init_wf. repeat constructor. Qed.

Lemma twin_blocks_NoDup : NoDup (_blocks twin_blocks_code).
Proof.
  change (_blocks twin_blocks_code) with [2%nat; 3%nat].
  apply NoDup_cons_2; [|apply NoDup_singleton].
  intros Hin. apply list_elem_of_singleton in Hin. discriminate Hin.
Qed.

Lemma create_label_keeps_assembly_example :
  Code_assemble cpython_table (create_label (ByIndex 1) 1 twin_blocks_code).2
  = Ok (mkCodeType [9; 9; 9; 9] 1 [1; 0; 1; 0; 1; 0]).
Proof.
  apply (create_label_keeps_assembly cpython_table twin_blocks_code _ 1 1 4%nat).
  - exact twin_blocks_wf.
  - exact twin_blocks_NoDup.
  - vm_compute. reflexivity.
  - vm_compute. reflexivity.
Defined.

(** A relative jump to the block it stands in: backwards. *)
Definition backward_blocks : list (Label * list Instr) :=
  [(0%nat, [nop 1; mkInstr 1 "JUMP_FORWARD" (ArgLabel 0%nat) 3 110])].

Lemma assemble_raises_only_example :
  encoding_error StructError
  /\ foldM (assemble_instr cpython_table (find_targets backward_blocks))
           (mkAsm 0 [] []) (flat backward_blocks) = Raise StructError.
Proof.
  pose proof (assemble_raises_only cpython_table empty_code_obj backward_blocks)
    as H.
  assert (E : assemble_blocks cpython_table empty_code_obj backward_blocks
              = Raise StructError) by (vm_compute; reflexivity).
  rewrite E in H. apply H. repeat constructor.
Defined.

Definition loop_blocks : list (Label * list Instr) :=
  [(0%nat, [mkInstr 1 "LOAD_CONST" (ArgInt 0) 3 100;
            mkInstr 1 "POP_JUMP_IF_FALSE" (ArgLabel 1%nat) 3 114;
            mkInstr 2 "JUMP_FORWARD" (ArgLabel 1%nat) 3 110]);
   (1%nat, [mkInstr 3 "NOP" ArgNone 1 9;
            mkInstr 3 "JUMP_ABSOLUTE" (ArgLabel 0%nat) 3 113;
            mkInstr 4 "RETURN_VALUE" ArgNone 1 83])].

Definition loop_code_obj : CodeType :=
  mkCodeType [100; 0; 0; 114; 9; 0; 110; 0; 0; 9; 113; 0; 0; 83] 1
             [3; 0; 3; 1; 3; 1; 1; 0; 3; 1].

Lemma loop_lines_close : lines_close 1 (flat loop_blocks).
Proof. simpl. repeat split; lia. Qed.

Lemma assemble_line_table_round_trip_example :
  findlinestarts loop_code_obj = [(0, 1); (6, 2); (9, 3); (13, 4)].
Proof.
  apply (assemble_line_table_round_trip cpython_table empty_code_obj
           loop_code_obj loop_blocks).
  - repeat constructor.
  - discriminate.
  - exact loop_lines_close.
  - vm_compute. reflexivity.
Defined.

Lemma round_trip_keeps_lines_example :
  exists c' blocks',
    Code_disassemble cpython_table loop_code_obj 4 = Ok c'
    /\ blocks_view c' = Ok blocks'
    /\ map _lineno (flat blocks') = [1; 1; 2; 3; 3; 4]
    /\ map _size (flat blocks') = [3; 3; 3; 1; 3; 1].
Proof.
  apply (round_trip_keeps_lines cpython_table loop_code loop_blocks).
  - exact cpython_table_wf.
  - vm_compute. reflexivity.
  - unfold valid_graph. simpl. valid_instrs.
  - intros i l t Hin _ Harg Hl. simpl in Hin.
    repeat (apply elem_of_cons in Hin as [->|Hin]);
      try (apply elem_of_nil in Hin; contradiction);
      simpl in Harg; try discriminate Harg; inversion Harg; subst l;
      vm_compute in Hl; inversion Hl; subst t; vm_compute; reflexivity.
  - exact loop_lines_close.
  - vm_compute. reflexivity.
  - discriminate.
Defined.

Definition nop_then_jump : list Instr :=
  [nop 1; mkInstr 1 "JUMP_ABSOLUTE" (ArgInt 0) 3 113].

Lemma raw_ok_intro (T : OpcodeTable) (i : Instr) :
  Instr_init T (_lineno i) (_name i) (_arg i) = Ok i ->
  0 <= _op i <= 255 ->
  (HAVE_ARGUMENT T <=? _op i) = negb (bool_decide (_arg i = ArgNone)) ->
  match _arg i with
  | ArgNone => is_jump T i = false
  | ArgInt n => 0 <= n <= 65535
  | ArgLabel _ => False
  end ->
  raw_ok T i.
Proof.
  intros Hwf Hop Har Harg. split; [exact Hwf|]. split; [exact Hop|].
  split; [|split; [|split]].
  - destruct (Z.leb_spec (HAVE_ARGUMENT T) (_op i)); case_bool_decide;
      simpl in Har; try discriminate; split; intros; try lia; congruence.
  - intros l Hl. rewrite Hl in Harg. exact Harg.
  - intros n Hn. rewrite Hn in Harg. exact Harg.
  - intros Hj. destruct (_arg i) as [|n|l]; [congruence|eauto|contradiction].
Qed.

Lemma nop_then_jump_raw : Forall (raw_ok cpython_table) nop_then_jump.
Proof.
  repeat (apply Forall_cons_2 || apply Forall_nil_2);
    (apply raw_ok_intro;
     [vm_compute; reflexivity | simpl; lia | vm_compute; reflexivity
     | first [simpl; lia | vm_compute; reflexivity]]).
Qed.

Lemma disassemble_accepts_wellformed_example :
  exists c blocks,
    Code_disassemble cpython_table (mkCodeType [9; 113; 0; 0] 1 []) 0 = Ok c
    /\ blocks_view c = Ok blocks
    /\ map _name (flat blocks) = ["NOP"; "JUMP_ABSOLUTE"]%string
    /\ map _size (flat blocks) = [1; 3].
Proof.
  apply (disassemble_accepts_wellformed cpython_table nop_then_jump 1 [] 0).
  - exact cpython_table_wf.
  - exact nop_then_jump_raw.
  - discriminate.
  - intros t Ht. vm_compute in Ht.
    apply list_elem_of_singleton in Ht as ->. simpl.
    apply elem_of_cons. left. reflexivity.
Defined.

(** Two blocks with different instruction lists. *)
Definition two_blocks_code : Code :=
  Code_init empty_code_obj 2
            [mkBlock 0%nat [nop 1]; mkBlock 1%nat [nop 2; nop 2]].

Lemma create_label_by_label_first_equal_example :
  create_label (ByLabel 1%nat) 1 two_blocks_code
  = create_label (ByIndex 1) 1 two_blocks_code.
Proof.
  apply (create_label_by_label_first_equal two_blocks_code 1%nat 3%nat
           (mkBlock 1%nat [nop 2; nop 2]) 1%nat 1).
  - vm_compute. reflexivity.
  - vm_compute. reflexivity.
  - reflexivity.
  - intros j a' b' Hj Ha' Hb'. destruct j as [|j]; [|lia].
    injection Ha' as <-. vm_compute in Hb'. injection Hb' as <-. reflexivity.
Defined.

End BytecodeMore.

(** * Part VI: further functions and properties of [bytecode/instr.py] *)

Module InstrMore.

Import InstrPy InstrFacts.

(** [sub in s] on strings. *)
Fixpoint str_in (sub s : string) : bool :=
  String.prefix sub s
  || match s with
     | EmptyString => false
     | String _ s' => str_in sub s'
     end.

(** The outcome of a method that can also raise [RuntimeError]. *)
Inductive outcome : Type :=
| Done
| Raised (e : exn)
| RaisedRuntimeError.

Section WithEnv.

Variable E : Env.

(** [BaseInstr.copy]: [self.__class__(self._name, self._arg,
    location=self._location)]. *)
Definition copy (s : BaseInstr) : result BaseInstr :=
  Instr_init E (PyStr (_name s)) (_arg s) LinenoUnset (_location s).

(** The getter of the [lineno] property. *)
Definition lineno_getter (s : BaseInstr) : LinenoArg :=
  match _location s with
  | Some loc => LinenoVal (lineno loc)
  | None => LinenoUnset
  end.

(** The setter of the [lineno] property.  An [InstrLocation] object is
    always true. *)
Definition lineno_setter (v : LinenoArg) (s : BaseInstr)
  : outcome * BaseInstr :=
  let detailed :=
    match _location s with
    | Some loc =>
        bool_decide (end_lineno loc <> None)
        || bool_decide (col_offset loc <> None)
        || bool_decide (end_col_offset loc <> None)
    | None => false
    end in
  if detailed then (RaisedRuntimeError, s)
  else
    match v with
    | LinenoUnset => (Done, mkBaseInstr (_name s) (_opcode s) (_arg s) None)
    | LinenoVal v =>
        match InstrLocation_init E v None None None with
        | Ok loc =>
            (Done, mkBaseInstr (_name s) (_opcode s) (_arg s) (Some loc))
        | Raise e => (Raised e, s)
        end
    end.

(** [BaseInstr.has_jump] *)
Definition has_jump (s : BaseInstr) : bool := _has_jump E (_opcode s).

(** [BaseInstr.is_cond_jump] *)
Definition is_cond_jump (s : BaseInstr) : bool :=
  str_in "JUMP_" (_name s) && str_in "IF_" (_name s).

(** [BaseInstr.is_uncond_jump] *)
Definition is_uncond_jump (s : BaseInstr) : bool :=
  bool_decide (_name s ∈ ["JUMP_FORWARD"; "JUMP_ABSOLUTE"; "JUMP_BACKWARD";
                          "JUMP_BACKWARD_NO_INTERRUPT"]%string).

(** [BaseInstr.is_abs_jump] *)
Definition is_abs_jump (s : BaseInstr) : bool :=
  bool_decide (_opcode s ∈ hasjabs (table E)).

(** [BaseInstr.is_forward_rel_jump] *)
Definition is_forward_rel_jump (s : BaseInstr) : bool :=
  bool_decide (_opcode s ∈ hasjrel (table E))
  && negb (str_in "BACKWARD" (_name s)).

(** [BaseInstr.is_backward_rel_jump] *)
Definition is_backward_rel_jump (s : BaseInstr) : bool :=
  bool_decide (_opcode s ∈ hasjrel (table E)) && str_in "BACKWARD" (_name s).

(** [BaseInstr.is_final] *)
Definition is_final (s : BaseInstr) : bool :=
  if bool_decide (_name s ∈ ["RETURN_VALUE"; "RAISE_VARARGS"; "RERAISE";
                             "BREAK_LOOP"; "CONTINUE_LOOP"]%string)
  then true
  else if is_uncond_jump s then true
  else false.

(** ** [InstrLocation] *)

(** The locations the constructor accepts: a line number from the smallest
    valid one on; an end line from 1 on that comes with a line number not
    after it; both columns or none, and with them both line numbers and
    [0 <= col_offset <= end_col_offset]. *)
Definition valid_location (l e c ec : option Z) : Prop :=
  match l with
  | Some lv => (if py311 E then 0 else 1) <= lv
  | None => True
  end
  /\ match e with
     | Some ev => 1 <= ev /\ match l with Some lv => lv <= ev | None => False end
     | None => True
     end
  /\ match c, ec with
     | None, None => True
     | Some cv, Some ecv =>
         0 <= cv <= ecv
         /\ match l, e with Some _, Some _ => True | _, _ => False end
     | _, _ => False
     end.

(** [InstrLocation(...)] returns the location exactly when it is valid, and
    raises [ValueError] otherwise. *)
Theorem InstrLocation_init_valid (l e c ec : option Z) :
  (valid_location l e c ec
   /\ InstrLocation_init E l e c ec = Ok (mkLocation l e c ec))
  \/ (~ valid_location l e c ec
      /\ InstrLocation_init E l e c ec = Raise ValueError).
Proof.
  unfold InstrLocation_init, valid_location, _check_location.
  destruct l as [lv|], e as [ev|], c as [cv|], ec as [ecv|];
    repeat first
      [ progress cbn [mbind result_bind]
      | match goal with
        | |- context [?a <? ?b] => destruct (Z.ltb_spec a b)
        | |- context [?a =? ?b] => destruct (Z.eqb_spec a b)
        | |- context [bool_decide ?P] => case_bool_decide
        end
      | progress cbn [orb andb negb] ];
    try congruence;
    first [ left; split; [repeat split; try lia | reflexivity]
          | right; split; [intros Hv; intuition lia | reflexivity] ].
Qed.

(** ** The slots after a mutation *)

Lemma Instr_init_slots name arg lineno location s :
  Instr_init E name arg lineno location = Ok s ->
  exists n, name = PyStr n /\ _name s = n /\ _arg s = arg
    /\ opmap (table E) !! n = Some (_opcode s)
    /\ _check_arg E n (_opcode s) arg = Ok tt
    /\ match location with
       | Some loc => _location s = Some loc
       | None =>
           match lineno with
           | LinenoUnset => _location s = None
           | LinenoVal v =>
               exists loc, InstrLocation_init E v None None None = Ok loc
                           /\ _location s = Some loc
           end
       end.
Proof.
  unfold Instr_init. intros H.
  destruct (set_spec E name arg blank) as [[e He]|(n & o & Hn & Hop & Hck & Hset)];
    unfold mbind, M_mbind, M_bind in H.
  - rewrite He in H. discriminate H.
  - rewrite Hset in H. exists n.
    destruct location as [loc|]; [|destruct lineno as [|v]].
    + injection H as <-. simpl. auto 10.
    + injection H as <-. simpl. auto 10.
    + unfold M_lift in H.
      destruct (InstrLocation_init E v None None None) as [loc|e] eqn:Hloc;
        [|discriminate H].
      injection H as <-. simpl. eauto 10.
Qed.

(** A successful [set(name, arg)] stores exactly the name and the operand it
    was given, with the opcode [opmap] has for the name, and leaves the
    location alone; the setter of [name] leaves the operand alone and the
    setter of [arg] the name and the opcode. *)
Theorem set_stores_arguments (name : string) (arg : PyVal) (s s' : BaseInstr) :
  set E (PyStr name) arg s = (Ok tt, s') ->
  _name s' = name /\ _arg s' = arg
  /\ opmap (table E) !! name = Some (_opcode s')
  /\ _location s' = _location s
  /\ name_setter E (PyStr name) s'
     = (Ok tt, mkBaseInstr name (_opcode s') arg (_location s))
  /\ arg_setter E arg s'
     = (Ok tt, mkBaseInstr name (_opcode s') arg (_location s)).
Proof.
  unfold set. intros H.
  destruct (set_spec E (PyStr name) arg s)
    as [[e He]|(n & o & Hn & Hop & Hck & Hset)].
  - rewrite He in H. discriminate H.
  - injection Hn as <-. rewrite Hset in H. injection H as <-. simpl.
    split; [reflexivity|]. split; [reflexivity|]. split; [exact Hop|].
    split; [reflexivity|].
    unfold name_setter, arg_setter, mbind, M_mbind, M_bind, M_get, _set.
    simpl. rewrite Hop. unfold M_lift. rewrite Hck. simpl. auto.
Qed.

(** ** [copy] *)

(** The copy of an instruction the constructor returned is an instruction
    with the same name, opcode, operand and location: [copy] cannot fail. *)
Theorem copy_of_instruction (name arg : PyVal) (lineno : LinenoArg)
    (location : option InstrLocation) (s : BaseInstr) :
  Instr_init E name arg lineno location = Ok s ->
  copy s = Ok s.
Proof.
  intros H. apply Instr_init_slots in H as (n & _ & Hn & Ha & Hop & Hck & _).
  unfold copy, Instr_init, mbind, M_mbind, M_bind, _set. rewrite Hn, Ha.
  rewrite Hop. unfold M_lift. rewrite Hck. simpl.
  destruct s as [n' o' a' loc']. simpl in *. subst.
  destruct loc'; reflexivity.
Qed.

(** ** What an instruction never is *)

(** No instruction the constructor returns, and no instruction after a
    successful mutation, has the name [EXTENDED_ARG]. *)
Theorem never_extended_arg (name arg : PyVal) (lineno : LinenoArg)
    (location : option InstrLocation) (m : Mutation) (s0 : BaseInstr) :
  match Instr_init E name arg lineno location with
  | Ok s => bool_decide (_name s = "EXTENDED_ARG") = false
  | Raise _ => True
  end
  /\ match mutate E m s0 with
     | (Ok _, s') => bool_decide (_name s' = "EXTENDED_ARG") = false
     | (Raise _, _) => True
     end.
Proof.
  assert (Hck : forall n o a,
            _check_arg E n o a = Ok tt ->
            bool_decide (n = "EXTENDED_ARG") = false).
  { intros n o a. unfold _check_arg. case_bool_decide; [discriminate|reflexivity]. }
  assert (Hset : forall nm a s,
            match _set E nm a s with
            | (Ok _, s') => bool_decide (_name s' = "EXTENDED_ARG") = false
            | (Raise _, _) => True
            end).
  { intros nm a s.
    destruct (set_spec E nm a s) as [[e He]|(n & o & _ & _ & Hc & Hs)].
    - rewrite He. exact I.
    - rewrite Hs. simpl. eapply Hck. exact Hc. }
  split.
  - destruct (Instr_init E name arg lineno location) as [s|e] eqn:H; [|exact I].
    apply Instr_init_slots in H as (n & _ & Hn & _ & _ & Hc & _).
    rewrite Hn. eapply Hck. exact Hc.
  - destruct m as [nm a|nm|op|a]; simpl.
    + apply Hset.
    + unfold name_setter, mbind, M_mbind, M_bind, M_get. apply Hset.
    + unfold opcode_setter.
      destruct (negb (isinstance_int op)); [exact I|].
      unfold mbind, M_mbind, M_bind.
      destruct ((0 <=? int_value op) && (int_value op <=? 255)).
      * unfold M_lift.
        destruct (py_getitem (opname (table E)) (int_value op)) as [nm|e];
          [|exact I].
        unfold M_ret, mret, M_mret, M_ret. simpl.
        destruct (negb (negb (bool_decide _))); [exact I|].
        exact (Hset (PyStr nm) (_arg s0) s0).
      * unfold M_ret. simpl. exact I.
    + unfold arg_setter, mbind, M_mbind, M_bind, M_get. apply Hset.
Qed.

(** ** The [lineno] property *)

(** The instruction has detailed location information: a location with an
    end line or a column. *)
Definition has_detailed_location (s : BaseInstr) : Prop :=
  exists loc, _location s = Some loc
    /\ (end_lineno loc <> None \/ col_offset loc <> None
        \/ end_col_offset loc <> None).

(** On an instruction whose location has an end line or a column, setting
    [lineno] raises [RuntimeError], whatever the value, and changes nothing.
    On any other instruction it returns exactly when a location of that line
    alone is valid, reading [lineno] then gives the value back, and the
    name, the opcode and the operand are untouched; it raises [ValueError]
    on an invalid line and leaves the instruction unchanged. *)
Theorem lineno_setter_getter (v : LinenoArg) (s : BaseInstr) :
  (has_detailed_location s /\ lineno_setter v s = (RaisedRuntimeError, s))
  \/ (~ has_detailed_location s
      /\ match lineno_setter v s with
         | (Done, s') =>
             lineno_getter s' = v
             /\ _name s' = _name s /\ _opcode s' = _opcode s
             /\ _arg s' = _arg s
             /\ match v with
                | LinenoUnset => True
                | LinenoVal l => valid_location l None None None
                end
         | (Raised e, s') =>
             s' = s /\ e = ValueError
             /\ exists l, v = LinenoVal l /\ ~ valid_location l None None None
         | (RaisedRuntimeError, _) => False
         end).
Proof.
  unfold lineno_setter, has_detailed_location.
  destruct (_location s) as [loc|] eqn:Hloc.
  - destruct (bool_decide (end_lineno loc <> None)
              || bool_decide (col_offset loc <> None)
              || bool_decide (end_col_offset loc <> None)) eqn:Hdet.
    + left. split; [|reflexivity]. exists loc. split; [reflexivity|].
      apply orb_true_iff in Hdet as [Hdet|Hdet];
        [apply orb_true_iff in Hdet as [Hdet|Hdet]|];
        apply bool_decide_eq_true in Hdet; auto.
    + right. split.
      { intros (loc' & Heq & Hd). injection Heq as <-.
        apply orb_false_iff in Hdet as [Hdet H3].
        apply orb_false_iff in Hdet as [H1 H2].
        apply bool_decide_eq_false in H1, H2, H3. tauto. }
      destruct v as [|l]; [simpl; auto|].
      destruct (InstrLocation_init_valid l None None None) as [[Hv Hi]|[Hv Hi]];
        rewrite Hi; simpl; eauto 10.
  - right. split; [intros (loc' & Heq & _); discriminate Heq|].
    destruct v as [|l]; [simpl; auto|].
    destruct (InstrLocation_init_valid l None None None) as [[Hv Hi]|[Hv Hi]];
      rewrite Hi; simpl; eauto 10.
Qed.

(** ** The kinds of jump *)

(** An instruction has a jump exactly when it is an absolute, a forward
    relative or a backward relative jump; no instruction is both a forward
    and a backward relative jump; an unconditional jump is final and is no
    conditional jump. *)
Theorem jump_kinds (s : BaseInstr) :
  has_jump s
  = is_abs_jump s || is_forward_rel_jump s || is_backward_rel_jump s
  /\ is_forward_rel_jump s && is_backward_rel_jump s = false
  /\ (if is_uncond_jump s
      then is_final s = true /\ is_cond_jump s = false
      else True).
Proof.
  split; [|split].
  - unfold has_jump, _has_jump, is_abs_jump, is_forward_rel_jump,
      is_backward_rel_jump.
    destruct (bool_decide (_opcode s ∈ hasjrel (table E)));
      destruct (bool_decide (_opcode s ∈ hasjabs (table E)));
      destruct (str_in "BACKWARD" (_name s)); reflexivity.
  - unfold is_forward_rel_jump, is_backward_rel_jump.
    destruct (bool_decide (_opcode s ∈ hasjrel (table E)));
      destruct (str_in "BACKWARD" (_name s)); reflexivity.
  - destruct (is_uncond_jump s) eqn:Hu; [|exact I]. split.
    + unfold is_final. rewrite Hu.
      destruct (bool_decide (_name s ∈ _)); reflexivity.
    + unfold is_uncond_jump in Hu. apply bool_decide_eq_true in Hu.
      unfold is_cond_jump.
      repeat (apply elem_of_cons in Hu as [->|Hu]; [reflexivity|]).
      apply elem_of_nil in Hu. contradiction.
Qed.

(** ** The setter of [opcode] *)

(** The setter of [opcode] on any object.  An object that is no [int]
    (a [bool], a [Compare] and [UNSET] are) raises [TypeError].  An [int] of
    0..255 whose entry of [opname] is not the placeholder of an undefined
    opcode is setting the name to that entry; any other [int] raises
    [ValueError].  Whenever it raises this way, the instruction is
    unchanged. *)
Theorem opcode_setter_sets_name (op : PyVal) (s : BaseInstr) :
  if isinstance_int op then
    match py_getitem (opname (table E)) (int_value op) with
    | Ok nm =>
        if (0 <=? int_value op) && (int_value op <=? 255)
           && negb (bool_decide (nm = ("<" ++ repr_int op ++ ">")%string))
        then opcode_setter E op s = name_setter E (PyStr nm) s
        else opcode_setter E op s = (Raise ValueError, s)
    | Raise e =>
        if (0 <=? int_value op) && (int_value op <=? 255)
        then opcode_setter E op s = (Raise e, s)
        else opcode_setter E op s = (Raise ValueError, s)
    end
  else opcode_setter E op s = (Raise TypeError, s).
Proof.
  unfold opcode_setter, name_setter.
  destruct (isinstance_int op); cbn [negb]; [|reflexivity].
  unfold mbind, M_mbind, M_bind, M_lift, M_ret, mret, M_mret, M_ret, M_get,
    M_raise.
  destruct (py_getitem (opname (table E)) (int_value op)) as [nm|e];
    destruct ((0 <=? int_value op) && (int_value op <=? 255));
    cbn [andb fst snd negb]; try reflexivity.
  destruct (bool_decide (nm = _)); reflexivity.
Qed.

End WithEnv.

(** ** The theorems on concrete instructions *)

Lemma set_stores_arguments_example :
  name_setter cpython_env (PyStr "NOP") (mkBaseInstr "NOP" 9 UNSET None)
  = (Ok tt, mkBaseInstr "NOP" 9 UNSET None).
Proof.
  destruct (set_stores_arguments cpython_env "NOP" UNSET blank
              (mkBaseInstr "NOP" 9 UNSET None) eq_refl)
    as (_ & _ & _ & _ & H & _).
  exact H.
Defined.

Lemma copy_of_instruction_example :
  copy cpython_env for_iter = Ok for_iter.
Proof.
  apply (copy_of_instruction cpython_env (PyStr "FOR_ITER") (PyLabel 0%nat)
           LinenoUnset None).
  reflexivity.
Defined.

End InstrMore.
